(** * Multiplayer race game: the authoritative server (server/index.js)

    A shallow embedding of the game server: the physics kernel, the
    projectile and power-up resolvers, the per-tick session update and the
    socket handlers of the room registry, followed by the properties of the
    specification that are settled against them.  Of the client, the
    callback table of the socket service, the standings of the game-over
    screen and the room registry of the local game service are embedded as
    well.

    Numbers.  JavaScript numbers that only ever hold integers here (health,
    ammunition, laps, tick counts) are [Z]; the kinematic quantities
    (positions, velocities, headings, speed caps) are idealised as real
    numbers [R], with [Math.sqrt], [Math.cos], [Math.sin] and [Math.atan2]
    read as their mathematical counterparts.  The program computes them in
    binary64, so the statements about them are chosen not to hang on a
    rounding: they speak of what the program compares, clamps or copies, or
    they leave a margin that covers the rounding (see
    [capSpeedRounded_bound]).

    Identity and entropy.  [uuidv4()], [Math.random()] and the bottle
    identifiers are inputs of the handlers that draw them.  A car object
    captured by a [setTimeout] closure is named by an allocation index
    ([Car.ref]); interval handles are allocation indices as well. *)

From Stdlib Require Import Reals Lra Psatz ZArith Lia List String Bool Arith
  Permutation Sorted.
Import ListNotations.

Open Scope R_scope.

(** ** Comparisons of the source, as booleans *)

Definition Rltb (a b : R) : bool := if Rlt_dec a b then true else false.
Definition Rgtb (a b : R) : bool := Rltb b a.

(** [Math.atan2(y, x)]: the angle of the point (x, y), in (-PI, PI]. *)
Definition atan2 (y x : R) : R :=
  if Rltb 0 x then atan (y / x)
  else if Rltb x 0 then
    (if Rltb y 0 then atan (y / x) - PI else atan (y / x) + PI)
  else if Rltb 0 y then PI / 2
  else if Rltb y 0 then - (PI / 2)
  else 0.

(** ** Data model *)

Definition SocketId := string.
Definition RoomId := string.

(** [{ x, y }] *)
Module Vec.
Record t : Type := mk { x : R; y : R }.
End Vec.

(** [input.keys] of a [playerInput] message. *)
Module Keys.
Record t : Type := mk { up : bool; down : bool; left : bool; right : bool; space : bool }.
Definition none : t := mk false false false false false.
End Keys.

(** [powerUp.type]: one of the strings 'speed', 'shield', 'health', 'bottles'. *)
Module Kind.
Inductive t : Type := speed | shield | health | bottles.
End Kind.

Module PowerUp.
Record t : Type := mk {
  id : string;
  type : Kind.t;
  position : Vec.t;
  collected : bool;
  duration : option Z
}.
Definition set_collected (p : t) (b : bool) : t :=
  mk (id p) (type p) (position p) b (duration p).
Definition set_duration (p : t) (d : option Z) : t :=
  mk (id p) (type p) (position p) (collected p) d.
End PowerUp.

Module Car.
Record t : Type := mk {
  ref : nat;
  id : string;
  playerId : SocketId;
  playerName : string;
  position : Vec.t;
  velocity : Vec.t;
  rotation : R;
  health : Z;
  maxHealth : Z;
  speed : R;
  maxSpeed : R;
  acceleration : R;
  bottles : Z;
  lap : Z;
  lapTime : Z;
  totalTime : Z;
  isEliminated : bool;
  powerUps : list PowerUp.t;
  color : string
}.
Definition set_position (c : t) (p : Vec.t) : t :=
  mk (ref c) (id c) (playerId c) (playerName c) p (velocity c) (rotation c)
     (health c) (maxHealth c) (speed c) (maxSpeed c) (acceleration c) (bottles c)
     (lap c) (lapTime c) (totalTime c) (isEliminated c) (powerUps c) (color c).
Definition set_velocity (c : t) (v : Vec.t) : t :=
  mk (ref c) (id c) (playerId c) (playerName c) (position c) v (rotation c)
     (health c) (maxHealth c) (speed c) (maxSpeed c) (acceleration c) (bottles c)
     (lap c) (lapTime c) (totalTime c) (isEliminated c) (powerUps c) (color c).
Definition set_rotation (c : t) (r : R) : t :=
  mk (ref c) (id c) (playerId c) (playerName c) (position c) (velocity c) r
     (health c) (maxHealth c) (speed c) (maxSpeed c) (acceleration c) (bottles c)
     (lap c) (lapTime c) (totalTime c) (isEliminated c) (powerUps c) (color c).
Definition set_health (c : t) (h : Z) : t :=
  mk (ref c) (id c) (playerId c) (playerName c) (position c) (velocity c) (rotation c)
     h (maxHealth c) (speed c) (maxSpeed c) (acceleration c) (bottles c)
     (lap c) (lapTime c) (totalTime c) (isEliminated c) (powerUps c) (color c).
Definition set_maxSpeed (c : t) (m : R) : t :=
  mk (ref c) (id c) (playerId c) (playerName c) (position c) (velocity c) (rotation c)
     (health c) (maxHealth c) (speed c) m (acceleration c) (bottles c)
     (lap c) (lapTime c) (totalTime c) (isEliminated c) (powerUps c) (color c).
Definition set_bottles (c : t) (b : Z) : t :=
  mk (ref c) (id c) (playerId c) (playerName c) (position c) (velocity c) (rotation c)
     (health c) (maxHealth c) (speed c) (maxSpeed c) (acceleration c) b
     (lap c) (lapTime c) (totalTime c) (isEliminated c) (powerUps c) (color c).
Definition set_lap (c : t) (l : Z) : t :=
  mk (ref c) (id c) (playerId c) (playerName c) (position c) (velocity c) (rotation c)
     (health c) (maxHealth c) (speed c) (maxSpeed c) (acceleration c) (bottles c)
     l (lapTime c) (totalTime c) (isEliminated c) (powerUps c) (color c).
Definition set_totalTime (c : t) (n : Z) : t :=
  mk (ref c) (id c) (playerId c) (playerName c) (position c) (velocity c) (rotation c)
     (health c) (maxHealth c) (speed c) (maxSpeed c) (acceleration c) (bottles c)
     (lap c) (lapTime c) n (isEliminated c) (powerUps c) (color c).
Definition set_isEliminated (c : t) (b : bool) : t :=
  mk (ref c) (id c) (playerId c) (playerName c) (position c) (velocity c) (rotation c)
     (health c) (maxHealth c) (speed c) (maxSpeed c) (acceleration c) (bottles c)
     (lap c) (lapTime c) (totalTime c) b (powerUps c) (color c).
Definition set_powerUps (c : t) (l : list PowerUp.t) : t :=
  mk (ref c) (id c) (playerId c) (playerName c) (position c) (velocity c) (rotation c)
     (health c) (maxHealth c) (speed c) (maxSpeed c) (acceleration c) (bottles c)
     (lap c) (lapTime c) (totalTime c) (isEliminated c) l (color c).
End Car.

Module Bottle.
Record t : Type := mk {
  id : string;
  position : Vec.t;
  velocity : Vec.t;
  playerId : SocketId;
  damage : Z;
  active : bool
}.
Definition set_position (b : t) (p : Vec.t) : t :=
  mk (id b) p (velocity b) (playerId b) (damage b) (active b).
Definition set_active (b : t) (a : bool) : t :=
  mk (id b) (position b) (velocity b) (playerId b) (damage b) a.
End Bottle.

(** ** Physics kernel *)

Module PHYSICS.
Definition FRICTION : R := 0.95.
Definition TURN_SPEED : R := 0.08.
Definition ACCELERATION : R := 0.5.
Definition BRAKE_FORCE : R := 0.8.
Definition MAX_SPEED : R := 8.
Definition BOTTLE_SPEED : R := 12.
Definition TRACK_WIDTH : R := 800.
Definition TRACK_HEIGHT : R := 600.
End PHYSICS.

(** [Math.sqrt(v.x ** 2 + v.y ** 2)] *)
Definition magnitude (v : Vec.t) : R := sqrt (Vec.x v ^ 2 + Vec.y v ^ 2).

Definition keepInBounds (car : Car.t) : Car.t :=
  let margin := 20 in
  let car :=
    if Rltb (Vec.x (Car.position car)) margin then
      let car := Car.set_position car (Vec.mk margin (Vec.y (Car.position car))) in
      Car.set_velocity car
        (Vec.mk (Rabs (Vec.x (Car.velocity car)) * 0.5) (Vec.y (Car.velocity car)))
    else car in
  let car :=
    if Rgtb (Vec.x (Car.position car)) (PHYSICS.TRACK_WIDTH - margin) then
      let car := Car.set_position car
                   (Vec.mk (PHYSICS.TRACK_WIDTH - margin) (Vec.y (Car.position car))) in
      Car.set_velocity car
        (Vec.mk (- Rabs (Vec.x (Car.velocity car)) * 0.5) (Vec.y (Car.velocity car)))
    else car in
  let car :=
    if Rltb (Vec.y (Car.position car)) margin then
      let car := Car.set_position car (Vec.mk (Vec.x (Car.position car)) margin) in
      Car.set_velocity car
        (Vec.mk (Vec.x (Car.velocity car)) (Rabs (Vec.y (Car.velocity car)) * 0.5))
    else car in
  let car :=
    if Rgtb (Vec.y (Car.position car)) (PHYSICS.TRACK_HEIGHT - margin) then
      let car := Car.set_position car
                   (Vec.mk (Vec.x (Car.position car)) (PHYSICS.TRACK_HEIGHT - margin)) in
      Car.set_velocity car
        (Vec.mk (Vec.x (Car.velocity car)) (- Rabs (Vec.y (Car.velocity car)) * 0.5))
    else car in
  car.

Definition updateCarPhysics (car : Car.t) (input : Keys.t) : Car.t :=
  let car :=
    if Keys.up input then
      let forwardX := cos (Car.rotation car) * PHYSICS.ACCELERATION in
      let forwardY := sin (Car.rotation car) * PHYSICS.ACCELERATION in
      Car.set_velocity car
        (Vec.mk (Vec.x (Car.velocity car) + forwardX) (Vec.y (Car.velocity car) + forwardY))
    else car in
  let car :=
    if Keys.down input then
      Car.set_velocity car
        (Vec.mk (Vec.x (Car.velocity car) * PHYSICS.BRAKE_FORCE)
                (Vec.y (Car.velocity car) * PHYSICS.BRAKE_FORCE))
    else car in
  let speed := sqrt (Vec.x (Car.velocity car) ^ 2 + Vec.y (Car.velocity car) ^ 2) in
  let car :=
    if Rgtb speed 0.5 then
      let car :=
        if Keys.left input then
          Car.set_rotation car
            (Car.rotation car - PHYSICS.TURN_SPEED * (speed / PHYSICS.MAX_SPEED))
        else car in
      let car :=
        if Keys.right input then
          Car.set_rotation car
            (Car.rotation car + PHYSICS.TURN_SPEED * (speed / PHYSICS.MAX_SPEED))
        else car in
      car
    else car in
  let car :=
    Car.set_velocity car
      (Vec.mk (Vec.x (Car.velocity car) * PHYSICS.FRICTION)
              (Vec.y (Car.velocity car) * PHYSICS.FRICTION)) in
  let currentSpeed := sqrt (Vec.x (Car.velocity car) ^ 2 + Vec.y (Car.velocity car) ^ 2) in
  let car :=
    if Rgtb currentSpeed (Car.maxSpeed car) then
      Car.set_velocity car
        (Vec.mk (Vec.x (Car.velocity car) / currentSpeed * Car.maxSpeed car)
                (Vec.y (Car.velocity car) / currentSpeed * Car.maxSpeed car))
    else car in
  let car :=
    Car.set_position car
      (Vec.mk (Vec.x (Car.position car) + Vec.x (Car.velocity car))
              (Vec.y (Car.position car) + Vec.y (Car.velocity car))) in
  keepInBounds car.

(** ** Collision and combat resolver *)

Definition createBottle (car : Car.t) (bottleId : string) : Bottle.t :=
  let bottleSpeed := PHYSICS.BOTTLE_SPEED in
  let angle := Car.rotation car in
  Bottle.mk bottleId
    (Vec.mk (Vec.x (Car.position car) + cos angle * 40)
            (Vec.y (Car.position car) + sin angle * 40))
    (Vec.mk (cos angle * bottleSpeed + Vec.x (Car.velocity car))
            (sin angle * bottleSpeed + Vec.y (Car.velocity car)))
    (Car.playerId car)
    20%Z
    true.

Definition updateBottlePhysics (bottle : Bottle.t) : Bottle.t :=
  let bottle :=
    Bottle.set_position bottle
      (Vec.mk (Vec.x (Bottle.position bottle) + Vec.x (Bottle.velocity bottle))
              (Vec.y (Bottle.position bottle) + Vec.y (Bottle.velocity bottle))) in
  if Rltb (Vec.x (Bottle.position bottle)) 0
     || Rgtb (Vec.x (Bottle.position bottle)) PHYSICS.TRACK_WIDTH
     || Rltb (Vec.y (Bottle.position bottle)) 0
     || Rgtb (Vec.y (Bottle.position bottle)) PHYSICS.TRACK_HEIGHT
  then Bottle.set_active bottle false
  else bottle.

Definition checkCollision (pos1 pos2 : Vec.t) (radius1 radius2 : R) : bool :=
  let dx := Vec.x pos1 - Vec.x pos2 in
  let dy := Vec.y pos1 - Vec.y pos2 in
  let distance := sqrt (dx * dx + dy * dy) in
  Rltb distance (radius1 + radius2).

(** The result is the returned boolean with the two objects as the call
    leaves them. *)
Definition handleBottleCarCollision (bottle : Bottle.t) (car : Car.t)
  : bool * Bottle.t * Car.t :=
  if String.eqb (Bottle.playerId bottle) (Car.playerId car) || negb (Bottle.active bottle)
  then (false, bottle, car)
  else if checkCollision (Bottle.position bottle) (Car.position car) 5 20 then
    let car := Car.set_health car (Car.health car - Bottle.damage bottle)%Z in
    let bottle := Bottle.set_active bottle false in
    let knockbackForce := 3 in
    let angle := atan2 (Vec.y (Car.position car) - Vec.y (Bottle.position bottle))
                       (Vec.x (Car.position car) - Vec.x (Bottle.position bottle)) in
    let car :=
      Car.set_velocity car
        (Vec.mk (Vec.x (Car.velocity car) + cos angle * knockbackForce)
                (Vec.y (Car.velocity car) + sin angle * knockbackForce)) in
    (true, bottle, car)
  else (false, bottle, car).

(** ** Power-up manager *)

(** The second component lists the [setTimeout] callbacks the call
    schedules, each the [Car.ref] of the car object its closure captured. *)
Definition applyPowerUp (powerUp : PowerUp.t) (car : Car.t) : Car.t * list nat :=
  match PowerUp.type powerUp with
  | Kind.speed =>
      (Car.set_maxSpeed car (Rmin (Car.maxSpeed car + 2) 12), [Car.ref car])
  | Kind.shield =>
      (Car.set_powerUps car
         (Car.powerUps car ++ [PowerUp.set_duration powerUp (Some 8000%Z)])%list, [])
  | Kind.health =>
      (Car.set_health car (Z.min (Car.health car + 30) (Car.maxHealth car)), [])
  | Kind.bottles =>
      (Car.set_bottles car (Car.bottles car + 3)%Z, [])
  end.

Definition handlePowerUpCollection (powerUp : PowerUp.t) (car : Car.t)
  : bool * PowerUp.t * Car.t * list nat :=
  if PowerUp.collected powerUp then (false, powerUp, car, [])
  else if checkCollision (PowerUp.position powerUp) (Car.position car) 15 20 then
    let powerUp := PowerUp.set_collected powerUp true in
    let '(car, timeouts) := applyPowerUp powerUp car in
    (true, powerUp, car, timeouts)
  else (false, powerUp, car, []).

(** [uuidv4()] and [Math.random()], as the streams a call draws from. *)
Record Entropy : Type := mkEntropy { uuid : nat -> string; random : nat -> R }.

Definition skip (n : nat) (e : Entropy) : Entropy :=
  mkEntropy (fun i => uuid e (n + i)) (random e).

Definition generatePowerUpPositions (count : nat) (rnd : nat -> R) : list Vec.t :=
  let margin := 50 in
  map (fun i : nat =>
         Vec.mk (margin + rnd (2 * i)%nat * (PHYSICS.TRACK_WIDTH - 2 * margin))
                (margin + rnd (2 * i + 1)%nat * (PHYSICS.TRACK_HEIGHT - 2 * margin)))
      (seq 0 count).

(** [array.map((element, index) => ...)] and [array.forEach] with an index. *)
Definition mapi {A B : Type} (f : A -> nat -> B) (l : list A) : list B :=
  map (fun p : nat * A => f (snd p) (fst p)) (combine (seq 0 (List.length l)) l).

Definition generatePowerUps (e : Entropy) : list PowerUp.t :=
  let positions := generatePowerUpPositions 8 (random e) in
  let types := [Kind.speed; Kind.shield; Kind.health; Kind.bottles] in
  mapi (fun position index =>
          PowerUp.mk (uuid e index) (nth (index mod List.length types) types Kind.speed)
                     position false None)
       positions.

(** ** Session state *)

Module GameState.
Record t : Type := mk {
  id : RoomId;
  players : list Car.t;
  bottles : list Bottle.t;
  powerUps : list PowerUp.t;
  gameStarted : bool;
  gameEnded : bool;
  winner : option SocketId;
  raceTime : Z;
  maxLaps : Z
}.
Definition set_players (g : t) (l : list Car.t) : t :=
  mk (id g) l (bottles g) (powerUps g) (gameStarted g) (gameEnded g) (winner g)
     (raceTime g) (maxLaps g).
Definition set_bottles (g : t) (l : list Bottle.t) : t :=
  mk (id g) (players g) l (powerUps g) (gameStarted g) (gameEnded g) (winner g)
     (raceTime g) (maxLaps g).
Definition set_powerUps (g : t) (l : list PowerUp.t) : t :=
  mk (id g) (players g) (bottles g) l (gameStarted g) (gameEnded g) (winner g)
     (raceTime g) (maxLaps g).
Definition set_gameStarted (g : t) (b : bool) : t :=
  mk (id g) (players g) (bottles g) (powerUps g) b (gameEnded g) (winner g)
     (raceTime g) (maxLaps g).
Definition set_gameEnded (g : t) (b : bool) : t :=
  mk (id g) (players g) (bottles g) (powerUps g) (gameStarted g) b (winner g)
     (raceTime g) (maxLaps g).
Definition set_winner (g : t) (w : option SocketId) : t :=
  mk (id g) (players g) (bottles g) (powerUps g) (gameStarted g) (gameEnded g) w
     (raceTime g) (maxLaps g).
Definition set_raceTime (g : t) (n : Z) : t :=
  mk (id g) (players g) (bottles g) (powerUps g) (gameStarted g) (gameEnded g) (winner g)
     n (maxLaps g).
End GameState.

Definition createInitialGameState (roomId : RoomId) : GameState.t :=
  GameState.mk roomId [] [] [] false false None 0%Z 3%Z.

Definition colors : list string :=
  ["#ff4444"; "#44ff44"; "#4444ff"; "#ffff44"; "#ff44ff"; "#44ffff"]%string.

Definition startPositions : list Vec.t :=
  [Vec.mk 100 100; Vec.mk 100 140; Vec.mk 100 180;
   Vec.mk 100 220; Vec.mk 100 260; Vec.mk 100 300].

(** [ref] is the allocation index of the new object and [carId] the value
    of [uuidv4()]. *)
Definition createCar (ref : nat) (carId : string)
    (playerId : SocketId) (playerName : string) (index : nat) : Car.t :=
  Car.mk ref carId playerId playerName
    (match nth_error startPositions index with
     | Some p => p
     | None => Vec.mk 100 (100 + INR index * 40)
     end)
    (Vec.mk 0 0)
    0
    100%Z
    100%Z
    0
    PHYSICS.MAX_SPEED
    PHYSICS.ACCELERATION
    5%Z
    0%Z
    0%Z
    0%Z
    false
    []
    (nth (index mod List.length colors) colors EmptyString).

(** *** One tick of a racing session *)

(** The [for (const car of gameState.players)] loop of the bottle filter:
    the cars are shared objects, so the list is threaded. *)
Fixpoint hitFirstCar (bottle : Bottle.t) (cars : list Car.t) : Bottle.t * list Car.t :=
  match cars with
  | [] => (bottle, [])
  | car :: rest =>
      if negb (Car.isEliminated car) then
        let '(hit, bottle', car') := handleBottleCarCollision bottle car in
        if hit then
          let car' :=
            if (Car.health car' <=? 0)%Z then Car.set_isEliminated car' true else car' in
          (bottle', car' :: rest)
        else
          let '(bottle'', rest') := hitFirstCar bottle' rest in
          (bottle'', car' :: rest')
      else
        let '(bottle', rest') := hitFirstCar bottle rest in
        (bottle', car :: rest')
  end.

(** [gameState.bottles.filter(bottle => ...)] *)
Fixpoint stepBottles (bottles : list Bottle.t) (cars : list Car.t)
  : list Bottle.t * list Car.t :=
  match bottles with
  | [] => ([], cars)
  | bottle :: rest =>
      if negb (Bottle.active bottle) then stepBottles rest cars
      else
        let bottle := updateBottlePhysics bottle in
        let '(bottle, cars) := hitFirstCar bottle cars in
        let '(kept, cars) := stepBottles rest cars in
        (if Bottle.active bottle then bottle :: kept else kept, cars)
  end.

(** The [for (const car of gameState.players)] loop of the power-up pass. *)
Fixpoint collectFirstCar (powerUp : PowerUp.t) (cars : list Car.t)
  : PowerUp.t * list Car.t * list nat :=
  match cars with
  | [] => (powerUp, [], [])
  | car :: rest =>
      if negb (Car.isEliminated car) then
        let '(got, powerUp', car', timeouts) := handlePowerUpCollection powerUp car in
        if got then (powerUp', car' :: rest, timeouts)
        else
          let '(powerUp'', rest', timeouts') := collectFirstCar powerUp' rest in
          (powerUp'', car' :: rest', timeouts')
      else
        let '(powerUp', rest', timeouts) := collectFirstCar powerUp rest in
        (powerUp', car :: rest', timeouts)
  end.

(** [gameState.powerUps.forEach(powerUp => ...)] *)
Fixpoint stepPowerUps (powerUps : list PowerUp.t) (cars : list Car.t)
  : list PowerUp.t * list Car.t * list nat :=
  match powerUps with
  | [] => ([], cars, [])
  | powerUp :: rest =>
      if PowerUp.collected powerUp then
        let '(rest', cars, timeouts) := stepPowerUps rest cars in
        (powerUp :: rest', cars, timeouts)
      else
        let '(powerUp, cars, timeouts1) := collectFirstCar powerUp cars in
        let '(rest', cars, timeouts2) := stepPowerUps rest cars in
        (powerUp :: rest', cars, (timeouts1 ++ timeouts2)%list)
  end.

(** The body of [gameState.players.forEach(car => ...)] for one car; the
    session's [gameEnded] and [winner] are threaded. *)
Definition lapStep (raceTime maxLaps : Z) (car : Car.t)
    (gameEnded : bool) (winner : option SocketId)
  : Car.t * bool * option SocketId :=
  if Car.isEliminated car then (car, gameEnded, winner)
  else
    let car := Car.set_totalTime car raceTime in
    if Rltb (Vec.x (Car.position car)) 50
       && Rltb (Vec.y (Car.position car)) 100
       && Rgtb (Vec.x (Car.velocity car)) 0
    then
      if (Car.lap car <? maxLaps)%Z then
        let car := Car.set_lap car (Car.lap car + 1)%Z in
        if (Car.lap car >=? maxLaps)%Z then (car, true, Some (Car.playerId car))
        else (car, gameEnded, winner)
      else (car, gameEnded, winner)
    else (car, gameEnded, winner).

Fixpoint trackLaps (raceTime maxLaps : Z) (cars : list Car.t)
    (gameEnded : bool) (winner : option SocketId)
  : list Car.t * bool * option SocketId :=
  match cars with
  | [] => ([], gameEnded, winner)
  | car :: rest =>
      let '(car', gameEnded, winner) := lapStep raceTime maxLaps car gameEnded winner in
      let '(rest', gameEnded, winner) := trackLaps raceTime maxLaps rest gameEnded winner in
      (car' :: rest', gameEnded, winner)
  end.

(** The last-vehicle-standing test that follows lap tracking. *)
Definition lastStanding (gameState : GameState.t) : GameState.t :=
  let activePlayers :=
    filter (fun p => negb (Car.isEliminated p)) (GameState.players gameState) in
  if (List.length activePlayers <=? 1)%nat && negb (GameState.gameEnded gameState) then
    let gameState := GameState.set_gameEnded gameState true in
    if (List.length activePlayers =? 1)%nat then
      match nth_error activePlayers 0 with
      | Some p => GameState.set_winner gameState (Some (Car.playerId p))
      | None => gameState
      end
    else gameState
  else gameState.

(** The periodic respawn of power-ups. *)
Definition respawn (e : Entropy) (gameState : GameState.t) : GameState.t :=
  if (Z.rem (GameState.raceTime gameState) 600 =? 0)%Z then
    let uncollectedCount :=
      List.length (filter (fun p => negb (PowerUp.collected p))
                          (GameState.powerUps gameState)) in
    if (uncollectedCount <? 4)%nat then
      let newPowerUps := generatePowerUps e in
      GameState.set_powerUps gameState
        (GameState.powerUps gameState ++ firstn 2 newPowerUps)%list
    else gameState
  else gameState.

(** The part of [updateGame] that works on the session of the room, from
    [gameState.raceTime++] to the respawn; the second component lists the
    timeouts scheduled on the way. *)
Definition tick (e : Entropy) (gameState : GameState.t) : GameState.t * list nat :=
  let gameState := GameState.set_raceTime gameState (GameState.raceTime gameState + 1)%Z in
  let '(bottles, cars) :=
    stepBottles (GameState.bottles gameState) (GameState.players gameState) in
  let gameState := GameState.set_players (GameState.set_bottles gameState bottles) cars in
  let '(powerUps, cars, timeouts) :=
    stepPowerUps (GameState.powerUps gameState) (GameState.players gameState) in
  let gameState := GameState.set_players (GameState.set_powerUps gameState powerUps) cars in
  let '(cars, gameEnded, winner) :=
    trackLaps (GameState.raceTime gameState) (GameState.maxLaps gameState)
              (GameState.players gameState)
              (GameState.gameEnded gameState) (GameState.winner gameState) in
  let gameState :=
    GameState.set_winner
      (GameState.set_gameEnded (GameState.set_players gameState cars) gameEnded) winner in
  let gameState := lastStanding gameState in
  let gameState := respawn e gameState in
  (gameState, timeouts).

(** ** Rooms and the server state *)

Module Player.
Record t : Type := mk { id : SocketId; name : string }.
End Player.

Module Room.
Record t : Type := mk {
  id : RoomId;
  name : string;
  players : list Player.t;
  maxPlayers : nat;
  host : SocketId;
  gameState : GameState.t
}.
Definition set_players (r : t) (l : list Player.t) : t :=
  mk (id r) (name r) l (maxPlayers r) (host r) (gameState r).
Definition set_host (r : t) (h : SocketId) : t :=
  mk (id r) (name r) (players r) (maxPlayers r) h (gameState r).
Definition set_gameState (r : t) (g : GameState.t) : t :=
  mk (id r) (name r) (players r) (maxPlayers r) (host r) g.
End Room.

(** A JavaScript [Map] with string keys: entries in insertion order, [set]
    on a present key replaces the value where it stands. *)
Section JsMap.
Context {V : Type}.

Fixpoint map_get (m : list (string * V)) (k : string) : option V :=
  match m with
  | [] => None
  | (k', v) :: rest => if String.eqb k' k then Some v else map_get rest k
  end.

Fixpoint map_set (m : list (string * V)) (k : string) (v : V) : list (string * V) :=
  match m with
  | [] => [(k, v)]
  | (k', v') :: rest =>
      if String.eqb k' k then (k', v) :: rest else (k', v') :: map_set rest k v
  end.

Fixpoint map_delete (m : list (string * V)) (k : string) : list (string * V) :=
  match m with
  | [] => []
  | (k', v') :: rest =>
      if String.eqb k' k then rest else (k', v') :: map_delete rest k
  end.
End JsMap.

(** The mutable state of the process: the two module-level maps, the live
    [setInterval] callbacks (handle and the room identifier the closure
    holds), the pending [setTimeout] callbacks of speed power-ups (the car
    object the closure holds), and the allocation counters. *)
Record Server : Type := mkServer {
  rooms : list (RoomId * Room.t);
  gameLoops : list (RoomId * nat);
  intervals : list (nat * RoomId);
  timeouts : list nat;
  nextHandle : nat;
  nextRef : nat
}.

Definition set_rooms (s : Server) (r : list (RoomId * Room.t)) : Server :=
  mkServer r (gameLoops s) (intervals s) (timeouts s) (nextHandle s) (nextRef s).

Definition initialServer : Server := mkServer [] [] [] [] 0 0.

(** Messages sent to clients (payloads left out). *)
Inductive Outbound : Type :=
| roomCreated (to : SocketId) (roomId : RoomId)
| joinError (to : SocketId) (reason : string)
| playerJoined (roomId : RoomId) (playerId : SocketId)
| roomJoined (to : SocketId) (roomId : RoomId)
| gameStarted (roomId : RoomId)
| gameStateUpdate (roomId : RoomId)
| playerLeft (roomId : RoomId) (playerId : SocketId).

(** [clearInterval(gameLoop); gameLoops.delete(roomId)] when the map holds a
    loop for the room. *)
Definition stopGameLoop (roomId : RoomId) (s : Server) : Server :=
  match map_get (gameLoops s) roomId with
  | Some gameLoop =>
      mkServer (rooms s)
        (map_delete (gameLoops s) roomId)
        (filter (fun i => negb (Nat.eqb (fst i) gameLoop)) (intervals s))
        (timeouts s) (nextHandle s) (nextRef s)
  | None => s
  end.

Definition updateGame (roomId : RoomId) (e : Entropy) (s : Server)
  : Server * list Outbound :=
  match map_get (rooms s) roomId with
  | None => (s, [])
  | Some room =>
      if negb (GameState.gameStarted (Room.gameState room))
         || GameState.gameEnded (Room.gameState room)
      then (s, [])
      else
        let '(gameState, scheduled) := tick e (Room.gameState room) in
        let s :=
          mkServer (map_set (rooms s) roomId (Room.set_gameState room gameState))
            (gameLoops s) (intervals s) (timeouts s ++ scheduled)%list
            (nextHandle s) (nextRef s) in
        let out := [gameStateUpdate roomId] in
        if GameState.gameEnded gameState then (stopGameLoop roomId s, out)
        else (s, out)
  end.

Definition startGameLoop (roomId : RoomId) (s : Server) : Server :=
  let gameLoop := nextHandle s in
  mkServer (rooms s)
    (map_set (gameLoops s) roomId gameLoop)
    (intervals s ++ [(gameLoop, roomId)])%list
    (timeouts s) (S (nextHandle s)) (nextRef s).

(** ** Socket handlers *)

Definition createRoom (socket : SocketId) (roomName playerName : string)
    (roomId : RoomId) (s : Server) : Server * list Outbound :=
  let room :=
    Room.mk roomId roomName [Player.mk socket playerName] 6 socket
            (createInitialGameState roomId) in
  (set_rooms s (map_set (rooms s) roomId room), [roomCreated socket roomId]).

Definition joinRoom (socket : SocketId) (roomId : RoomId) (playerName : string)
    (s : Server) : Server * list Outbound :=
  match map_get (rooms s) roomId with
  | None => (s, [joinError socket "Room not found"%string])
  | Some room =>
      if (Room.maxPlayers room <=? List.length (Room.players room))%nat then
        (s, [joinError socket "Room is full"%string])
      else
        match find (fun p => String.eqb (Player.id p) socket) (Room.players room) with
        | Some _ => (s, [joinError socket "Already in room"%string])
        | None =>
            let room :=
              Room.set_players room
                (Room.players room ++ [Player.mk socket playerName])%list in
            (set_rooms s (map_set (rooms s) roomId room),
             [playerJoined roomId socket; roomJoined socket roomId])
        end
  end.

Definition startGame (socket : SocketId) (roomId : RoomId) (e : Entropy)
    (s : Server) : Server * list Outbound :=
  match map_get (rooms s) roomId with
  | None => (s, [])
  | Some room =>
      if negb (String.eqb (Room.host room) socket)
         || (List.length (Room.players room) <? 2)%nat
      then (s, [])
      else
        let cars :=
          mapi (fun player index =>
                  createCar (nextRef s + index) (uuid e index)
                            (Player.id player) (Player.name player) index)
               (Room.players room) in
        let gameState := GameState.set_players (Room.gameState room) cars in
        let gameState :=
          GameState.set_powerUps gameState
            (generatePowerUps (skip (List.length (Room.players room)) e)) in
        let gameState := GameState.set_gameStarted gameState true in
        let gameState := GameState.set_gameEnded gameState false in
        let gameState := GameState.set_raceTime gameState 0%Z in
        let s :=
          mkServer (map_set (rooms s) roomId (Room.set_gameState room gameState))
            (gameLoops s) (intervals s) (timeouts s) (nextHandle s)
            (nextRef s + List.length (Room.players room)) in
        (startGameLoop roomId s, [gameStarted roomId])
  end.

(** Replaces the first element that satisfies [f]: the write through the
    object reference that [Array.prototype.find] returned. *)
Fixpoint updateFirst {A : Type} (f : A -> bool) (a : A) (l : list A) : list A :=
  match l with
  | [] => []
  | h :: rest => if f h then a :: rest else h :: updateFirst f a rest
  end.

Definition playerInput (socket : SocketId) (roomId : RoomId) (keys : Keys.t)
    (bottleId : string) (s : Server) : Server * list Outbound :=
  match map_get (rooms s) roomId with
  | None => (s, [])
  | Some room =>
      if negb (GameState.gameStarted (Room.gameState room)) then (s, [])
      else
        match find (fun p => String.eqb (Car.playerId p) socket)
                   (GameState.players (Room.gameState room)) with
        | None => (s, [])
        | Some car =>
            if Car.isEliminated car then (s, [])
            else
              let gameState := Room.gameState room in
              let '(car, gameState) :=
                if Keys.space keys && (0 <? Car.bottles car)%Z then
                  let bottle := createBottle car bottleId in
                  (Car.set_bottles car (Car.bottles car - 1)%Z,
                   GameState.set_bottles gameState
                     (GameState.bottles gameState ++ [bottle])%list)
                else (car, gameState) in
              let car := updateCarPhysics car keys in
              let gameState :=
                GameState.set_players gameState
                  (updateFirst (fun p => String.eqb (Car.playerId p) socket) car
                               (GameState.players gameState)) in
              (set_rooms s (map_set (rooms s) roomId (Room.set_gameState room gameState)),
               [])
        end
  end.

(** [array.splice(array.findIndex(f), 1)] *)
Fixpoint removeFirst {A : Type} (f : A -> bool) (l : list A) : list A :=
  match l with
  | [] => []
  | h :: rest => if f h then rest else h :: removeFirst f rest
  end.

Definition disconnect (socket : SocketId) (s : Server) : Server * list Outbound :=
  match find (fun entry : RoomId * Room.t =>
                existsb (fun p => String.eqb (Player.id p) socket)
                        (Room.players (snd entry)))
             (rooms s) with
  | None => (s, [])
  | Some (roomId, room) =>
      let room :=
        Room.set_players room
          (removeFirst (fun p => String.eqb (Player.id p) socket) (Room.players room)) in
      let room :=
        Room.set_gameState room
          (GameState.set_players (Room.gameState room)
             (filter (fun p => negb (String.eqb (Car.playerId p) socket))
                     (GameState.players (Room.gameState room)))) in
      if (List.length (Room.players room) =? 0)%nat then
        let s := stopGameLoop roomId s in
        (set_rooms s (map_delete (rooms s) roomId), [])
      else
        let room :=
          if String.eqb (Room.host room) socket
             && (0 <? List.length (Room.players room))%nat
          then
            match nth_error (Room.players room) 0 with
            | Some p => Room.set_host room (Player.id p)
            | None => room
            end
          else room in
        (set_rooms s (map_set (rooms s) roomId room), [playerLeft roomId socket])
  end.

(** A pending speed timeout fires: [car.maxSpeed = PHYSICS.MAX_SPEED] on
    the car object its closure holds, wherever that object still is. *)
Definition expireSpeed (ref : nat) (room : Room.t) : Room.t :=
  Room.set_gameState room
    (GameState.set_players (Room.gameState room)
       (map (fun car =>
               if Nat.eqb (Car.ref car) ref
               then Car.set_maxSpeed car PHYSICS.MAX_SPEED else car)
            (GameState.players (Room.gameState room)))).

Fixpoint removeNth {A : Type} (n : nat) (l : list A) : list A :=
  match n, l with
  | _, [] => []
  | O, _ :: rest => rest
  | S n, h :: rest => h :: removeNth n rest
  end.

Definition fireTimeout (k : nat) (s : Server) : Server :=
  match nth_error (timeouts s) k with
  | None => s
  | Some ref =>
      mkServer (map (fun entry => (fst entry, expireSpeed ref (snd entry))) (rooms s))
        (gameLoops s) (intervals s) (removeNth k (timeouts s))
        (nextHandle s) (nextRef s)
  end.

(** A live interval fires: [updateGame] on the room its closure holds. *)
Definition fireInterval (handle : nat) (e : Entropy) (s : Server)
  : Server * list Outbound :=
  match find (fun i => Nat.eqb (fst i) handle) (intervals s) with
  | None => (s, [])
  | Some (_, roomId) => updateGame roomId e s
  end.

(** ** The server as a transition system *)

Inductive Event : Type :=
| CreateRoom (socket : SocketId) (roomName playerName : string) (roomId : RoomId)
| JoinRoom (socket : SocketId) (roomId : RoomId) (playerName : string)
| StartGame (socket : SocketId) (roomId : RoomId) (e : Entropy)
| PlayerInput (socket : SocketId) (roomId : RoomId) (keys : Keys.t) (bottleId : string)
| Disconnect (socket : SocketId)
| Interval (handle : nat) (e : Entropy)
| Timeout (k : nat).

Definition handle (ev : Event) (s : Server) : Server * list Outbound :=
  match ev with
  | CreateRoom socket roomName playerName roomId =>
      createRoom socket roomName playerName roomId s
  | JoinRoom socket roomId playerName => joinRoom socket roomId playerName s
  | StartGame socket roomId e => startGame socket roomId e s
  | PlayerInput socket roomId keys bottleId => playerInput socket roomId keys bottleId s
  | Disconnect socket => disconnect socket s
  | Interval h e => fireInterval h e s
  | Timeout k => (fireTimeout k s, [])
  end.

Definition step (s : Server) (ev : Event) : Server := fst (handle ev s).

Definition run (evs : list Event) (s : Server) : Server := fold_left step evs s.

Inductive reachable : Server -> Prop :=
| reachable_init : reachable initialServer
| reachable_step (s : Server) (ev : Event) :
    reachable s -> reachable (step s ev).

(** ** The physics update as the specification words it *)

Module PhysicsSpec.
Definition add (a b : Vec.t) : Vec.t := Vec.mk (Vec.x a + Vec.x b) (Vec.y a + Vec.y b).
Definition scale (k : R) (a : Vec.t) : Vec.t := Vec.mk (k * Vec.x a) (k * Vec.y a).

(** 1. if forward: add an impulse of magnitude 0.5 along the heading *)
Definition accelerate (input : Keys.t) (car : Car.t) : Car.t :=
  if Keys.up input then
    Car.set_velocity car
      (add (Car.velocity car)
           (scale 0.5 (Vec.mk (cos (Car.rotation car)) (sin (Car.rotation car)))))
  else car.

(** 2. if brake: scale velocity by 0.8 *)
Definition brake (input : Keys.t) (car : Car.t) : Car.t :=
  if Keys.down input then Car.set_velocity car (scale 0.8 (Car.velocity car)) else car.

(** 3. heading changes by -0.08 (speed / 8) for a left input and by
    +0.08 (speed / 8) for a right input, only when the speed exceeds 0.5 *)
Definition turn (input : Keys.t) (car : Car.t) : Car.t :=
  let v := magnitude (Car.velocity car) in
  if Rgtb v 0.5 then
    Car.set_rotation car
      (Car.rotation car
       + (if Keys.left input then - (0.08 * (v / 8)) else 0)
       + (if Keys.right input then 0.08 * (v / 8) else 0))
  else car.

(** 4. scale velocity by 0.95 unconditionally *)
Definition friction (car : Car.t) : Car.t :=
  Car.set_velocity car (scale 0.95 (Car.velocity car)).

(** 5. rescale velocity to maxSpeed if its magnitude exceeds maxSpeed *)
Definition capSpeed (car : Car.t) : Car.t :=
  let v := magnitude (Car.velocity car) in
  if Rgtb v (Car.maxSpeed car) then
    Car.set_velocity car (scale (Car.maxSpeed car / v) (Car.velocity car))
  else car.

(** 6. add velocity to position *)
Definition integrate (car : Car.t) : Car.t :=
  Car.set_position car (add (Car.position car) (Car.velocity car)).

Definition update (car : Car.t) (input : Keys.t) : Car.t :=
  integrate (capSpeed (friction (turn input (brake input (accelerate input car))))).
End PhysicsSpec.

(** The inset track rectangle [20,780] x [20,580]. *)
Definition inBounds (p : Vec.t) : Prop :=
  20 <= Vec.x p <= 780 /\ 20 <= Vec.y p <= 580.

(** Boundary handling on one axis, with margins 20 and [hi]: where the
    coordinate [p] ends, and what becomes of the velocity component [v]. *)
Definition clampAxis (hi p : R) : R :=
  if Rltb p 20 then 20 else if Rgtb p hi then hi else p.

Definition bounceAxis (hi p v : R) : R :=
  if Rltb p 20 then Rabs v * 0.5 else if Rgtb p hi then - (Rabs v * 0.5) else v.

(** ** Vocabulary of the statements *)


(** A qualifying hit: the car is not eliminated, is not the owner's, and its
    circle (radius 20) overlaps the circle of the bottle (radius 5). *)
Definition qualifies (bottle : Bottle.t) (car : Car.t) : bool :=
  negb (Car.isEliminated car)
  && negb (String.eqb (Bottle.playerId bottle) (Car.playerId car))
  && checkCollision (Bottle.position bottle) (Car.position car) 5 20.

(** What a hit does to the car: damage, knockback of magnitude 3 away from
    the bottle, and elimination when no health is left. *)
Definition struck (bottle : Bottle.t) (car : Car.t) : Car.t :=
  let angle := atan2 (Vec.y (Car.position car) - Vec.y (Bottle.position bottle))
                     (Vec.x (Car.position car) - Vec.x (Bottle.position bottle)) in
  let car :=
    Car.set_velocity
      (Car.set_health car (Car.health car - Bottle.damage bottle)%Z)
      (Vec.mk (Vec.x (Car.velocity car) + cos angle * 3)
              (Vec.y (Car.velocity car) + sin angle * 3)) in
  if (Car.health car <=? 0)%Z then Car.set_isEliminated car true else car.

(** What holds of every car of a reachable server (see [reachable_ok]):
    health never exceeds maxHealth (100), a car that is not eliminated has
    positive health, an eliminated car has none left and is less than one hit
    (20) below zero, and the speed cap stays between the nominal 8 and the
    boosted 12. *)
Definition car_ok (car : Car.t) : Prop :=
  Car.maxHealth car = 100%Z
  /\ (Car.health car <= Car.maxHealth car)%Z
  /\ (-20 < Car.health car)%Z
  /\ (Car.isEliminated car = false -> (0 < Car.health car)%Z)
  /\ (Car.isEliminated car = true -> (Car.health car <= 0)%Z)
  /\ 8 <= Car.maxSpeed car <= 12.

(** One car object before and after an operation: same owner, same object,
    and [car_ok] kept. *)
Definition evolves (car car' : Car.t) : Prop :=
  Car.playerId car' = Car.playerId car
  /\ Car.ref car' = Car.ref car
  /\ (car_ok car -> car_ok car').

Definition bottle_ok (bottle : Bottle.t) : Prop :=
  Bottle.damage bottle = 20%Z /\ Bottle.active bottle = true.

Definition memberIds (room : Room.t) : list SocketId :=
  map Player.id (Room.players room).

(** What holds of every room of a reachable server: the host is the first
    member (so the room has one), every car belongs to a member, and the cars
    and bottles are as above. *)
Definition room_ok (room : Room.t) : Prop :=
  (exists p rest, Room.players room = p :: rest /\ Room.host room = Player.id p)
  /\ Room.maxPlayers room = 6%nat
  /\ Forall (fun car => In (Car.playerId car) (memberIds room))
            (GameState.players (Room.gameState room))
  /\ Forall car_ok (GameState.players (Room.gameState room))
  /\ Forall bottle_ok (GameState.bottles (Room.gameState room)).

Definition server_ok (s : Server) : Prop :=
  Forall (fun entry => room_ok (snd entry)) (rooms s).

(** The keys of the two maps are unique, as in any JavaScript [Map]. *)
Definition keys_ok (s : Server) : Prop :=
  NoDup (map fst (rooms s)) /\ NoDup (map fst (gameLoops s)).

(** Interval handles are allocated in increasing order. *)
Definition handles_ok (s : Server) : Prop :=
  Forall (fun i : nat * RoomId => (fst i < nextHandle s)%nat) (intervals s).

(** The room in which [disconnect] finds the socket: the first one, in the
    order of the registry, that lists it as a member. *)
Definition roomOf (socket : SocketId) (s : Server) : option (RoomId * Room.t) :=
  find (fun entry : RoomId * Room.t =>
          existsb (fun p => String.eqb (Player.id p) socket)
                  (Room.players (snd entry)))
       (rooms s).

(** No room registered as [roomId] holds a car owned by [socket]. *)
Definition noCarOf (socket : SocketId) (roomId : RoomId) (s : Server) : Prop :=
  Forall (fun entry : RoomId * Room.t =>
            fst entry = roomId ->
            ~ In socket (map Car.playerId (GameState.players (Room.gameState (snd entry)))))
         (rooms s).

(** The event is a [startGame] request that the server accepts for the room
    in the state [s]: the room exists, the requester is its host, and it has
    two members or more. *)
Definition startAccepted (roomId : RoomId) (s : Server) (ev : Event) : bool :=
  match ev with
  | StartGame socket r _ =>
      String.eqb r roomId
      && match map_get (rooms s) r with
         | Some room =>
             String.eqb (Room.host room) socket
             && (2 <=? List.length (Room.players room))%nat
         | None => false
         end
  | _ => false
  end.

(** None of the events [evs], handled one after the other from the state
    [s], is a [startGame] request that the server accepts for the room. *)
Fixpoint noSessionStarted (roomId : RoomId) (evs : list Event) (s : Server) : bool :=
  match evs with
  | [] => true
  | ev :: rest =>
      negb (startAccepted roomId s ev) && noSessionStarted roomId rest (step s ev)
  end.

(** ** More that is stated of ticks and of reachable states *)

(** The speed cap of [updateCarPhysics] (the computation of [currentSpeed]
    and the rescaling of the velocity) with the rounding of binary64 made
    explicit: [rnd] is applied to the result of every operation, as the
    program rounds it. *)
Definition capSpeedRounded (rnd : R -> R) (car : Car.t) : Car.t :=
  let currentSpeed :=
    rnd (sqrt (rnd (rnd (Vec.x (Car.velocity car) ^ 2)
                    + rnd (Vec.y (Car.velocity car) ^ 2)))) in
  if Rgtb currentSpeed (Car.maxSpeed car) then
    Car.set_velocity car
      (Vec.mk (rnd (rnd (Vec.x (Car.velocity car) / currentSpeed) * Car.maxSpeed car))
              (rnd (rnd (Vec.y (Car.velocity car) / currentSpeed) * Car.maxSpeed car)))
  else car.

(** The lap test of [updateGame]: a car that is not eliminated, in the corner
    [x < 50], [y < 100], moving to the right. *)
Definition crossesLine (car : Car.t) : bool :=
  negb (Car.isEliminated car)
  && (Rltb (Vec.x (Car.position car)) 50
      && Rltb (Vec.y (Car.position car)) 100
      && Rgtb (Vec.x (Car.velocity car)) 0).

(** The car completes its last lap in this tick. *)
Definition finishes (maxLaps : Z) (car : Car.t) : bool :=
  crossesLine car && (Car.lap car <? maxLaps)%Z && (Car.lap car + 1 >=? maxLaps)%Z.

(** A power-up before and after a tick: the same but for [collected], which
    is never reset. *)
Definition powerUpKept (p p' : PowerUp.t) : Prop :=
  PowerUp.id p' = PowerUp.id p
  /\ PowerUp.type p' = PowerUp.type p
  /\ PowerUp.position p' = PowerUp.position p
  /\ PowerUp.duration p' = PowerUp.duration p
  /\ (PowerUp.collected p = true -> PowerUp.collected p' = true).

(** What holds of every car of a reachable server besides [car_ok] (see
    [reachable_fit]): it is inside the rectangle cars are kept in, its
    ammunition is not negative and its laps are between 0 and the target. *)
Definition car_fit (car : Car.t) : Prop :=
  inBounds (Car.position car)
  /\ (0 <= Car.bottles car)%Z
  /\ (0 <= Car.lap car <= 3)%Z.

(** What holds of every room of a reachable server besides [room_ok]: at
    most six members, none listed twice; at most one car per owner; the lap
    target is 3; the session carries the identifier of the room; the tick
    count is not negative; and a session that is not started is the initial
    one. *)
Definition room_fit (room : Room.t) : Prop :=
  (List.length (Room.players room) <= 6)%nat
  /\ NoDup (memberIds room)
  /\ NoDup (map Car.playerId (GameState.players (Room.gameState room)))
  /\ Forall car_fit (GameState.players (Room.gameState room))
  /\ GameState.maxLaps (Room.gameState room) = 3%Z
  /\ GameState.id (Room.gameState room) = Room.id room
  /\ (0 <= GameState.raceTime (Room.gameState room))%Z
  /\ (GameState.gameStarted (Room.gameState room) = false ->
      Room.gameState room = createInitialGameState (Room.id room)).

(** Every room is registered under its own identifier. *)
Definition server_fit (s : Server) : Prop :=
  Forall (fun entry : RoomId * Room.t =>
            Room.id (snd entry) = fst entry /\ room_fit (snd entry))
         (rooms s).

(** Interval handles are unique, and the loop registered for a room is a live
    interval that ticks that room. *)
Definition loops_ok (s : Server) : Prop :=
  NoDup (map fst (intervals s))
  /\ (forall roomId h,
        map_get (gameLoops s) roomId = Some h -> In (h, roomId) (intervals s)).

(** A session that is racing has a loop registered for its room. *)
Definition racing_ok (s : Server) : Prop :=
  forall roomId room,
    map_get (rooms s) roomId = Some room ->
    GameState.gameStarted (Room.gameState room) = true ->
    GameState.gameEnded (Room.gameState room) = false ->
    exists h, map_get (gameLoops s) roomId = Some h.

(** Who is in which room: the registry without the sessions. *)
Definition membership (s : Server)
  : list (RoomId * (string * list Player.t * nat * SocketId)) :=
  map (fun entry : RoomId * Room.t =>
         (fst entry,
          (Room.name (snd entry), Room.players (snd entry),
           Room.maxPlayers (snd entry), Room.host (snd entry))))
      (rooms s).



(** * The client *)

(** ** The callback table of the socket service

    [socketService.ts]: a [Map] from event names to arrays of callbacks.  A
    callback is a function object, which [indexOf] compares by identity; a
    socket is an object too. *)
Module SocketService.
Definition Callback := nat.

Record t : Type := mk {
  socket : option nat;
  callbacks : list (string * list Callback)
}.

(** [on(event, callback)] *)
Definition on (event : string) (callback : Callback) (sv : t) : t :=
  let table :=
    match map_get (callbacks sv) event with
    | Some _ => callbacks sv
    | None => map_set (callbacks sv) event []
    end in
  match map_get table event with
  | Some registered => mk (socket sv) (map_set table event (registered ++ [callback])%list)
  | None => mk (socket sv) table
  end.

(** [off(event, callback)]: [indexOf] and [splice(index, 1)]. *)
Definition off (event : string) (callback : Callback) (sv : t) : t :=
  match map_get (callbacks sv) event with
  | Some registered =>
      if existsb (Nat.eqb callback) registered then
        mk (socket sv)
           (map_set (callbacks sv) event (removeFirst (Nat.eqb callback) registered))
      else sv
  | None => sv
  end.

(** [triggerCallbacks(event, data)]: the callbacks that are called with the
    data, in the order of the calls. *)
Definition triggerCallbacks (event : string) (sv : t) : list Callback :=
  match map_get (callbacks sv) event with
  | Some registered => registered
  | None => []
  end.

(** [disconnect()] *)
Definition disconnect (sv : t) : t := mk None [].
End SocketService.

(** ** The standings of the game-over screen

    [GameOverScreen]: the comparator given to [sort], the sorted copy of the
    cars, the place of the player and the car shown as winner.
    [Array.prototype.sort] is stable, so it is an insertion that keeps the
    order of cars that compare equal. *)
Module GameOverScreen.
Definition compare (a b : Car.t) : Z :=
  if Car.isEliminated a && negb (Car.isEliminated b) then 1
  else if negb (Car.isEliminated a) && Car.isEliminated b then -1
  else if negb (Car.lap a =? Car.lap b)%Z then (Car.lap b - Car.lap a)%Z
  else (Car.totalTime a - Car.totalTime b)%Z.

Fixpoint insert (a : Car.t) (sorted : list Car.t) : list Car.t :=
  match sorted with
  | [] => [a]
  | b :: rest => if (compare a b <=? 0)%Z then a :: b :: rest else b :: insert a rest
  end.

Definition sortedPlayers (players : list Car.t) : list Car.t :=
  fold_right insert [] players.

(** [findIndex]: -1 when no element passes. *)
Fixpoint findIndex {A : Type} (f : A -> bool) (l : list A) : Z :=
  match l with
  | [] => -1
  | a :: rest =>
      if f a then 0
      else let i := findIndex f rest in if (i <? 0)%Z then -1 else (i + 1)%Z
  end.

Definition playerPosition (playerId : SocketId) (players : list Car.t) : Z :=
  (findIndex (fun p => String.eqb (Car.playerId p) playerId) (sortedPlayers players) + 1)%Z.

Definition winner (players : list Car.t) : option Car.t :=
  nth_error (sortedPlayers players) 0.
End GameOverScreen.

(** ** The room registry of the game service

    [GameService]: the rooms of the local game, whose members are player
    identifiers. *)
Module GameRoom.
Record t : Type := mk {
  id : RoomId;
  name : string;
  players : list string;
  maxPlayers : nat;
  host : string;
  gameState : GameState.t
}.
Definition set_players (r : t) (l : list string) : t :=
  mk (id r) (name r) l (maxPlayers r) (host r) (gameState r).
Definition set_host (r : t) (h : string) : t :=
  mk (id r) (name r) (players r) (maxPlayers r) h (gameState r).
Definition set_gameState (r : t) (g : GameState.t) : t :=
  mk (id r) (name r) (players r) (maxPlayers r) (host r) g.
End GameRoom.

Module GameService.
Record t : Type := mk {
  rooms : list (RoomId * GameRoom.t);
  gameLoops : list (RoomId * nat);
  intervals : list (nat * RoomId)
}.

(** [createRoom(roomName, hostId)]; [roomId] is what [uuidv4()] returns. *)
Definition createRoom (roomName hostId : string) (roomId : RoomId) (sv : t)
  : t * GameRoom.t :=
  let room :=
    GameRoom.mk roomId roomName [hostId] 6 hostId (createInitialGameState roomId) in
  (mk (map_set (rooms sv) roomId room) (gameLoops sv) (intervals sv), room).

(** [joinRoom(roomId, playerId)]; [None] is [null]. *)
Definition joinRoom (roomId : RoomId) (playerId : string) (sv : t)
  : t * option GameRoom.t :=
  match map_get (rooms sv) roomId with
  | None => (sv, None)
  | Some room =>
      if (GameRoom.maxPlayers room <=? List.length (GameRoom.players room))%nat
      then (sv, None)
      else if negb (existsb (String.eqb playerId) (GameRoom.players room)) then
        let room :=
          GameRoom.set_players room (GameRoom.players room ++ [playerId])%list in
        (mk (map_set (rooms sv) roomId room) (gameLoops sv) (intervals sv), Some room)
      else (sv, Some room)
  end.

Definition stopGameLoop (roomId : RoomId) (sv : t) : t :=
  match map_get (gameLoops sv) roomId with
  | Some gameLoop =>
      mk (rooms sv) (map_delete (gameLoops sv) roomId)
         (filter (fun i => negb (Nat.eqb (fst i) gameLoop)) (intervals sv))
  | None => sv
  end.

(** [leaveRoom(roomId, playerId)] *)
Definition leaveRoom (roomId : RoomId) (playerId : string) (sv : t) : t :=
  match map_get (rooms sv) roomId with
  | None => sv
  | Some room =>
      let room :=
        GameRoom.set_players room
          (filter (fun id => negb (String.eqb id playerId)) (GameRoom.players room)) in
      let room :=
        GameRoom.set_gameState room
          (GameState.set_players (GameRoom.gameState room)
             (filter (fun p => negb (String.eqb (Car.playerId p) playerId))
                     (GameState.players (GameRoom.gameState room)))) in
      if (List.length (GameRoom.players room) =? 0)%nat then
        let sv := stopGameLoop roomId sv in
        mk (map_delete (rooms sv) roomId) (gameLoops sv) (intervals sv)
      else
        let room :=
          if String.eqb (GameRoom.host room) playerId
             && (0 <? List.length (GameRoom.players room))%nat
          then
            match nth_error (GameRoom.players room) 0 with
            | Some p => GameRoom.set_host room p
            | None => room
            end
          else room in
        mk (map_set (rooms sv) roomId room) (gameLoops sv) (intervals sv)
  end.

(** [getRoom(roomId)] *)
Definition getRoom (roomId : RoomId) (sv : t) : option GameRoom.t :=
  map_get (rooms sv) roomId.
End GameService.

(** ** Scenarios *)

Section Scenarios.
Local Open Scope string_scope.

(** [uuidv4()] yields "a", "b", ... and [Math.random()] yields 0.5 every
    time, which puts every power-up at (400, 300). *)
Definition letters (i : nat) : string := String (Ascii.ascii_of_nat (97 + i)) EmptyString.

Definition centred : Entropy := mkEntropy letters (fun _ => 0.5).

(** Alice creates a room, Bob joins, Alice starts the race, Bob leaves and the
    next tick ends the race with Alice as the last one standing. *)
Definition raceWonByAlice : list Event :=
  [CreateRoom "A" "Track1" "Alice" "r";
   JoinRoom "B" "r" "Bob";
   StartGame "A" "r" centred;
   Disconnect "B";
   Interval 0 centred].

(** Then Carol joins and Alice starts the race again. *)
Definition raceStartedAgain : list Event :=
  (raceWonByAlice ++ [JoinRoom "C" "r" "Carol"; StartGame "A" "r" centred])%list.

(** Then Dave joins, and Alice and Carol leave: the race goes on with no car. *)
Definition raceAbandoned : list Event :=
  (raceStartedAgain ++ [JoinRoom "D" "r" "Dave"; Disconnect "A"; Disconnect "C"])%list.

(** The next tick then ends the race. *)
Definition raceLeftEmpty : list Event := (raceAbandoned ++ [Interval 1 centred])%list.

(** Inputs: forward only, fire only, and both. *)
Definition forward : Keys.t := Keys.mk true false false false false.
Definition fire : Keys.t := Keys.mk false false false false true.
Definition forwardFire : Keys.t := Keys.mk true false false false true.

(** Alice starts a race and throws her five bottles while she accelerates. *)
Definition outOfAmmo : list Event :=
  [CreateRoom "A" "Track1" "Alice" "r";
   JoinRoom "B" "r" "Bob";
   StartGame "A" "r" centred;
   PlayerInput "A" "r" forwardFire "s1";
   PlayerInput "A" "r" forwardFire "s2";
   PlayerInput "A" "r" forwardFire "s3";
   PlayerInput "A" "r" forwardFire "s4";
   PlayerInput "A" "r" forwardFire "s5"].

(** [Math.random()] that puts the third power-up, of type 'health', at
    (180, 100) and the others at (400, 300). *)
Definition healthAhead : Entropy :=
  mkEntropy letters
    (fun i => match i with
              | 4%nat => 13 / 70
              | 5%nat => 1 / 10
              | _ => 0.5
              end).

(** Alice, on the first grid position, throws two bottles; one tick moves
    them on; she starts the race again, which gives her a new car with five
    bottles and keeps the two in flight, and throws the five. *)
Definition twoVolleys : list Event :=
  [CreateRoom "A" "Track1" "Alice" "r";
   JoinRoom "B" "r" "Bob";
   StartGame "A" "r" centred;
   PlayerInput "A" "r" fire "x1";
   PlayerInput "A" "r" fire "x2";
   Interval 0 centred;
   StartGame "A" "r" centred;
   PlayerInput "A" "r" fire "y1";
   PlayerInput "A" "r" fire "y2";
   PlayerInput "A" "r" fire "y3";
   PlayerInput "A" "r" fire "y4";
   PlayerInput "A" "r" fire "y5"].

(** Alice leaves, Bob is host, Dave joins and Bob starts the race: Bob's new
    car is on the first grid position, behind Alice's seven bottles. *)
Definition bobStartsOver : list Event :=
  (twoVolleys
   ++ [Disconnect "A"; JoinRoom "D" "r" "Dave"; StartGame "B" "r" healthAhead])%list.

(** Bob presses forward twenty-one times before the next tick. *)
Definition bobDrives : list Event :=
  (bobStartsOver ++ repeat (PlayerInput "B" "r" forward EmptyString) 21)%list.

(** The tick brings the first two bottles within reach of Bob's car, and
    Bob's car within reach of the health power-up. *)
Definition bobCatchesUp : list Event := (bobDrives ++ [Interval 2 centred])%list.

(** The next tick brings the other five. *)
Definition bobKnockedOut : list Event := (bobCatchesUp ++ [Interval 2 centred])%list.

(** A bottle of Alice in the lane of the first grid position. *)
Definition thrown (id : string) (x : R) : Bottle.t :=
  Bottle.mk id (Vec.mk x 100) (Vec.mk 12 0) "A" 20 true.

(** The cars of the race that Bob starts: Bob's, at [x] in its lane with
    forward velocity [v], and Dave's, on the grid. *)
Definition bobsCar (x v : R) (health : Z) (eliminated : bool) (totalTime : Z) : Car.t :=
  Car.mk 4 (letters 0) "B" "Bob" (Vec.mk x 100) (Vec.mk v 0) 0 health 100 0
         PHYSICS.MAX_SPEED PHYSICS.ACCELERATION 5 0 0 totalTime eliminated []
         "#ff4444".

Definition davesCar (totalTime : Z) : Car.t :=
  Car.set_totalTime (createCar 5 (letters 1) "D" "Dave" 1) totalTime.

Definition collect (id : string) (powerUps : list PowerUp.t) : list PowerUp.t :=
  map (fun p => if String.eqb (PowerUp.id p) id then PowerUp.set_collected p true else p)
      powerUps.

Definition bobsRace (cars : list Car.t) (bottles : list Bottle.t)
    (powerUps : list PowerUp.t) (ended : bool) (winner : option SocketId)
    (raceTime : Z) : Room.t :=
  Room.mk "r" "Track1" [Player.mk "B" "Bob"; Player.mk "D" "Dave"] 6 "B"
    (GameState.mk "r" cars bottles powerUps true ended winner raceTime 3).

(** The room of [raceStartedAgain]: Alice and Carol on the grid, in a race
    under way. *)
Definition alicesCar : Car.t := createCar 2 (letters 0) "A" "Alice" 0.

Definition secondRace : Room.t :=
  Room.mk "r" "Track1" [Player.mk "A" "Alice"; Player.mk "C" "Carol"] 6 "A"
    (GameState.mk "r" [alicesCar; createCar 3 (letters 1) "C" "Carol" 1]
       [] (generatePowerUps (skip 2 centred)) true false (Some "A") 0 3).

(** Brake, left and fire, without the forward key. *)
Definition brakeTurnFire : Keys.t := Keys.mk false true true false true.

(** A local game with one room, which player A created. *)
Definition localRoom : GameRoom.t :=
  GameRoom.mk "r" "Track1" ["A"] 6 "A" (createInitialGameState "r").

Definition localGame : GameService.t := GameService.mk [("r", localRoom)] [] [].

(** Alice's car in the race started again, in its lane at [x] with forward
    velocity [v], and the server with that race. *)
Definition alicesCarAt (x v : R) : Car.t :=
  Car.mk 2 (letters 0) "A" "Alice" (Vec.mk x 100) (Vec.mk v 0) 0 100 100 0
         PHYSICS.MAX_SPEED PHYSICS.ACCELERATION 5 0 0 0 false [] "#ff4444".

Definition secondRaceAt (x v : R) : Server :=
  mkServer
    [("r", Room.mk "r" "Track1" [Player.mk "A" "Alice"; Player.mk "C" "Carol"] 6 "A"
             (GameState.mk "r" [alicesCarAt x v; createCar 3 (letters 1) "C" "Carol" 1]
                [] (generatePowerUps (skip 2 centred)) true false (Some "A") 0 3))]
    [("r", 1%nat)] [(1%nat, "r")] [] 2 4.

(** The velocity and the place of that car after [n] forward inputs from
    the grid, as long as the cap is not reached. *)
Fixpoint speedAfter (n : nat) : R :=
  match n with
  | O => 0
  | S n => (speedAfter n + 0.5) * 0.95
  end.

Fixpoint placeAfter (n : nat) : R :=
  match n with
  | O => 100
  | S n => placeAfter n + speedAfter (S n)
  end.

(** The race is started again and Alice presses forward [n] times. *)
Definition accelerated (n : nat) : list Event :=
  (raceStartedAgain ++ repeat (PlayerInput "A" "r" forward EmptyString) n)%list.

(** Alice creates two rooms; Bob joins the second, where Alice starts a
    race; then Alice disconnects. *)
Definition hostOfTwoRooms : list Event :=
  [CreateRoom "A" "Track1" "Alice" "r";
   CreateRoom "A" "Track2" "Alice" "q";
   JoinRoom "B" "q" "Bob";
   StartGame "A" "q" centred;
   Disconnect "A"].

(** And then Bob disconnects too. *)
Definition bothGone : list Event := (hostOfTwoRooms ++ [Disconnect "B"])%list.

End Scenarios.

(** * Properties *)

(** ** Comparisons *)

Lemma Rltb_true (a b : R) : a < b -> Rltb a b = true.
Proof. intros H; unfold Rltb; destruct (Rlt_dec a b); [reflexivity | contradiction]. Qed.

Lemma Rltb_false (a b : R) : ~ a < b -> Rltb a b = false.
Proof. intros H; unfold Rltb; destruct (Rlt_dec a b); [contradiction | reflexivity]. Qed.

Lemma Rltb_spec (a b : R) : reflect (a < b) (Rltb a b).
Proof. unfold Rltb; destruct (Rlt_dec a b); constructor; assumption. Qed.

Lemma Rgtb_spec (a b : R) : reflect (a > b) (Rgtb a b).
Proof. unfold Rgtb; apply Rltb_spec. Qed.

Lemma Rgtb_true (a b : R) : a > b -> Rgtb a b = true.
Proof. intros H; apply Rltb_true; exact H. Qed.

Lemma Rgtb_false (a b : R) : ~ a > b -> Rgtb a b = false.
Proof. intros H; apply Rltb_false; exact H. Qed.

(** Case analysis on every comparison in sight. *)
Ltac case_Rcmp :=
  repeat match goal with
  | |- context [Rltb ?a ?b] => destruct (Rltb_spec a b); simpl in *
  | |- context [Rgtb ?a ?b] => destruct (Rgtb_spec a b); simpl in *
  | H : context [Rltb ?a ?b] |- _ => destruct (Rltb_spec a b); simpl in *
  | H : context [Rgtb ?a ?b] |- _ => destruct (Rgtb_spec a b); simpl in *
  end.

(** ** Boundary handling *)

Lemma keepInBounds_eq (car : Car.t) :
  keepInBounds car
  = Car.set_velocity
      (Car.set_position car
         (Vec.mk (clampAxis 780 (Vec.x (Car.position car)))
                 (clampAxis 580 (Vec.y (Car.position car)))))
      (Vec.mk (bounceAxis 780 (Vec.x (Car.position car)) (Vec.x (Car.velocity car)))
              (bounceAxis 580 (Vec.y (Car.position car)) (Vec.y (Car.velocity car)))).
Proof.
  destruct car as [ref id pid pname [px py] [vx vy] rot h mh sp ms acc b lap lt tt el pu col].
  cbv delta [keepInBounds clampAxis bounceAxis PHYSICS.TRACK_WIDTH PHYSICS.TRACK_HEIGHT].
  cbv beta. cbv zeta.
  cbv beta iota delta [Car.set_position Car.set_velocity Car.position Car.velocity
    Car.ref Car.id Car.playerId Car.playerName Car.rotation Car.health Car.maxHealth
    Car.speed Car.maxSpeed Car.acceleration Car.bottles Car.lap Car.lapTime
    Car.totalTime Car.isEliminated Car.powerUps Car.color Vec.x Vec.y].
  destruct (Rltb_spec px 20) as [Hx | Hx];
    cbv beta iota delta [Car.position Car.velocity Vec.x Vec.y].
  - rewrite (Rgtb_false 20 (800 - 20)) by lra.
    cbv beta iota delta [Car.position Car.velocity Vec.x Vec.y].
    destruct (Rltb_spec py 20) as [Hy | Hy];
      cbv beta iota delta [Car.position Car.velocity Vec.x Vec.y].
    + rewrite (Rgtb_false 20 (600 - 20)) by lra. reflexivity.
    + destruct (Rgtb_spec py (600 - 20)) as [Hy' | Hy'];
        [ rewrite (Rgtb_true py 580) by lra | rewrite (Rgtb_false py 580) by lra ];
        do 2 f_equal; lra.
  - destruct (Rgtb_spec px (800 - 20)) as [Hx' | Hx'];
      [ rewrite (Rgtb_true px 780) by lra | rewrite (Rgtb_false px 780) by lra ];
      cbv beta iota delta [Car.position Car.velocity Vec.x Vec.y];
      (destruct (Rltb_spec py 20) as [Hy | Hy];
       cbv beta iota delta [Car.position Car.velocity Vec.x Vec.y];
       [ rewrite (Rgtb_false 20 (600 - 20)) by lra; do 2 f_equal; lra
       | destruct (Rgtb_spec py (600 - 20)) as [Hy' | Hy'];
         [ rewrite (Rgtb_true py 580) by lra | rewrite (Rgtb_false py 580) by lra ];
         do 2 f_equal; lra ]).
Qed.

Lemma clampAxis_range (hi p : R) : 20 <= hi -> 20 <= clampAxis hi p <= hi.
Proof. intros H. unfold clampAxis. case_Rcmp; lra. Qed.

Lemma bounceAxis_shrinks (hi p v : R) : Rabs (bounceAxis hi p v) <= Rabs v.
Proof.
  unfold bounceAxis. pose proof (Rabs_pos v) as Hv.
  case_Rcmp; [ | rewrite Rabs_Ropp | lra ]; rewrite Rabs_pos_eq; lra.
Qed.

Lemma keepInBounds_x (car : Car.t) :
  let px := Vec.x (Car.position car) in
  let vx := Vec.x (Car.velocity car) in
  let car' := keepInBounds car in
  (px < 20 -> Vec.x (Car.position car') = 20 /\ Vec.x (Car.velocity car') = Rabs vx * 0.5)
  /\ (px > 780 ->
      Vec.x (Car.position car') = 780 /\ Vec.x (Car.velocity car') = - (Rabs vx * 0.5))
  /\ (20 <= px <= 780 ->
      Vec.x (Car.position car') = px /\ Vec.x (Car.velocity car') = vx).
Proof.
  cbv zeta. rewrite keepInBounds_eq. simpl. unfold clampAxis, bounceAxis.
  repeat split; intros; case_Rcmp; lra.
Qed.

Lemma keepInBounds_y (car : Car.t) :
  let py := Vec.y (Car.position car) in
  let vy := Vec.y (Car.velocity car) in
  let car' := keepInBounds car in
  (py < 20 -> Vec.y (Car.position car') = 20 /\ Vec.y (Car.velocity car') = Rabs vy * 0.5)
  /\ (py > 580 ->
      Vec.y (Car.position car') = 580 /\ Vec.y (Car.velocity car') = - (Rabs vy * 0.5))
  /\ (20 <= py <= 580 ->
      Vec.y (Car.position car') = py /\ Vec.y (Car.velocity car') = vy).
Proof.
  cbv zeta. rewrite keepInBounds_eq. simpl. unfold clampAxis, bounceAxis.
  repeat split; intros; case_Rcmp; lra.
Qed.

Lemma keepInBounds_inBounds (car : Car.t) : inBounds (Car.position (keepInBounds car)).
Proof.
  rewrite keepInBounds_eq. unfold inBounds. simpl.
  split; apply clampAxis_range; lra.
Qed.

Lemma keepInBounds_other_fields (car : Car.t) :
  Car.maxSpeed (keepInBounds car) = Car.maxSpeed car
  /\ Car.rotation (keepInBounds car) = Car.rotation car
  /\ Car.health (keepInBounds car) = Car.health car
  /\ Car.maxHealth (keepInBounds car) = Car.maxHealth car
  /\ Car.isEliminated (keepInBounds car) = Car.isEliminated car
  /\ Car.playerId (keepInBounds car) = Car.playerId car
  /\ Car.ref (keepInBounds car) = Car.ref car
  /\ Car.bottles (keepInBounds car) = Car.bottles car
  /\ Car.lap (keepInBounds car) = Car.lap car.
Proof. rewrite keepInBounds_eq. simpl. repeat split; reflexivity. Qed.

Lemma keepInBounds_velocity_shrinks (car : Car.t) :
  Rabs (Vec.x (Car.velocity (keepInBounds car))) <= Rabs (Vec.x (Car.velocity car))
  /\ Rabs (Vec.y (Car.velocity (keepInBounds car))) <= Rabs (Vec.y (Car.velocity car)).
Proof. rewrite keepInBounds_eq. simpl. split; apply bounceAxis_shrinks. Qed.

(** ** The physics update, step by step *)

Lemma let_step {A B : Type} (a a' : A) (f : A -> B) :
  a = a' -> (let x := a in f x) = f a'.
Proof. intros ->. reflexivity. Qed.

(** Replaces the value bound by the outermost [let] of the left-hand side
    by [target], once [tac] has proved the two equal. *)
Ltac stage target tac :=
  lazymatch goal with
  | |- (let x := ?a in @?f x) = ?r =>
      let H := fresh "Hstage" in
      assert (H : a = target) by tac;
      refine (eq_trans (let_step a target f H) _); clear H; cbv beta
  end.

Lemma updateCarPhysics_steps (car : Car.t) (input : Keys.t) :
  updateCarPhysics car input = keepInBounds (PhysicsSpec.update car input).
Proof.
  cbv delta [updateCarPhysics]. cbv beta.
  stage (PhysicsSpec.accelerate input car)
    ltac:(unfold PhysicsSpec.accelerate, PhysicsSpec.add, PhysicsSpec.scale,
            PHYSICS.ACCELERATION; simpl;
          destruct (Keys.up input); [ do 2 f_equal; ring | reflexivity ]).
  stage (PhysicsSpec.brake input (PhysicsSpec.accelerate input car))
    ltac:(generalize (PhysicsSpec.accelerate input car); intros c;
          unfold PhysicsSpec.brake, PhysicsSpec.scale, PHYSICS.BRAKE_FORCE; simpl;
          destruct (Keys.down input); [ do 2 f_equal; ring | reflexivity ]).
  stage (magnitude
           (Car.velocity (PhysicsSpec.brake input (PhysicsSpec.accelerate input car))))
    ltac:(reflexivity).
  stage (PhysicsSpec.turn input
           (PhysicsSpec.brake input (PhysicsSpec.accelerate input car)))
    ltac:(generalize (PhysicsSpec.brake input (PhysicsSpec.accelerate input car));
          intros c; destruct c;
          unfold PhysicsSpec.turn, PHYSICS.TURN_SPEED, PHYSICS.MAX_SPEED;
          match goal with
          | |- context [Rgtb ?a 0.5] => destruct (Rgtb a 0.5); [ | reflexivity ]
          end;
          destruct (Keys.left input), (Keys.right input); simpl;
          unfold Car.set_rotation; simpl; f_equal; ring).
  stage (PhysicsSpec.friction
           (PhysicsSpec.turn input
              (PhysicsSpec.brake input (PhysicsSpec.accelerate input car))))
    ltac:(generalize (PhysicsSpec.turn input
                        (PhysicsSpec.brake input (PhysicsSpec.accelerate input car)));
          intros c;
          unfold PhysicsSpec.friction, PhysicsSpec.scale, PHYSICS.FRICTION;
          do 2 f_equal; ring).
  set (c4 := PhysicsSpec.friction
               (PhysicsSpec.turn input
                  (PhysicsSpec.brake input (PhysicsSpec.accelerate input car)))).
  stage (magnitude (Car.velocity c4)) ltac:(reflexivity).
  stage (PhysicsSpec.capSpeed c4)
    ltac:(generalize c4; intros c;
          unfold PhysicsSpec.capSpeed, PhysicsSpec.scale;
          destruct (Rgtb (magnitude (Car.velocity c)) (Car.maxSpeed c));
          [ do 2 f_equal; unfold Rdiv; ring | reflexivity ]).
  stage (PhysicsSpec.integrate (PhysicsSpec.capSpeed c4)) ltac:(reflexivity).
  reflexivity.
Qed.

Lemma magnitude_nonneg (v : Vec.t) : 0 <= magnitude v.
Proof. unfold magnitude. apply sqrt_pos. Qed.

Lemma magnitude_scale (k : R) (v : Vec.t) :
  0 <= k -> magnitude (PhysicsSpec.scale k v) = k * magnitude v.
Proof.
  intros Hk. unfold magnitude, PhysicsSpec.scale. simpl.
  replace ((k * Vec.x v) * ((k * Vec.x v) * 1) + (k * Vec.y v) * ((k * Vec.y v) * 1))
    with (k * k * (Vec.x v * (Vec.x v * 1) + Vec.y v * (Vec.y v * 1))) by ring.
  rewrite sqrt_mult_alt by nra.
  rewrite sqrt_square by assumption. reflexivity.
Qed.

Lemma magnitude_le (v w : Vec.t) :
  Rabs (Vec.x v) <= Rabs (Vec.x w) -> Rabs (Vec.y v) <= Rabs (Vec.y w) ->
  magnitude v <= magnitude w.
Proof.
  intros Hx Hy. unfold magnitude. apply sqrt_le_1_alt.
  assert (Hsq : forall a b, Rabs a <= Rabs b -> a ^ 2 <= b ^ 2).
  { intros a b H. rewrite <- (pow2_abs a), <- (pow2_abs b).
    pose proof (Rabs_pos a). nra. }
  pose proof (Hsq _ _ Hx). pose proof (Hsq _ _ Hy). lra.
Qed.

Lemma capSpeed_bound (car : Car.t) :
  0 <= Car.maxSpeed car ->
  magnitude (Car.velocity (PhysicsSpec.capSpeed car)) <= Car.maxSpeed car.
Proof.
  intros Hm. unfold PhysicsSpec.capSpeed.
  destruct (Rgtb_spec (magnitude (Car.velocity car)) (Car.maxSpeed car)) as [H | H]; simpl.
  - assert (Hpos : 0 < magnitude (Car.velocity car)) by lra.
    rewrite magnitude_scale.
    + unfold Rdiv. rewrite Rmult_assoc, Rinv_l by lra. lra.
    + apply Rmult_le_pos; [lra | left; apply Rinv_0_lt_compat; lra].
  - lra.
Qed.

Lemma capSpeed_maxSpeed (car : Car.t) :
  Car.maxSpeed (PhysicsSpec.capSpeed car) = Car.maxSpeed car.
Proof. unfold PhysicsSpec.capSpeed. destruct (Rgtb _ _); reflexivity. Qed.

Lemma spec_steps_maxSpeed (car : Car.t) (input : Keys.t) :
  Car.maxSpeed (PhysicsSpec.friction
                  (PhysicsSpec.turn input
                     (PhysicsSpec.brake input (PhysicsSpec.accelerate input car))))
  = Car.maxSpeed car.
Proof.
  unfold PhysicsSpec.friction, PhysicsSpec.turn, PhysicsSpec.brake, PhysicsSpec.accelerate.
  destruct (Keys.up input), (Keys.down input); simpl;
    match goal with |- context [Rgtb ?a ?b] => destruct (Rgtb a b) end; reflexivity.
Qed.

(** After a physics update the speed is within the cap of the car. *)
Lemma updateCarPhysics_speed (car : Car.t) (input : Keys.t) :
  0 <= Car.maxSpeed car ->
  magnitude (Car.velocity (updateCarPhysics car input))
  <= Car.maxSpeed (updateCarPhysics car input)
  /\ Car.maxSpeed (updateCarPhysics car input) = Car.maxSpeed car.
Proof.
  intros Hm. rewrite updateCarPhysics_steps.
  destruct (keepInBounds_other_fields (PhysicsSpec.update car input)) as (-> & _).
  destruct (keepInBounds_velocity_shrinks (PhysicsSpec.update car input)) as [Hx Hy].
  pose proof (magnitude_le _ _ Hx Hy) as Hle.
  unfold PhysicsSpec.update in *. unfold PhysicsSpec.integrate in *. simpl in *.
  rewrite capSpeed_maxSpeed, spec_steps_maxSpeed.
  split; [ | reflexivity ].
  eapply Rle_trans; [ exact Hle | ].
  pose proof (capSpeed_bound
    (PhysicsSpec.friction
       (PhysicsSpec.turn input
          (PhysicsSpec.brake input (PhysicsSpec.accelerate input car))))) as Hc.
  rewrite spec_steps_maxSpeed in Hc. apply Hc. exact Hm.
Qed.

(** C5: after every physics update the position of the car lies in
    [20,780] x [20,580]; on each axis independently, a coordinate of the
    integrated position that is past a margin is set to that margin and the
    velocity component of that axis becomes half its absolute value, pointing
    inward, while a coordinate within the margins is left as it is with its
    velocity component.  Here [PhysicsSpec.update car input] is the car as
    integrated, before boundary handling ([updateCarPhysics_steps]). *)
Theorem physics_update_within_bounds (car : Car.t) (input : Keys.t) :
  let moved := PhysicsSpec.update car input in
  let car' := updateCarPhysics car input in
  let px := Vec.x (Car.position moved) in
  let py := Vec.y (Car.position moved) in
  let vx := Vec.x (Car.velocity moved) in
  let vy := Vec.y (Car.velocity moved) in
  car' = keepInBounds moved
  /\ inBounds (Car.position car')
  /\ (px < 20 -> Vec.x (Car.position car') = 20 /\ Vec.x (Car.velocity car') = Rabs vx * 0.5)
  /\ (px > 780 ->
      Vec.x (Car.position car') = 780 /\ Vec.x (Car.velocity car') = - (Rabs vx * 0.5))
  /\ (20 <= px <= 780 ->
      Vec.x (Car.position car') = px /\ Vec.x (Car.velocity car') = vx)
  /\ (py < 20 -> Vec.y (Car.position car') = 20 /\ Vec.y (Car.velocity car') = Rabs vy * 0.5)
  /\ (py > 580 ->
      Vec.y (Car.position car') = 580 /\ Vec.y (Car.velocity car') = - (Rabs vy * 0.5))
  /\ (20 <= py <= 580 ->
      Vec.y (Car.position car') = py /\ Vec.y (Car.velocity car') = vy).
Proof.
  cbv zeta. rewrite updateCarPhysics_steps.
  pose proof (keepInBounds_x (PhysicsSpec.update car input)) as Hx.
  pose proof (keepInBounds_y (PhysicsSpec.update car input)) as Hy.
  cbv zeta in Hx, Hy.
  destruct Hx as (Hx1 & Hx2 & Hx3), Hy as (Hy1 & Hy2 & Hy3).
  split; [ reflexivity | ].
  split; [ apply keepInBounds_inBounds | ].
  repeat split;
    first [ apply Hx1; assumption | apply Hx2; assumption | apply Hx3; assumption
          | apply Hy1; assumption | apply Hy2; assumption | apply Hy3; assumption ].
Qed.

(** C8: one physics update is the six steps of the specification in their
    order (impulse 0.5 along the heading if forward; velocity scaled by 0.8 if
    brake; heading changed by -/+ 0.08 (speed / 8) per pressed turn input only
    when the speed before friction exceeds 0.5; velocity scaled by 0.95;
    velocity rescaled to maxSpeed when its magnitude exceeds it; velocity added
    to position), followed by the boundary handling. *)
Theorem updateCarPhysics_is_spec_steps (car : Car.t) (input : Keys.t) :
  updateCarPhysics car input
  = keepInBounds
      (PhysicsSpec.integrate
         (PhysicsSpec.capSpeed
            (PhysicsSpec.friction
               (PhysicsSpec.turn input
                  (PhysicsSpec.brake input
                     (PhysicsSpec.accelerate input car)))))).
Proof. exact (updateCarPhysics_steps car input). Qed.

(** ** Projectiles *)


Lemma handleBottleCarCollision_qualifies (bottle : Bottle.t) (car : Car.t) :
  Bottle.active bottle = true ->
  Car.isEliminated car = false ->
  handleBottleCarCollision bottle car
  = if qualifies bottle car
    then (true, Bottle.set_active bottle false,
          Car.set_velocity
            (Car.set_health car (Car.health car - Bottle.damage bottle)%Z)
            (Vec.mk
               (Vec.x (Car.velocity car)
                + cos (atan2 (Vec.y (Car.position car) - Vec.y (Bottle.position bottle))
                             (Vec.x (Car.position car) - Vec.x (Bottle.position bottle)))
                  * 3)
               (Vec.y (Car.velocity car)
                + sin (atan2 (Vec.y (Car.position car) - Vec.y (Bottle.position bottle))
                             (Vec.x (Car.position car) - Vec.x (Bottle.position bottle)))
                  * 3)))
    else (false, bottle, car).
Proof.
  intros Ha He. unfold handleBottleCarCollision, qualifies.
  rewrite Ha, He. simpl.
  destruct (String.eqb (Bottle.playerId bottle) (Car.playerId car)); simpl;
    [ reflexivity | ].
  destruct (checkCollision (Bottle.position bottle) (Car.position car) 5 20);
    reflexivity.
Qed.

Lemma hitFirstCar_inactive (bottle : Bottle.t) (cars : list Car.t) :
  Bottle.active bottle = false -> hitFirstCar bottle cars = (bottle, cars).
Proof.
  intros Ha. induction cars as [ | car rest IH]; simpl; [ reflexivity | ].
  destruct (Car.isEliminated car); simpl.
  - rewrite IH. reflexivity.
  - unfold handleBottleCarCollision. rewrite Ha.
    rewrite orb_true_r. rewrite IH. reflexivity.
Qed.

Lemma hitFirstCar_none (bottle : Bottle.t) (cars : list Car.t) :
  Bottle.active bottle = true ->
  Forall (fun car => qualifies bottle car = false) cars ->
  hitFirstCar bottle cars = (bottle, cars).
Proof.
  intros Ha Hall. induction Hall as [ | car rest Hq _ IH]; simpl; [ reflexivity | ].
  destruct (Car.isEliminated car) eqn:He; simpl.
  - rewrite IH. reflexivity.
  - rewrite (handleBottleCarCollision_qualifies bottle car Ha He), Hq.
    rewrite IH. reflexivity.
Qed.

Lemma hitFirstCar_first (bottle : Bottle.t) (pre post : list Car.t) (car : Car.t) :
  Bottle.active bottle = true ->
  Forall (fun c => qualifies bottle c = false) pre ->
  qualifies bottle car = true ->
  hitFirstCar bottle (pre ++ car :: post)
  = (Bottle.set_active bottle false, pre ++ struck bottle car :: post).
Proof.
  intros Ha Hall Hq. induction Hall as [ | c rest Hc _ IH]; simpl.
  - assert (He : Car.isEliminated car = false).
    { unfold qualifies in Hq. destruct (Car.isEliminated car); [ discriminate | reflexivity ]. }
    rewrite He. simpl.
    rewrite (handleBottleCarCollision_qualifies bottle car Ha He), Hq.
    unfold struck. simpl.
    destruct (Car.health car - Bottle.damage bottle <=? 0)%Z; reflexivity.
  - destruct (Car.isEliminated c) eqn:He; simpl.
    + rewrite IH. reflexivity.
    + rewrite (handleBottleCarCollision_qualifies bottle c Ha He), Hc.
      rewrite IH. reflexivity.
Qed.

(** The cars split at the first one the bottle qualifies against. *)
Lemma first_qualifying (bottle : Bottle.t) (cars : list Car.t) :
  Forall (fun c => qualifies bottle c = false) cars
  \/ exists pre car post,
       cars = (pre ++ car :: post)%list
       /\ Forall (fun c => qualifies bottle c = false) pre
       /\ qualifies bottle car = true.
Proof.
  induction cars as [ | c rest IH].
  - left. constructor.
  - destruct (qualifies bottle c) eqn:Hq.
    + right. exists [], c, rest. repeat split; [ constructor | exact Hq ].
    + destruct IH as [IH | (pre & car & post & -> & Hpre & Hcar)].
      * left. constructor; assumption.
      * right. exists (c :: pre), car, post.
        repeat split; [ constructor; assumption | exact Hcar ].
Qed.

Lemma stepBottles_active (bottles : list Bottle.t) (cars : list Car.t) :
  Forall (fun b => Bottle.active b = true) (fst (stepBottles bottles cars)).
Proof.
  revert cars. induction bottles as [ | bottle rest IH]; intros cars; simpl.
  - constructor.
  - destruct (Bottle.active bottle); simpl; [ | apply IH ].
    destruct (hitFirstCar (updateBottlePhysics bottle) cars) as [bottle' cars'].
    specialize (IH cars').
    destruct (stepBottles rest cars') as [kept cars'']. simpl in *.
    destruct (Bottle.active bottle') eqn:Ha; [ constructor; assumption | assumption ].
Qed.

Lemma tick_bottles (e : Entropy) (g : GameState.t) :
  GameState.bottles (fst (tick e g))
  = fst (stepBottles (GameState.bottles g) (GameState.players g)).
Proof.
  unfold tick. simpl.
  destruct (stepBottles (GameState.bottles g) (GameState.players g)) as [bs cars]. simpl.
  destruct (stepPowerUps (GameState.powerUps g) cars) as [[pus cars'] ts]. simpl.
  destruct (trackLaps (GameState.raceTime g + 1) (GameState.maxLaps g) cars'
              (GameState.gameEnded g) (GameState.winner g)) as [[cars'' en] w]. simpl.
  unfold respawn, lastStanding. simpl.
  repeat match goal with
  | |- context [if ?c then _ else _] => destruct c; simpl
  | |- context [match ?c with Some _ => _ | None => _ end] => destruct c; simpl
  end; reflexivity.
Qed.


(** ** Cars under the operations of a tick *)

Lemma evolves_refl (car : Car.t) : evolves car car.
Proof. unfold evolves. auto. Qed.

Lemma evolves_trans (a b c : Car.t) : evolves a b -> evolves b c -> evolves a c.
Proof.
  unfold evolves. intros (H1 & H2 & H3) (H4 & H5 & H6).
  split; [ congruence | split; [ congruence | auto ] ].
Qed.

Lemma Forall2_evolves_refl (cars : list Car.t) : Forall2 evolves cars cars.
Proof. induction cars; constructor; [ apply evolves_refl | assumption ]. Qed.

Lemma Forall2_evolves_trans (a b c : list Car.t) :
  Forall2 evolves a b -> Forall2 evolves b c -> Forall2 evolves a c.
Proof.
  intros Hab. revert c. induction Hab as [ | x y l l' Hxy _ IH]; intros c Hbc.
  - inversion Hbc. constructor.
  - inversion Hbc as [ | y' z l'' m Hyz Hrest ]; subst.
    constructor; [ eapply evolves_trans; eassumption | apply IH; assumption ].
Qed.

Lemma Forall2_evolves_ok (cars cars' : list Car.t) :
  Forall2 evolves cars cars' -> Forall car_ok cars -> Forall car_ok cars'.
Proof.
  induction 1 as [ | x y l l' (_ & _ & Hxy) _ IH]; intros Hok.
  - constructor.
  - inversion Hok; subst. constructor; auto.
Qed.

Lemma Forall2_evolves_ids (cars cars' : list Car.t) :
  Forall2 evolves cars cars' -> map Car.playerId cars' = map Car.playerId cars.
Proof.
  induction 1 as [ | x y l l' (Hid & _) _ IH]; simpl; [ reflexivity | ].
  rewrite Hid, IH. reflexivity.
Qed.

Lemma struck_evolves (bottle : Bottle.t) (car : Car.t) :
  Bottle.damage bottle = 20%Z -> Car.isEliminated car = false ->
  evolves car (struck bottle car).
Proof.
  intros Hd He. unfold evolves, struck. simpl.
  destruct (Car.health car - Bottle.damage bottle <=? 0)%Z eqn:Hz; simpl;
    (split; [ reflexivity | split; [ reflexivity | ] ]);
    unfold car_ok; simpl; intros (Hm & Hh & Hl & Hp & Hq & Hs);
    specialize (Hp He); rewrite Hd in *.
  - apply Z.leb_le in Hz. repeat split; try lia; try lra; try discriminate.
  - apply Z.leb_gt in Hz. repeat split; try lia; try lra; try congruence.
Qed.

Lemma hitFirstCar_evolves (bottle : Bottle.t) (cars : list Car.t) :
  Bottle.damage bottle = 20%Z ->
  Forall2 evolves cars (snd (hitFirstCar bottle cars)).
Proof.
  intros Hd. destruct (Bottle.active bottle) eqn:Ha.
  - destruct (first_qualifying bottle cars)
      as [Hnone | (pre & car & post & -> & Hpre & Hcar)].
    + rewrite (hitFirstCar_none _ _ Ha Hnone). apply Forall2_evolves_refl.
    + rewrite (hitFirstCar_first _ _ _ _ Ha Hpre Hcar). simpl.
      apply Forall2_app; [ apply Forall2_evolves_refl | ].
      constructor; [ | apply Forall2_evolves_refl ].
      apply struck_evolves; [ exact Hd | ].
      unfold qualifies in Hcar. destruct (Car.isEliminated car);
        [ discriminate | reflexivity ].
  - rewrite (hitFirstCar_inactive _ _ Ha). apply Forall2_evolves_refl.
Qed.

Lemma updateBottlePhysics_damage (bottle : Bottle.t) :
  Bottle.damage (updateBottlePhysics bottle) = Bottle.damage bottle.
Proof.
  unfold updateBottlePhysics.
  match goal with |- context [if ?c then _ else _] => destruct c end; reflexivity.
Qed.

Lemma hitFirstCar_damage (bottle : Bottle.t) (cars : list Car.t) :
  Bottle.damage (fst (hitFirstCar bottle cars)) = Bottle.damage bottle.
Proof.
  induction cars as [ | car rest IH]; simpl; [ reflexivity | ].
  destruct (Car.isEliminated car); simpl.
  - destruct (hitFirstCar bottle rest); simpl in *. exact IH.
  - unfold handleBottleCarCollision.
    destruct (String.eqb _ _ || negb _); simpl.
    + destruct (hitFirstCar bottle rest); simpl in *. exact IH.
    + destruct (checkCollision _ _ _ _); simpl.
      * reflexivity.
      * destruct (hitFirstCar bottle rest); simpl in *. exact IH.
Qed.

Lemma stepBottles_evolves (bottles : list Bottle.t) (cars : list Car.t) :
  Forall (fun b => Bottle.damage b = 20%Z) bottles ->
  Forall2 evolves cars (snd (stepBottles bottles cars))
  /\ Forall (fun b => Bottle.damage b = 20%Z) (fst (stepBottles bottles cars)).
Proof.
  intros Hall. revert cars.
  induction Hall as [ | bottle rest Hd _ IH]; intros cars; simpl.
  - split; [ apply Forall2_evolves_refl | constructor ].
  - destruct (Bottle.active bottle); simpl; [ | apply IH ].
    pose proof (hitFirstCar_evolves (updateBottlePhysics bottle) cars) as Hev.
    pose proof (hitFirstCar_damage (updateBottlePhysics bottle) cars) as Hdm.
    rewrite updateBottlePhysics_damage in Hev, Hdm. specialize (Hev Hd).
    destruct (hitFirstCar (updateBottlePhysics bottle) cars) as [bottle' cars'].
    simpl in *.
    destruct (IH cars') as [IH1 IH2].
    destruct (stepBottles rest cars') as [kept cars'']. simpl in *.
    split; [ eapply Forall2_evolves_trans; eassumption | ].
    destruct (Bottle.active bottle'); [ constructor; [ congruence | assumption ] | assumption ].
Qed.

Lemma applyPowerUp_evolves (powerUp : PowerUp.t) (car : Car.t) :
  Car.isEliminated car = false ->
  evolves car (fst (applyPowerUp powerUp car)).
Proof.
  intros He. unfold evolves, applyPowerUp.
  destruct (PowerUp.type powerUp); simpl;
    (split; [ reflexivity | split; [ reflexivity | ] ]);
    unfold car_ok; simpl; intros (Hm & Hh & Hl & Hp & Hq & Hs);
    specialize (Hp He).
  - repeat split; try lia; try assumption;
      unfold Rmin; destruct (Rle_dec _ _); lra.
  - repeat split; try lia; try lra; assumption.
  - repeat split; try lia; try lra; try congruence.
  - repeat split; try lia; try lra; assumption.
Qed.

Lemma collectFirstCar_evolves (powerUp : PowerUp.t) (cars : list Car.t) :
  Forall2 evolves cars (snd (fst (collectFirstCar powerUp cars))).
Proof.
  revert powerUp. induction cars as [ | car rest IH]; intros powerUp; simpl.
  - constructor.
  - destruct (Car.isEliminated car) eqn:He; simpl.
    + specialize (IH powerUp).
      destruct (collectFirstCar powerUp rest) as [[p r] t]. simpl in *.
      constructor; [ apply evolves_refl | exact IH ].
    + unfold handlePowerUpCollection.
      destruct (PowerUp.collected powerUp); simpl.
      * specialize (IH powerUp).
        destruct (collectFirstCar powerUp rest) as [[p r] t]. simpl in *.
        constructor; [ apply evolves_refl | exact IH ].
      * destruct (checkCollision _ _ _ _); simpl.
        -- pose proof (applyPowerUp_evolves (PowerUp.set_collected powerUp true) car He)
             as H.
           destruct (applyPowerUp (PowerUp.set_collected powerUp true) car) as [c t].
           simpl in *. constructor; [ exact H | apply Forall2_evolves_refl ].
        -- specialize (IH powerUp).
           destruct (collectFirstCar powerUp rest) as [[p r] t]. simpl in *.
           constructor; [ apply evolves_refl | exact IH ].
Qed.

Lemma stepPowerUps_evolves (powerUps : list PowerUp.t) (cars : list Car.t) :
  Forall2 evolves cars (snd (fst (stepPowerUps powerUps cars))).
Proof.
  revert cars. induction powerUps as [ | powerUp rest IH]; intros cars; simpl.
  - apply Forall2_evolves_refl.
  - destruct (PowerUp.collected powerUp).
    + specialize (IH cars).
      destruct (stepPowerUps rest cars) as [[p c] t]. simpl in *. exact IH.
    + pose proof (collectFirstCar_evolves powerUp cars) as H.
      destruct (collectFirstCar powerUp cars) as [[p c] t]. simpl in *.
      specialize (IH c).
      destruct (stepPowerUps rest c) as [[p' c'] t']. simpl in *.
      eapply Forall2_evolves_trans; eassumption.
Qed.

Lemma lapStep_evolves (raceTime maxLaps : Z) (car : Car.t)
    (ended : bool) (winner : option SocketId) :
  evolves car (fst (fst (lapStep raceTime maxLaps car ended winner))).
Proof.
  unfold lapStep.
  destruct (Car.isEliminated car) eqn:He; simpl; [ apply evolves_refl | ].
  match goal with |- context [if ?c then _ else _] => destruct c end; simpl;
    [ destruct (Car.lap car <? maxLaps)%Z; simpl;
      [ destruct (Car.lap car + 1 >=? maxLaps)%Z; simpl | ] | ];
    unfold evolves, car_ok; simpl; auto.
Qed.

Lemma trackLaps_evolves (raceTime maxLaps : Z) (cars : list Car.t)
    (ended : bool) (winner : option SocketId) :
  Forall2 evolves cars (fst (fst (trackLaps raceTime maxLaps cars ended winner))).
Proof.
  revert ended winner. induction cars as [ | car rest IH]; intros ended winner; simpl.
  - constructor.
  - pose proof (lapStep_evolves raceTime maxLaps car ended winner) as H.
    destruct (lapStep raceTime maxLaps car ended winner) as [[c e'] w']. simpl in *.
    specialize (IH e' w').
    destruct (trackLaps raceTime maxLaps rest e' w') as [[r e''] w'']. simpl in *.
    constructor; assumption.
Qed.

(** ** The tick, unfolded *)

Lemma tick_eq (e : Entropy) (g : GameState.t) :
  let sb := stepBottles (GameState.bottles g) (GameState.players g) in
  let sp := stepPowerUps (GameState.powerUps g) (snd sb) in
  let tl := trackLaps (GameState.raceTime g + 1) (GameState.maxLaps g) (snd (fst sp))
                      (GameState.gameEnded g) (GameState.winner g) in
  tick e g
  = (respawn e
       (lastStanding
          (GameState.mk (GameState.id g) (fst (fst tl)) (fst sb) (fst (fst sp))
             (GameState.gameStarted g) (snd (fst tl)) (snd tl)
             (GameState.raceTime g + 1) (GameState.maxLaps g))),
     snd sp).
Proof.
  cbv zeta. unfold tick. simpl.
  destruct (stepBottles (GameState.bottles g) (GameState.players g)) as [bs cars]. simpl.
  destruct (stepPowerUps (GameState.powerUps g) cars) as [[pus cars'] ts]. simpl.
  destruct (trackLaps (GameState.raceTime g + 1) (GameState.maxLaps g) cars'
              (GameState.gameEnded g) (GameState.winner g)) as [[cars'' en] w].
  reflexivity.
Qed.

Lemma respawn_fields (e : Entropy) (g : GameState.t) :
  GameState.players (respawn e g) = GameState.players g
  /\ GameState.bottles (respawn e g) = GameState.bottles g
  /\ GameState.gameStarted (respawn e g) = GameState.gameStarted g
  /\ GameState.gameEnded (respawn e g) = GameState.gameEnded g
  /\ GameState.winner (respawn e g) = GameState.winner g
  /\ GameState.raceTime (respawn e g) = GameState.raceTime g
  /\ GameState.maxLaps (respawn e g) = GameState.maxLaps g
  /\ GameState.id (respawn e g) = GameState.id g.
Proof.
  unfold respawn.
  repeat match goal with
  | |- context [if ?c then _ else _] => destruct c; simpl
  end; repeat split; reflexivity.
Qed.

Lemma lastStanding_fields (g : GameState.t) :
  GameState.players (lastStanding g) = GameState.players g
  /\ GameState.bottles (lastStanding g) = GameState.bottles g
  /\ GameState.powerUps (lastStanding g) = GameState.powerUps g
  /\ GameState.gameStarted (lastStanding g) = GameState.gameStarted g
  /\ GameState.raceTime (lastStanding g) = GameState.raceTime g
  /\ GameState.maxLaps (lastStanding g) = GameState.maxLaps g
  /\ GameState.id (lastStanding g) = GameState.id g.
Proof.
  unfold lastStanding.
  repeat match goal with
  | |- context [if ?c then _ else _] => destruct c; simpl
  | |- context [match ?c with Some _ => _ | None => _ end] => destruct c; simpl
  end; repeat split; reflexivity.
Qed.

Lemma tick_players (e : Entropy) (g : GameState.t) :
  GameState.players (fst (tick e g))
  = fst (fst (trackLaps (GameState.raceTime g + 1) (GameState.maxLaps g)
                (snd (fst (stepPowerUps (GameState.powerUps g)
                             (snd (stepBottles (GameState.bottles g)
                                               (GameState.players g))))))
                (GameState.gameEnded g) (GameState.winner g))).
Proof.
  pose proof (tick_eq e g) as H. cbv zeta in H. rewrite H. simpl.
  destruct (respawn_fields e (lastStanding
    (GameState.mk (GameState.id g)
       (fst (fst (trackLaps (GameState.raceTime g + 1) (GameState.maxLaps g)
          (snd (fst (stepPowerUps (GameState.powerUps g)
             (snd (stepBottles (GameState.bottles g) (GameState.players g))))))
          (GameState.gameEnded g) (GameState.winner g))))
       (fst (stepBottles (GameState.bottles g) (GameState.players g)))
       (fst (fst (stepPowerUps (GameState.powerUps g)
          (snd (stepBottles (GameState.bottles g) (GameState.players g))))))
       (GameState.gameStarted g)
       (snd (fst (trackLaps (GameState.raceTime g + 1) (GameState.maxLaps g)
          (snd (fst (stepPowerUps (GameState.powerUps g)
             (snd (stepBottles (GameState.bottles g) (GameState.players g))))))
          (GameState.gameEnded g) (GameState.winner g))))
       (snd (trackLaps (GameState.raceTime g + 1) (GameState.maxLaps g)
          (snd (fst (stepPowerUps (GameState.powerUps g)
             (snd (stepBottles (GameState.bottles g) (GameState.players g))))))
          (GameState.gameEnded g) (GameState.winner g)))
       (GameState.raceTime g + 1) (GameState.maxLaps g)))) as (-> & _).
  match goal with
  | |- GameState.players (lastStanding ?x) = _ =>
      destruct (lastStanding_fields x) as (-> & _)
  end.
  reflexivity.
Qed.

Lemma tick_evolves (e : Entropy) (g : GameState.t) :
  Forall bottle_ok (GameState.bottles g) ->
  Forall2 evolves (GameState.players g) (GameState.players (fst (tick e g)))
  /\ Forall bottle_ok (GameState.bottles (fst (tick e g))).
Proof.
  intros Hb.
  assert (Hd : Forall (fun b => Bottle.damage b = 20%Z) (GameState.bottles g)).
  { eapply Forall_impl; [ | exact Hb ]. intros b [H _]. exact H. }
  destruct (stepBottles_evolves _ (GameState.players g) Hd) as [H1 H2].
  split.
  - rewrite tick_players.
    eapply Forall2_evolves_trans; [ exact H1 | ].
    eapply Forall2_evolves_trans; [ apply stepPowerUps_evolves | ].
    apply trackLaps_evolves.
  - rewrite tick_bottles.
    pose proof (stepBottles_active (GameState.bottles g) (GameState.players g)) as Ha.
    rewrite Forall_forall in *. intros b Hin. split; auto.
Qed.

Lemma tick_started (e : Entropy) (g : GameState.t) :
  GameState.gameStarted (fst (tick e g)) = GameState.gameStarted g.
Proof.
  pose proof (tick_eq e g) as H. cbv zeta in H. rewrite H. simpl.
  match goal with
  | |- GameState.gameStarted (respawn e ?x) = _ =>
      destruct (respawn_fields e x) as (_ & _ & -> & _)
  end.
  match goal with
  | |- GameState.gameStarted (lastStanding ?x) = _ =>
      destruct (lastStanding_fields x) as (_ & _ & _ & -> & _)
  end.
  reflexivity.
Qed.

(** ** The room table *)

Section JsMapFacts.
Context {V : Type}.
Implicit Types (m : list (string * V)) (P : V -> Prop).

Lemma map_get_In m k v : map_get m k = Some v -> In (k, v) m.
Proof.
  induction m as [ | [k' v'] rest IH]; simpl; [ discriminate | ].
  destruct (String.eqb_spec k' k) as [-> | Hne].
  - intros [= ->]. left. reflexivity.
  - intros H. right. apply IH. exact H.
Qed.

Lemma Forall_map_get m P k v :
  Forall (fun entry => P (snd entry)) m -> map_get m k = Some v -> P v.
Proof.
  intros Hall Hget. apply map_get_In in Hget.
  rewrite Forall_forall in Hall. exact (Hall _ Hget).
Qed.

Lemma Forall_map_set m P k v :
  Forall (fun entry => P (snd entry)) m -> P v ->
  Forall (fun entry => P (snd entry)) (map_set m k v).
Proof.
  intros Hall Hv. induction Hall as [ | [k' v'] rest Hh Hr IH]; simpl.
  - constructor; [ exact Hv | constructor ].
  - destruct (String.eqb k' k); constructor; simpl; assumption.
Qed.

Lemma Forall_map_delete m P k :
  Forall (fun entry => P (snd entry)) m ->
  Forall (fun entry => P (snd entry)) (map_delete m k).
Proof.
  intros Hall. induction Hall as [ | [k' v'] rest Hh Hr IH]; simpl.
  - constructor.
  - destruct (String.eqb k' k); [ exact Hr | constructor; assumption ].
Qed.

Lemma map_get_set_same m k v : map_get (map_set m k v) k = Some v.
Proof.
  induction m as [ | [k' v'] rest IH]; simpl.
  - rewrite String.eqb_refl. reflexivity.
  - destruct (String.eqb k' k) eqn:E; simpl; rewrite E; [ reflexivity | exact IH ].
Qed.

Lemma map_get_set_other m k k' v :
  k' <> k -> map_get (map_set m k v) k' = map_get m k'.
Proof.
  intros Hne. induction m as [ | [k0 v0] rest IH]; simpl.
  - destruct (String.eqb_spec k k'); [ congruence | reflexivity ].
  - destruct (String.eqb_spec k0 k) as [-> | H0]; simpl.
    + destruct (String.eqb_spec k k'); [ congruence | reflexivity ].
    + destruct (String.eqb k0 k'); [ reflexivity | exact IH ].
Qed.

Lemma map_get_delete_same m k :
  NoDup (map fst m) -> map_get (map_delete m k) k = None.
Proof.
  induction m as [ | [k0 v0] rest IH]; simpl; intros Hnd; [ reflexivity | ].
  inversion Hnd as [ | ? ? Hnotin Hnd' ]; subst.
  destruct (String.eqb_spec k0 k) as [-> | H0]; simpl.
  - destruct (map_get rest k) eqn:E; [ | reflexivity ].
    apply map_get_In in E. exfalso. apply Hnotin.
    change k with (fst (k, v)). apply in_map. exact E.
  - destruct (String.eqb_spec k0 k); [ congruence | apply IH; exact Hnd' ].
Qed.

Lemma map_get_delete_other m k k' :
  k' <> k -> map_get (map_delete m k) k' = map_get m k'.
Proof.
  intros Hne. induction m as [ | [k0 v0] rest IH]; simpl; [ reflexivity | ].
  destruct (String.eqb_spec k0 k) as [-> | H0]; simpl.
  - destruct (String.eqb_spec k k'); [ congruence | reflexivity ].
  - destruct (String.eqb k0 k'); [ reflexivity | exact IH ].
Qed.
End JsMapFacts.

(** ** The invariant of the server *)

Lemma Forall2_evolves_members (ids : list SocketId) (cars cars' : list Car.t) :
  Forall2 evolves cars cars' ->
  Forall (fun car => In (Car.playerId car) ids) cars ->
  Forall (fun car => In (Car.playerId car) ids) cars'.
Proof.
  induction 1 as [ | x y l l' (Hid & _) _ IH]; intros Hall.
  - constructor.
  - inversion Hall; subst. constructor; [ rewrite Hid; assumption | auto ].
Qed.

Lemma room_ok_evolves (room : Room.t) (g : GameState.t) :
  room_ok room ->
  Forall2 evolves (GameState.players (Room.gameState room)) (GameState.players g) ->
  Forall bottle_ok (GameState.bottles g) ->
  room_ok (Room.set_gameState room g).
Proof.
  intros (Hh & Hmax & Hmem & Hcars & Hb) Hev Hb'.
  unfold room_ok, memberIds. simpl. repeat split.
  - exact Hh.
  - exact Hmax.
  - eapply Forall2_evolves_members; eassumption.
  - eapply Forall2_evolves_ok; eassumption.
  - exact Hb'.
Qed.

Lemma stopGameLoop_rooms (roomId : RoomId) (s : Server) :
  rooms (stopGameLoop roomId s) = rooms s.
Proof. unfold stopGameLoop. destruct (map_get (gameLoops s) roomId); reflexivity. Qed.

Lemma createRoom_ok (socket : SocketId) (roomName playerName : string)
    (roomId : RoomId) (s : Server) :
  server_ok s -> server_ok (fst (createRoom socket roomName playerName roomId s)).
Proof.
  intros Hs. unfold server_ok, createRoom. simpl.
  apply Forall_map_set; [ exact Hs | ].
  unfold room_ok. simpl. repeat split; try constructor.
  exists (Player.mk socket playerName), []. split; reflexivity.
Qed.

Lemma joinRoom_ok (socket : SocketId) (roomId : RoomId) (playerName : string)
    (s : Server) :
  server_ok s -> server_ok (fst (joinRoom socket roomId playerName s)).
Proof.
  intros Hs. unfold joinRoom.
  destruct (map_get (rooms s) roomId) as [room | ] eqn:Hget; [ | exact Hs ].
  destruct (Room.maxPlayers room <=? List.length (Room.players room))%nat; [ exact Hs | ].
  destruct (find _ (Room.players room)); [ exact Hs | ].
  unfold server_ok. simpl. apply Forall_map_set; [ exact Hs | ].
  pose proof (Forall_map_get _ room_ok _ _ Hs Hget) as (Hh & Hmax & Hmem & Hcars & Hb).
  unfold room_ok, memberIds. simpl. repeat split; try assumption.
  - destruct Hh as (p & rest & Hp & Hhost). rewrite Hp.
    exists p, (rest ++ [Player.mk socket playerName])%list. split; [ reflexivity | exact Hhost ].
  - eapply Forall_impl; [ | exact Hmem ]. intros car Hin. simpl in Hin.
    unfold memberIds in Hin. rewrite map_app. apply in_or_app. left. exact Hin.
Qed.

Lemma mapi_Forall {A B : Type} (P : B -> Prop) (f : A -> nat -> B) (l : list A) :
  (forall a i, In a l -> P (f a i)) -> Forall P (mapi f l).
Proof.
  intros H. unfold mapi. apply Forall_forall. intros b Hb.
  apply in_map_iff in Hb. destruct Hb as ([i a] & <- & Hin).
  apply in_combine_r in Hin. apply H. exact Hin.
Qed.

Lemma createCar_ok (ref : nat) (carId : string) (playerId : SocketId)
    (playerName : string) (index : nat) :
  car_ok (createCar ref carId playerId playerName index).
Proof.
  unfold car_ok, createCar, PHYSICS.MAX_SPEED. simpl.
  repeat split; try lia; try lra; discriminate.
Qed.

Lemma startGameLoop_rooms (roomId : RoomId) (s : Server) :
  rooms (startGameLoop roomId s) = rooms s.
Proof. reflexivity. Qed.

Lemma startGame_ok (socket : SocketId) (roomId : RoomId) (e : Entropy) (s : Server) :
  server_ok s -> server_ok (fst (startGame socket roomId e s)).
Proof.
  intros Hs. unfold startGame.
  destruct (map_get (rooms s) roomId) as [room | ] eqn:Hget; [ | exact Hs ].
  destruct (negb _ || _); [ exact Hs | ].
  unfold server_ok. simpl. apply Forall_map_set; [ exact Hs | ].
  pose proof (Forall_map_get _ room_ok _ _ Hs Hget) as (Hh & Hmax & Hmem & Hcars & Hb).
  unfold room_ok, memberIds. simpl. repeat split; try assumption.
  - apply mapi_Forall. intros p i Hin. simpl. apply in_map. exact Hin.
  - apply mapi_Forall. intros p i Hin. apply createCar_ok.
Qed.

Lemma spec_update_fields (car : Car.t) (input : Keys.t) :
  let car' := PhysicsSpec.update car input in
  Car.playerId car' = Car.playerId car
  /\ Car.ref car' = Car.ref car
  /\ Car.health car' = Car.health car
  /\ Car.maxHealth car' = Car.maxHealth car
  /\ Car.isEliminated car' = Car.isEliminated car
  /\ Car.maxSpeed car' = Car.maxSpeed car
  /\ Car.bottles car' = Car.bottles car
  /\ Car.lap car' = Car.lap car.
Proof.
  cbv zeta.
  unfold PhysicsSpec.update, PhysicsSpec.integrate, PhysicsSpec.capSpeed,
    PhysicsSpec.friction, PhysicsSpec.turn, PhysicsSpec.brake, PhysicsSpec.accelerate.
  destruct (Keys.up input), (Keys.down input); simpl;
    match goal with |- context [Rgtb ?a 0.5] => destruct (Rgtb a 0.5) end; simpl;
    match goal with |- context [Rgtb ?a (Car.maxSpeed car)] =>
      destruct (Rgtb a (Car.maxSpeed car)) end; simpl;
    repeat split; reflexivity.
Qed.

Lemma updateCarPhysics_fields (car : Car.t) (input : Keys.t) :
  let car' := updateCarPhysics car input in
  Car.playerId car' = Car.playerId car
  /\ Car.ref car' = Car.ref car
  /\ Car.health car' = Car.health car
  /\ Car.maxHealth car' = Car.maxHealth car
  /\ Car.isEliminated car' = Car.isEliminated car
  /\ Car.maxSpeed car' = Car.maxSpeed car
  /\ Car.bottles car' = Car.bottles car
  /\ Car.lap car' = Car.lap car.
Proof.
  cbv zeta. rewrite updateCarPhysics_steps.
  destruct (keepInBounds_other_fields (PhysicsSpec.update car input))
    as (-> & _ & -> & -> & -> & -> & -> & -> & ->).
  destruct (spec_update_fields car input) as (-> & -> & -> & -> & -> & -> & -> & ->).
  repeat split; reflexivity.
Qed.

Lemma updateCarPhysics_evolves (car : Car.t) (input : Keys.t) :
  evolves car (updateCarPhysics car input).
Proof.
  destruct (updateCarPhysics_fields car input) as (H1 & H2 & H3 & H4 & H5 & H6 & _).
  unfold evolves, car_ok. rewrite H1, H2, H3, H4, H5, H6. auto.
Qed.

Lemma updateFirst_evolves (f : Car.t -> bool) (car car' : Car.t) (cars : list Car.t) :
  find f cars = Some car -> evolves car car' ->
  Forall2 evolves cars (updateFirst f car' cars).
Proof.
  intros Hfind Hev. induction cars as [ | c rest IH]; simpl in *; [ discriminate | ].
  destruct (f c).
  - injection Hfind as ->. constructor; [ exact Hev | apply Forall2_evolves_refl ].
  - constructor; [ apply evolves_refl | apply IH; exact Hfind ].
Qed.

Lemma playerInput_ok (socket : SocketId) (roomId : RoomId) (keys : Keys.t)
    (bottleId : string) (s : Server) :
  server_ok s -> server_ok (fst (playerInput socket roomId keys bottleId s)).
Proof.
  intros Hs. unfold playerInput.
  destruct (map_get (rooms s) roomId) as [room | ] eqn:Hget; [ | exact Hs ].
  destruct (negb _); [ exact Hs | ].
  destruct (find _ (GameState.players (Room.gameState room))) as [car | ] eqn:Hfind;
    [ | exact Hs ].
  destruct (Car.isEliminated car); [ exact Hs | ].
  pose proof (Forall_map_get _ room_ok _ _ Hs Hget) as Hroom.
  destruct (Keys.space keys && (0 <? Car.bottles car)%Z); simpl;
    unfold server_ok; simpl; (apply Forall_map_set; [ exact Hs | ]).
  - change (Room.set_gameState room ?g) with (Room.set_gameState room g).
    apply (room_ok_evolves room); [ exact Hroom | | ].
    + simpl. apply updateFirst_evolves with (car := car); [ exact Hfind | ].
      eapply evolves_trans; [ | apply updateCarPhysics_evolves ].
      unfold evolves, car_ok. simpl. auto.
    + simpl. apply Forall_app. split; [ apply Hroom | ].
      constructor; [ split; reflexivity | constructor ].
  - apply (room_ok_evolves room); [ exact Hroom | | ].
    + simpl. apply updateFirst_evolves with (car := car); [ exact Hfind | ].
      apply updateCarPhysics_evolves.
    + simpl. apply Hroom.
Qed.

Lemma In_removeFirst {A : Type} (f : A -> bool) (a : A) (l : list A) :
  In a l -> f a = false -> In a (removeFirst f l).
Proof.
  intros Hin Hf. induction l as [ | h rest IH]; simpl in *; [ contradiction | ].
  destruct Hin as [-> | Hin].
  - rewrite Hf. left. reflexivity.
  - destruct (f h); [ exact Hin | right; apply IH; exact Hin ].
Qed.

Lemma memberIds_removeFirst (socket id : SocketId) (players : list Player.t) :
  In id (map Player.id players) -> id <> socket ->
  In id (map Player.id
           (removeFirst (fun p => String.eqb (Player.id p) socket) players)).
Proof.
  intros Hin Hne. apply in_map_iff in Hin. destruct Hin as (p & <- & Hin).
  apply in_map. apply In_removeFirst; [ exact Hin | ].
  apply String.eqb_neq. exact Hne.
Qed.

Lemma filter_evolves_members (socket : SocketId) (ids ids' : list SocketId)
    (cars : list Car.t) :
  (forall id, In id ids -> id <> socket -> In id ids') ->
  Forall (fun car => In (Car.playerId car) ids) cars ->
  Forall (fun car => In (Car.playerId car) ids')
         (filter (fun p => negb (String.eqb (Car.playerId p) socket)) cars).
Proof.
  intros Hsub Hall. apply Forall_forall. intros car Hin.
  apply filter_In in Hin. destruct Hin as [Hin Hf].
  rewrite Forall_forall in Hall. apply Hsub; [ apply Hall; exact Hin | ].
  apply String.eqb_neq. destruct (String.eqb (Car.playerId car) socket);
    [ discriminate | reflexivity ].
Qed.

Lemma Forall_filter {A : Type} (P : A -> Prop) (f : A -> bool) (l : list A) :
  Forall P l -> Forall P (filter f l).
Proof.
  intros H. apply Forall_forall. intros a Hin. apply filter_In in Hin.
  rewrite Forall_forall in H. apply H. apply Hin.
Qed.

Lemma disconnect_ok (socket : SocketId) (s : Server) :
  server_ok s -> server_ok (fst (disconnect socket s)).
Proof.
  intros Hs. unfold disconnect.
  destruct (find _ (rooms s)) as [[roomId room] | ] eqn:Hfind; [ | exact Hs ].
  apply find_some in Hfind. destruct Hfind as [Hin _].
  assert (Hroom : room_ok room).
  { unfold server_ok in Hs. rewrite Forall_forall in Hs. exact (Hs _ Hin). }
  simpl.
  destruct (List.length _ =? 0)%nat eqn:Hlen; simpl.
  - unfold server_ok. simpl. rewrite stopGameLoop_rooms.
    apply Forall_map_delete. exact Hs.
  - unfold server_ok. simpl. apply Forall_map_set; [ exact Hs | ].
    destruct Hroom as ((p & rest & Hp & Hhost) & Hmax & Hmem & Hcars & Hb).
    assert (Hsub : forall id, In id (memberIds room) -> id <> socket ->
      In id (map Player.id
               (removeFirst (fun p => String.eqb (Player.id p) socket)
                            (Room.players room)))).
    { intros id H1 H2. apply memberIds_removeFirst; assumption. }
    rewrite Hp in *. simpl in *.
    destruct (String.eqb_spec (Player.id p) socket) as [Heq | Hne].
    + (* the host leaves *)
      rewrite Hhost, Heq, String.eqb_refl. simpl.
      destruct rest as [ | q rest' ]; [ discriminate | ]. simpl.
      unfold room_ok, memberIds. simpl. repeat split.
      * exists q, rest'. split; reflexivity.
      * exact Hmax.
      * exact (filter_evolves_members socket (memberIds room) _ _ Hsub Hmem).
      * apply Forall_filter. exact Hcars.
      * exact Hb.
    + (* another member leaves *)
      rewrite Hhost. destruct (String.eqb_spec (Player.id p) socket);
        [ contradiction | ]. simpl.
      unfold room_ok, memberIds. simpl. repeat split.
      * eexists _, _. split; [ reflexivity | exact Hhost ].
      * exact Hmax.
      * exact (filter_evolves_members socket (memberIds room) _ _ Hsub Hmem).
      * apply Forall_filter. exact Hcars.
      * exact Hb.
Qed.

Lemma updateGame_ok (roomId : RoomId) (e : Entropy) (s : Server) :
  server_ok s -> server_ok (fst (updateGame roomId e s)).
Proof.
  intros Hs. unfold updateGame.
  destruct (map_get (rooms s) roomId) as [room | ] eqn:Hget; [ | exact Hs ].
  destruct (negb _ || _); [ exact Hs | ].
  pose proof (Forall_map_get _ room_ok _ _ Hs Hget) as Hroom.
  destruct (tick_evolves e (Room.gameState room)) as [Hev Hb]; [ apply Hroom | ].
  destruct (tick e (Room.gameState room)) as [g ts]. simpl in *.
  assert (Hok : Forall (fun entry => room_ok (snd entry))
                  (map_set (rooms s) roomId (Room.set_gameState room g))).
  { apply Forall_map_set; [ exact Hs | ]. apply room_ok_evolves; assumption. }
  destruct (GameState.gameEnded g); unfold server_ok; simpl;
    [ rewrite stopGameLoop_rooms | ]; exact Hok.
Qed.

Lemma fireInterval_ok (h : nat) (e : Entropy) (s : Server) :
  server_ok s -> server_ok (fst (fireInterval h e s)).
Proof.
  intros Hs. unfold fireInterval.
  destruct (find _ (intervals s)) as [[h' roomId] | ]; [ | exact Hs ].
  apply updateGame_ok. exact Hs.
Qed.

Lemma expireSpeed_evolves (ref : nat) (cars : list Car.t) :
  Forall2 evolves cars
    (map (fun car =>
            if Nat.eqb (Car.ref car) ref
            then Car.set_maxSpeed car PHYSICS.MAX_SPEED else car) cars).
Proof.
  induction cars as [ | car rest IH]; simpl; constructor; [ | exact IH ].
  destruct (Nat.eqb (Car.ref car) ref); [ | apply evolves_refl ].
  unfold evolves, car_ok, PHYSICS.MAX_SPEED. simpl.
  repeat split; try tauto; lra.
Qed.

Lemma fireTimeout_ok (k : nat) (s : Server) :
  server_ok s -> server_ok (fireTimeout k s).
Proof.
  intros Hs. unfold fireTimeout.
  destruct (nth_error (timeouts s) k) as [ref | ]; [ | exact Hs ].
  unfold server_ok in *. simpl. apply Forall_map.
  eapply Forall_impl; [ | exact Hs ]. intros [roomId room] Hroom. simpl in *.
  unfold expireSpeed. apply room_ok_evolves; [ exact Hroom | | apply Hroom ].
  apply expireSpeed_evolves.
Qed.

Lemma step_ok (s : Server) (ev : Event) : server_ok s -> server_ok (step s ev).
Proof.
  intros Hs. unfold step. destruct ev; simpl.
  - apply createRoom_ok; exact Hs.
  - apply joinRoom_ok; exact Hs.
  - apply startGame_ok; exact Hs.
  - apply playerInput_ok; exact Hs.
  - apply disconnect_ok; exact Hs.
  - apply fireInterval_ok; exact Hs.
  - apply fireTimeout_ok; exact Hs.
Qed.

Lemma reachable_ok (s : Server) : reachable s -> server_ok s.
Proof.
  induction 1 as [ | s ev _ IH].
  - constructor.
  - apply step_ok. exact IH.
Qed.

(** ** Keys of the maps *)

Section JsMapKeys.
Context {V : Type}.
Implicit Types (m : list (string * V)).

Lemma map_set_keys_in m k v k' :
  In k' (map fst (map_set m k v)) <-> k' = k \/ In k' (map fst m).
Proof.
  induction m as [ | [k0 v0] rest IH]; simpl.
  - intuition.
  - destruct (String.eqb_spec k0 k) as [-> | Hne]; simpl.
    + intuition.
    + rewrite IH. intuition.
Qed.

Lemma map_set_NoDup m k v : NoDup (map fst m) -> NoDup (map fst (map_set m k v)).
Proof.
  induction m as [ | [k0 v0] rest IH]; simpl; intros Hnd.
  - constructor; [ intros [] | constructor ].
  - inversion Hnd as [ | ? ? Hnotin Hnd' ]; subst.
    destruct (String.eqb_spec k0 k) as [-> | Hne]; simpl.
    + constructor; assumption.
    + constructor; [ | apply IH; exact Hnd' ].
      rewrite map_set_keys_in. intros [-> | H]; [ congruence | contradiction ].
Qed.

Lemma map_delete_keys_in m k k' :
  In k' (map fst (map_delete m k)) -> In k' (map fst m).
Proof.
  induction m as [ | [k0 v0] rest IH]; simpl; [ tauto | ].
  destruct (String.eqb k0 k); simpl; intuition.
Qed.

Lemma map_delete_NoDup m k : NoDup (map fst m) -> NoDup (map fst (map_delete m k)).
Proof.
  induction m as [ | [k0 v0] rest IH]; simpl; intros Hnd; [ constructor | ].
  inversion Hnd as [ | ? ? Hnotin Hnd' ]; subst.
  destruct (String.eqb k0 k); simpl; [ exact Hnd' | ].
  constructor; [ | apply IH; exact Hnd' ].
  intros H. apply Hnotin. eapply map_delete_keys_in. exact H.
Qed.

Lemma In_map_get m k v : NoDup (map fst m) -> In (k, v) m -> map_get m k = Some v.
Proof.
  induction m as [ | [k0 v0] rest IH]; simpl; intros Hnd Hin; [ contradiction | ].
  inversion Hnd as [ | ? ? Hnotin Hnd' ]; subst.
  destruct Hin as [[= -> ->] | Hin].
  - rewrite String.eqb_refl. reflexivity.
  - destruct (String.eqb_spec k0 k) as [-> | Hne]; [ | apply IH; assumption ].
    exfalso. apply Hnotin. change k with (fst (k, v)). apply in_map. exact Hin.
Qed.
End JsMapKeys.

Lemma stopGameLoop_keys (roomId : RoomId) (s : Server) :
  keys_ok s -> keys_ok (stopGameLoop roomId s).
Proof.
  intros [Hr Hl]. unfold stopGameLoop, keys_ok.
  destruct (map_get (gameLoops s) roomId); simpl; [ | split; assumption ].
  split; [ exact Hr | apply map_delete_NoDup; exact Hl ].
Qed.

Lemma set_rooms_keys (s : Server) (r : list (RoomId * Room.t)) :
  keys_ok s -> NoDup (map fst r) -> keys_ok (set_rooms s r).
Proof. intros [_ Hl] Hr. split; assumption. Qed.

Lemma step_keys (s : Server) (ev : Event) : keys_ok s -> keys_ok (step s ev).
Proof.
  intros Hk. pose proof Hk as [Hr Hl]. unfold step.
  destruct ev as [socket roomName playerName roomId | socket roomId playerName
                 | socket roomId e | socket roomId keys bottleId | socket | h e | k]; simpl.
  - apply set_rooms_keys; [ exact Hk | apply map_set_NoDup; exact Hr ].
  - unfold joinRoom. destruct (map_get (rooms s) roomId) as [room | ]; [ | exact Hk ].
    destruct (_ <=? _)%nat; [ exact Hk | ].
    destruct (find _ _); [ exact Hk | ].
    apply set_rooms_keys; [ exact Hk | apply map_set_NoDup; exact Hr ].
  - unfold startGame. destruct (map_get (rooms s) roomId) as [room | ]; [ | exact Hk ].
    destruct (negb _ || _); [ exact Hk | ].
    unfold keys_ok. simpl.
    split; apply map_set_NoDup; assumption.
  - unfold playerInput. destruct (map_get (rooms s) roomId) as [room | ]; [ | exact Hk ].
    destruct (negb _); [ exact Hk | ].
    destruct (find _ _) as [car | ]; [ | exact Hk ].
    destruct (Car.isEliminated car); [ exact Hk | ].
    destruct (Keys.space keys && _); simpl;
      (apply set_rooms_keys; [ exact Hk | apply map_set_NoDup; exact Hr ]).
  - unfold disconnect. destruct (find _ (rooms s)) as [[roomId room] | ]; [ | exact Hk ].
    simpl. destruct (_ =? 0)%nat; simpl.
    + apply set_rooms_keys; [ apply stopGameLoop_keys; exact Hk | ].
      rewrite stopGameLoop_rooms. apply map_delete_NoDup; exact Hr.
    + apply set_rooms_keys; [ exact Hk | apply map_set_NoDup; exact Hr ].
  - unfold fireInterval. destruct (find _ (intervals s)) as [[h' roomId] | ]; [ | exact Hk ].
    unfold updateGame. destruct (map_get (rooms s) roomId) as [room | ]; [ | exact Hk ].
    destruct (negb _ || _); [ exact Hk | ].
    destruct (tick e (Room.gameState room)) as [g ts].
    assert (Hk' : keys_ok
              (mkServer (map_set (rooms s) roomId (Room.set_gameState room g))
                 (gameLoops s) (intervals s) (timeouts s ++ ts)%list
                 (nextHandle s) (nextRef s))).
    { split; simpl; [ apply map_set_NoDup; exact Hr | exact Hl ]. }
    destruct (GameState.gameEnded g); simpl;
      [ apply stopGameLoop_keys; exact Hk' | exact Hk' ].
  - unfold fireTimeout. destruct (nth_error (timeouts s) k); [ | exact Hk ].
    split; simpl; [ | exact Hl ].
    rewrite map_map. simpl. exact Hr.
Qed.

Lemma reachable_keys (s : Server) : reachable s -> keys_ok s.
Proof.
  induction 1 as [ | s ev _ IH].
  - split; constructor.
  - apply step_keys. exact IH.
Qed.

Lemma reachable_run (evs : list Event) (s : Server) :
  reachable s -> reachable (run evs s).
Proof.
  revert s. induction evs as [ | ev evs IH]; intros s Hs; simpl.
  - exact Hs.
  - apply IH. constructor. exact Hs.
Qed.

(** ** Leaving a room *)

Lemma stopGameLoop_stops (roomId : RoomId) (s : Server) :
  NoDup (map fst (gameLoops s)) ->
  map_get (gameLoops (stopGameLoop roomId s)) roomId = None
  /\ (forall h, map_get (gameLoops s) roomId = Some h ->
                ~ In h (map fst (intervals (stopGameLoop roomId s)))).
Proof.
  intros Hnd. unfold stopGameLoop.
  destruct (map_get (gameLoops s) roomId) as [h | ] eqn:Hget; simpl.
  - split; [ apply map_get_delete_same; exact Hnd | ].
    intros h' [= <-] Hin. apply in_map_iff in Hin.
    destruct Hin as ([h'' r] & Hh & Hin). simpl in Hh. subst h''.
    apply filter_In in Hin. destruct Hin as [_ Hf]. simpl in Hf.
    rewrite Nat.eqb_refl in Hf. discriminate.
  - split; [ exact Hget | intros h [=] ].
Qed.

(** When the loop registered for the room is the only interval that ticks
    it, none is left. *)
Lemma stopGameLoop_clears (roomId : RoomId) (s : Server) :
  (forall h, In (h, roomId) (intervals s) -> map_get (gameLoops s) roomId = Some h) ->
  forall h, ~ In (h, roomId) (intervals (stopGameLoop roomId s)).
Proof.
  intros Hreg h Hin.
  assert (Hold : In (h, roomId) (intervals s)).
  { unfold stopGameLoop in Hin.
    destruct (map_get (gameLoops s) roomId); [ | exact Hin ].
    simpl in Hin. apply filter_In in Hin. exact (proj1 Hin). }
  pose proof (Hreg h Hold) as Hget.
  unfold stopGameLoop in Hin. rewrite Hget in Hin. simpl in Hin.
  apply filter_In in Hin. destruct Hin as [_ Hf]. simpl in Hf.
  rewrite Nat.eqb_refl in Hf. discriminate.
Qed.

Lemma disconnect_eq (socket : SocketId) (s : Server) (roomId : RoomId) (room : Room.t) :
  roomOf socket s = Some (roomId, room) ->
  let remaining :=
    removeFirst (fun p => String.eqb (Player.id p) socket) (Room.players room) in
  let cars :=
    filter (fun p => negb (String.eqb (Car.playerId p) socket))
           (GameState.players (Room.gameState room)) in
  step s (Disconnect socket)
  = match remaining with
    | [] =>
        let s' := stopGameLoop roomId s in
        set_rooms s' (map_delete (rooms s') roomId)
    | q :: _ =>
        set_rooms s
          (map_set (rooms s) roomId
             (Room.mk (Room.id room) (Room.name room) remaining (Room.maxPlayers room)
                (if String.eqb (Room.host room) socket then Player.id q
                 else Room.host room)
                (GameState.set_players (Room.gameState room) cars)))
    end.
Proof.
  intros Hfind. cbv zeta. unfold step. simpl. unfold disconnect.
  unfold roomOf in Hfind. rewrite Hfind. simpl.
  destruct (removeFirst _ (Room.players room)) as [ | q rest]; simpl; [ reflexivity | ].
  destruct (String.eqb (Room.host room) socket); reflexivity.
Qed.

(** ** Members without a car *)

Lemma Forall_map_set_entry {V : Type} (Q : string * V -> Prop)
    (m : list (string * V)) (k : string) (v : V) :
  Forall Q m -> Q (k, v) -> Forall Q (map_set m k v).
Proof.
  intros Hall Hv. induction Hall as [ | [k' v'] rest Hh Hr IH]; simpl.
  - constructor; [ exact Hv | constructor ].
  - destruct (String.eqb_spec k' k) as [-> | Hne]; constructor; assumption.
Qed.

Lemma Forall_map_delete_entry {V : Type} (Q : string * V -> Prop)
    (m : list (string * V)) (k : string) :
  Forall Q m -> Forall Q (map_delete m k).
Proof.
  intros Hall. induction Hall as [ | [k' v'] rest Hh Hr IH]; simpl.
  - constructor.
  - destruct (String.eqb k' k); [ exact Hr | constructor; assumption ].
Qed.

Lemma noCarOf_get (socket : SocketId) (roomId : RoomId) (s : Server) (room : Room.t) :
  noCarOf socket roomId s -> map_get (rooms s) roomId = Some room ->
  ~ In socket (map Car.playerId (GameState.players (Room.gameState room))).
Proof.
  intros Hno Hget. apply map_get_In in Hget.
  unfold noCarOf in Hno. rewrite Forall_forall in Hno.
  exact (Hno _ Hget eq_refl).
Qed.

Lemma noCarOf_set (socket : SocketId) (roomId k : RoomId) (s : Server)
    (room room' : Room.t) :
  noCarOf socket roomId s -> map_get (rooms s) k = Some room ->
  (~ In socket (map Car.playerId (GameState.players (Room.gameState room))) ->
   ~ In socket (map Car.playerId (GameState.players (Room.gameState room')))) ->
  Forall (fun entry : RoomId * Room.t =>
            fst entry = roomId ->
            ~ In socket (map Car.playerId
                           (GameState.players (Room.gameState (snd entry)))))
         (map_set (rooms s) k room').
Proof.
  intros Hno Hget Himp. apply Forall_map_set_entry; [ exact Hno | ].
  simpl. intros ->. apply Himp. eapply noCarOf_get; eassumption.
Qed.

Lemma step_noCarOf (socket : SocketId) (roomId : RoomId) (s : Server) (ev : Event) :
  server_ok s ->
  noCarOf socket roomId s -> startAccepted roomId s ev = false ->
  noCarOf socket roomId (step s ev).
Proof.
  intros Hok Hno Hev. unfold step.
  destruct ev as [sk roomName playerName r | sk r playerName
                 | sk r e | sk r keys bottleId | sk | h e | k]; simpl.
  - apply Forall_map_set_entry; [ exact Hno | ]. simpl. intros _ [].
  - unfold joinRoom. destruct (map_get (rooms s) r) as [room | ] eqn:Hget; [ | exact Hno ].
    destruct (_ <=? _)%nat; [ exact Hno | ].
    destruct (find _ _); [ exact Hno | ].
    unfold noCarOf. simpl. eapply noCarOf_set; [ exact Hno | exact Hget | ].
    simpl. auto.
  - unfold startGame. destruct (map_get (rooms s) r) as [room | ] eqn:Hget; [ | exact Hno ].
    destruct (negb (String.eqb (Room.host room) sk)
              || (List.length (Room.players room) <? 2)%nat) eqn:Hrefused;
      [ exact Hno | ].
    unfold noCarOf. simpl. apply Forall_map_set_entry; [ exact Hno | ].
    simpl. intros ->. exfalso.
    cbn [startAccepted] in Hev. rewrite String.eqb_refl, Hget in Hev.
    apply orb_false_iff in Hrefused. destruct Hrefused as [Hhost Hlen].
    apply negb_false_iff in Hhost. rewrite Hhost in Hev.
    apply Nat.ltb_ge in Hlen. apply Nat.leb_le in Hlen. rewrite Hlen in Hev.
    discriminate.
  - unfold playerInput.
    destruct (map_get (rooms s) r) as [room | ] eqn:Hget; [ | exact Hno ].
    destruct (negb _); [ exact Hno | ].
    destruct (find _ _) as [car | ] eqn:Hfind; [ | exact Hno ].
    destruct (Car.isEliminated car); [ exact Hno | ].
    assert (Hids : forall car',
      evolves car car' ->
      map Car.playerId
        (updateFirst (fun p => String.eqb (Car.playerId p) sk) car'
                     (GameState.players (Room.gameState room)))
      = map Car.playerId (GameState.players (Room.gameState room))).
    { intros car' Hc. apply Forall2_evolves_ids.
      eapply updateFirst_evolves; eassumption. }
    destruct (Keys.space keys && _); unfold noCarOf; simpl;
      (eapply noCarOf_set; [ exact Hno | exact Hget | ]); simpl; rewrite Hids; auto.
    + eapply evolves_trans; [ | apply updateCarPhysics_evolves ].
      unfold evolves, car_ok. simpl. auto.
    + apply updateCarPhysics_evolves.
  - unfold disconnect.
    destruct (find _ (rooms s)) as [[r room] | ] eqn:Hfind; [ | exact Hno ].
    apply find_some in Hfind. destruct Hfind as [Hin _].
    simpl. destruct (_ =? 0)%nat; unfold noCarOf; simpl.
    + rewrite stopGameLoop_rooms. apply Forall_map_delete_entry. exact Hno.
    + apply Forall_map_set_entry; [ exact Hno | ].
      intros Hr Hsock. simpl in Hr. subst r.
      unfold noCarOf in Hno. rewrite Forall_forall in Hno.
      apply (Hno _ Hin eq_refl). simpl.
      destruct (String.eqb (Room.host room) sk && _);
        [ destruct (removeFirst _ (Room.players room)) | ]; simpl in Hsock;
        apply in_map_iff in Hsock; destruct Hsock as (c & Hc & Hcin);
        apply filter_In in Hcin; apply in_map_iff; exists c; tauto.
  - unfold fireInterval.
    destruct (find _ (intervals s)) as [[h' r] | ]; [ | exact Hno ].
    unfold updateGame.
    destruct (map_get (rooms s) r) as [room | ] eqn:Hget; [ | exact Hno ].
    destruct (negb _ || _); [ exact Hno | ].
    pose proof (Forall_map_get _ room_ok _ _ Hok Hget) as Hroom.
    destruct (tick_evolves e (Room.gameState room)) as [Hevo _]; [ apply Hroom | ].
    apply Forall2_evolves_ids in Hevo.
    destruct (tick e (Room.gameState room)) as [g ts]. simpl in Hevo.
    assert (Hset : Forall (fun entry : RoomId * Room.t =>
              fst entry = roomId ->
              ~ In socket (map Car.playerId
                             (GameState.players (Room.gameState (snd entry)))))
            (map_set (rooms s) r (Room.set_gameState room g))).
    { eapply noCarOf_set; [ exact Hno | exact Hget | ]. simpl. rewrite Hevo. auto. }
    destruct (GameState.gameEnded g); unfold noCarOf; simpl;
      [ rewrite stopGameLoop_rooms | ]; exact Hset.
  - unfold fireTimeout. destruct (nth_error (timeouts s) k) as [ref | ]; [ | exact Hno ].
    unfold noCarOf in *. simpl. apply Forall_map.
    eapply Forall_impl; [ | exact Hno ]. intros [r room] H Hr. simpl in *.
    rewrite (Forall2_evolves_ids _ _ (expireSpeed_evolves ref _)). auto.
Qed.

Lemma run_noCarOf (socket : SocketId) (roomId : RoomId) (evs : list Event) (s : Server) :
  server_ok s -> noCarOf socket roomId s ->
  noSessionStarted roomId evs s = true ->
  noCarOf socket roomId (run evs s).
Proof.
  revert s. induction evs as [ | ev evs IH]; intros s Hok Hno Hall.
  - exact Hno.
  - cbn [noSessionStarted] in Hall. apply andb_prop in Hall.
    destruct Hall as [Hev Hrest]. apply negb_true_iff in Hev.
    cbn [run fold_left]. apply IH;
      [ apply step_ok; exact Hok | apply step_noCarOf; assumption | exact Hrest ].
Qed.

Lemma playerInput_noCar (socket : SocketId) (roomId : RoomId) (keys : Keys.t)
    (bottleId : string) (s : Server) :
  noCarOf socket roomId s -> playerInput socket roomId keys bottleId s = (s, []).
Proof.
  intros Hno. unfold playerInput.
  destruct (map_get (rooms s) roomId) as [room | ] eqn:Hget; [ | reflexivity ].
  destruct (negb _); [ reflexivity | ].
  destruct (find _ _) as [car | ] eqn:Hfind; [ | reflexivity ].
  exfalso. apply find_some in Hfind. destruct Hfind as [Hin Heq].
  apply String.eqb_eq in Heq.
  apply (noCarOf_get _ _ _ _ Hno Hget). rewrite <- Heq. apply in_map. exact Hin.
Qed.

(** C10: in a reachable state, a socket that is not yet a member joins a
    room whose session is started (racing or finished) and that has fewer than
    6 members: the join succeeds (the two success messages, no error), the
    member list is the old one with the newcomer appended, and the session is
    left as it was, so it holds no car of the newcomer; from then on, as long
    as the server accepts no startGame request for that room (requests that
    it refuses, from a socket that is not the host or for a room with fewer
    than two members, start no session and may arrive), every playerInput of
    the newcomer for that room leaves the server state unchanged and sends
    nothing. *)
Theorem late_joiner_has_no_car
    (s : Server) (socket : SocketId) (roomId : RoomId) (playerName : string)
    (room : Room.t) :
  reachable s ->
  map_get (rooms s) roomId = Some room ->
  GameState.gameStarted (Room.gameState room) = true ->
  (List.length (Room.players room) < 6)%nat ->
  ~ In socket (memberIds room) ->
  let joined := joinRoom socket roomId playerName s in
  let room' :=
    Room.set_players room (Room.players room ++ [Player.mk socket playerName])%list in
  snd joined = [playerJoined roomId socket; roomJoined socket roomId]
  /\ map_get (rooms (fst joined)) roomId = Some room'
  /\ Room.gameState room' = Room.gameState room
  /\ find (fun p => String.eqb (Car.playerId p) socket)
          (GameState.players (Room.gameState room')) = None
  /\ (forall (evs : list Event) (keys : Keys.t) (bottleId : string),
        noSessionStarted roomId evs (fst joined) = true ->
        playerInput socket roomId keys bottleId (run evs (fst joined))
        = (run evs (fst joined), [])).
Proof.
  intros Hreach Hget Hstarted Hlen Hnew. cbv zeta.
  pose proof (reachable_ok s Hreach) as Hok.
  pose proof (Forall_map_get _ room_ok _ _ Hok Hget) as Hroom.
  destruct Hroom as (Hhost & Hmax & Hmem & Hcars & Hb).
  assert (Hnocar : ~ In socket
                     (map Car.playerId (GameState.players (Room.gameState room)))).
  { intros Hin. apply in_map_iff in Hin. destruct Hin as (c & Hc & Hcin).
    rewrite Forall_forall in Hmem. apply Hnew. rewrite <- Hc. apply Hmem. exact Hcin. }
  assert (Hjoin : joinRoom socket roomId playerName s
                  = (set_rooms s
                       (map_set (rooms s) roomId
                          (Room.set_players room
                             (Room.players room ++ [Player.mk socket playerName])%list)),
                     [playerJoined roomId socket; roomJoined socket roomId])).
  { unfold joinRoom. rewrite Hget, Hmax.
    destruct (Nat.leb_spec 6 (List.length (Room.players room))) as [H | H]; [ lia | ].
    destruct (find _ (Room.players room)) as [p | ] eqn:Hfind; [ | reflexivity ].
    exfalso. apply find_some in Hfind. destruct Hfind as [Hin Heq].
    apply String.eqb_eq in Heq. apply Hnew. rewrite <- Heq.
    unfold memberIds. apply in_map. exact Hin. }
  rewrite Hjoin. simpl.
  split; [ reflexivity | ].
  split; [ apply map_get_set_same | ].
  split; [ reflexivity | ].
  split.
  - destruct (find _ _) as [c | ] eqn:Hfind; [ | reflexivity ].
    exfalso. apply find_some in Hfind. destruct Hfind as [Hin Heq].
    apply String.eqb_eq in Heq. apply Hnocar. rewrite <- Heq. apply in_map. exact Hin.
  - intros evs keys bottleId Hevs.
    apply playerInput_noCar. apply run_noCarOf; [ | | exact Hevs ].
    + pose proof (joinRoom_ok socket roomId playerName s Hok) as H.
      rewrite Hjoin in H. exact H.
    + unfold noCarOf. simpl.
      apply Forall_map_set_entry.
      * apply Forall_forall. intros [r rm] Hin Hr. simpl in *. subst r.
        pose proof (reachable_keys s Hreach) as [Hkr _].
        rewrite (In_map_get _ _ _ Hkr Hin) in Hget. injection Hget as ->.
        exact Hnocar.
      * simpl. intros _. exact Hnocar.
Qed.

(** ** Inputs *)

(** C3 (amended): a playerInput never sends anything.  It leaves the server
    state as it is when the room is unknown, when the session is not started,
    and when the sender has no car in the session or an eliminated one.  The
    ended flag is not looked at: a finished session is still started, and its
    inputs are handled as during the race.  When fire is pressed with no
    ammunition, no projectile is spawned and no ammunition is spent, but the
    input is still handed to the physics update of the sender's car: the
    session changes only in that car, which becomes
    [updateCarPhysics car keys]. *)
Theorem playerInput_ignored_or_physics
    (s : Server) (socket : SocketId) (roomId : RoomId) (keys : Keys.t)
    (bottleId : string) :
  let result := playerInput socket roomId keys bottleId s in
  snd result = []
  /\ (map_get (rooms s) roomId = None -> result = (s, []))
  /\ (forall room,
        map_get (rooms s) roomId = Some room ->
        let cars := GameState.players (Room.gameState room) in
        let mine := fun p => String.eqb (Car.playerId p) socket in
        (GameState.gameStarted (Room.gameState room) = false -> result = (s, []))
        /\ (find mine cars = None -> result = (s, []))
        /\ (forall car,
              find mine cars = Some car -> Car.isEliminated car = true ->
              result = (s, []))
        /\ (forall car,
              GameState.gameStarted (Room.gameState room) = true ->
              find mine cars = Some car -> Car.isEliminated car = false ->
              Keys.space keys = true -> Car.bottles car = 0%Z ->
              Car.bottles (updateCarPhysics car keys) = 0%Z
              /\ fst result
                 = set_rooms s
                     (map_set (rooms s) roomId
                        (Room.set_gameState room
                           (GameState.set_players (Room.gameState room)
                              (updateFirst mine (updateCarPhysics car keys) cars)))))).
Proof.
  cbv zeta.
  split; [ | split; [ | intros room Hget; split; [ | split; [ | split ] ] ] ].
  - unfold playerInput.
    destruct (map_get (rooms s) roomId) as [room | ]; [ | reflexivity ].
    destruct (negb _); [ reflexivity | ].
    destruct (find _ _) as [car | ]; [ | reflexivity ].
    destruct (Car.isEliminated car); [ reflexivity | ].
    destruct (Keys.space keys && _); reflexivity.
  - intros Hget. unfold playerInput. rewrite Hget. reflexivity.
  - intros Hst. unfold playerInput. rewrite Hget, Hst. reflexivity.
  - intros Hfind. unfold playerInput. rewrite Hget.
    destruct (negb _); [ reflexivity | ]. rewrite Hfind. reflexivity.
  - intros car Hfind He. unfold playerInput. rewrite Hget.
    destruct (negb _); [ reflexivity | ]. rewrite Hfind, He. reflexivity.
  - intros car Hst Hfind He Hsp Hb. split.
    + destruct (updateCarPhysics_fields car keys)
        as (_ & _ & _ & _ & _ & _ & -> & _). exact Hb.
    + unfold playerInput. rewrite Hget, Hst, Hfind, He, Hsp, Hb. reflexivity.
Qed.

(** ** Health and speed on reachable states *)

(** C1 (amended): in every reachable state every car has maxHealth 100 and
    health at most maxHealth; a car that is not eliminated has positive health;
    an eliminated car has health in (-20, 0]: the hit that eliminates it
    leaves the difference, which is not clamped to 0. *)
Theorem health_range (s : Server) :
  reachable s ->
  forall roomId room car,
    In (roomId, room) (rooms s) ->
    In car (GameState.players (Room.gameState room)) ->
    Car.maxHealth car = 100%Z
    /\ (Car.health car <= Car.maxHealth car)%Z
    /\ (Car.isEliminated car = false -> (0 < Car.health car)%Z)
    /\ (Car.isEliminated car = true -> (-20 < Car.health car <= 0)%Z).
Proof.
  intros Hreach roomId room car Hin Hcar.
  pose proof (reachable_ok s Hreach) as Hok.
  unfold server_ok in Hok. rewrite Forall_forall in Hok.
  destruct (Hok _ Hin) as (_ & _ & _ & Hcars & _). simpl in Hcars.
  rewrite Forall_forall in Hcars.
  destruct (Hcars _ Hcar) as (Hm & Hh & Hl & Hp & Hq & _).
  repeat split; auto.
Qed.

Lemma find_updateFirst {A : Type} (f : A -> bool) (a b : A) (l : list A) :
  find f l = Some a -> f b = true -> find f (updateFirst f b l) = Some b.
Proof.
  intros Hfind Hb. induction l as [ | h rest IH]; simpl in *; [ discriminate | ].
  destruct (f h) eqn:Hh; simpl.
  - rewrite Hb. reflexivity.
  - rewrite Hh. apply IH. exact Hfind.
Qed.

(** ** The speed cap under rounding *)

(** The program computes in binary64, where the result of every operation
    is rounded, with a relative error of at most 2^-53 (below 10^-15) as long
    as nothing overflows or underflows.  Under that error model the rescaled
    velocity can be longer than the cap, but by a factor of at most
    1 + 10^-12. *)
Section RoundedCap.
Variable rnd : R -> R.
Variable u : R.
Hypothesis u_small : 0 <= u <= 1 / 1000000000000000.
Hypothesis rnd_error : forall x, Rabs (rnd x - x) <= u * Rabs x.

Lemma rnd_nonneg (x : R) : 0 <= x -> (1 - u) * x <= rnd x <= (1 + u) * x.
Proof.
  intros Hx. pose proof (rnd_error x) as H.
  rewrite (Rabs_pos_eq x) in H by exact Hx.
  unfold Rabs in H. destruct (Rcase_abs (rnd x - x)); lra.
Qed.

Lemma rnd_abs (x : R) : Rabs (rnd x) <= (1 + u) * Rabs x.
Proof.
  pose proof (rnd_error x) as H.
  pose proof (Rabs_triang (rnd x - x) x) as Ht.
  replace (rnd x - x + x) with (rnd x) in Ht by lra. lra.
Qed.

Lemma magnitude_rounded_below (vx vy : R) :
  (1 - u) ^ 2 * sqrt (vx ^ 2 + vy ^ 2)
  <= rnd (sqrt (rnd (rnd (vx ^ 2) + rnd (vy ^ 2)))).
Proof.
  assert (Hu : 0 <= 1 - u) by lra.
  assert (Hx : 0 <= vx ^ 2) by (apply pow2_ge_0).
  assert (Hy : 0 <= vy ^ 2) by (apply pow2_ge_0).
  destruct (rnd_nonneg _ Hx) as [Ha _]. destruct (rnd_nonneg _ Hy) as [Hb _].
  assert (Hab : 0 <= rnd (vx ^ 2) + rnd (vy ^ 2)) by nra.
  destruct (rnd_nonneg _ Hab) as [Hc _].
  assert (Hc0 : (1 - u) ^ 2 * (vx ^ 2 + vy ^ 2)
                <= rnd (rnd (vx ^ 2) + rnd (vy ^ 2))) by nra.
  assert (Hsq : (1 - u) * sqrt (vx ^ 2 + vy ^ 2)
                <= sqrt (rnd (rnd (vx ^ 2) + rnd (vy ^ 2)))).
  { replace ((1 - u) * sqrt (vx ^ 2 + vy ^ 2))
      with (sqrt ((1 - u) ^ 2 * (vx ^ 2 + vy ^ 2))).
    - apply sqrt_le_1_alt. exact Hc0.
    - rewrite sqrt_mult_alt by (apply pow2_ge_0).
      replace ((1 - u) ^ 2) with (Rsqr (1 - u)) by (unfold Rsqr; ring).
      rewrite sqrt_Rsqr by exact Hu. reflexivity. }
  pose proof (sqrt_pos (rnd (rnd (vx ^ 2) + rnd (vy ^ 2)))) as Hpos.
  destruct (rnd_nonneg _ Hpos) as [Hs _].
  pose proof (sqrt_pos (vx ^ 2 + vy ^ 2)). nra.
Qed.

Lemma capSpeedRounded_bound (car : Car.t) :
  0 <= Car.maxSpeed car ->
  magnitude (Car.velocity (capSpeedRounded rnd car))
  <= 1.000000000001 * Car.maxSpeed car.
Proof.
  intros Hm. unfold capSpeedRounded, magnitude.
  set (vx := Vec.x (Car.velocity car)). set (vy := Vec.y (Car.velocity car)).
  set (m := Car.maxSpeed car) in *.
  set (n := sqrt (vx ^ 2 + vy ^ 2)).
  set (s := rnd (sqrt (rnd (rnd (vx ^ 2) + rnd (vy ^ 2))))).
  pose proof (magnitude_rounded_below vx vy) as Hs. fold n s in Hs.
  assert (Hn : 0 <= n) by apply sqrt_pos.
  assert (Hu2 : 1 <= 1.000000000001 * (1 - u) ^ 2) by nra.
  destruct (Rltb_spec m s) as [Hgt | Hle]; unfold Rgtb.
  - (* rescaled *)
    rewrite (Rltb_true _ _ Hgt). cbn [Car.velocity Car.set_velocity Vec.x Vec.y].
    assert (Hs0 : 0 < s) by lra.
    set (k := (1 + u) ^ 2 * (m / s)).
    assert (Hk : 0 <= k).
    { unfold k. apply Rmult_le_pos; [ apply pow2_ge_0 | ].
      apply Rmult_le_pos; [ exact Hm | left; apply Rinv_0_lt_compat; exact Hs0 ]. }
    assert (Hcomp : forall v, Rabs (rnd (rnd (v / s) * m)) <= k * Rabs v).
    { intros v. pose proof (rnd_abs (rnd (v / s) * m)) as H1.
      pose proof (rnd_abs (v / s)) as H2.
      rewrite Rabs_mult, (Rabs_pos_eq m) in H1 by exact Hm.
      unfold Rdiv in H2. rewrite Rabs_mult, (Rabs_pos_eq (/ s)) in H2
        by (left; apply Rinv_0_lt_compat; exact Hs0).
      unfold k, Rdiv.
      assert (Hi : 0 < / s) by (apply Rinv_0_lt_compat; exact Hs0).
      pose proof (Rabs_pos v). pose proof (Rabs_pos (rnd (v * / s))).
      assert (H3 : Rabs (rnd (v * / s)) * m <= (1 + u) * (Rabs v * / s) * m)
        by (apply Rmult_le_compat_r; [ exact Hm | exact H2 ]).
      unfold Rdiv in H1. nra. }
    assert (Hsq : forall v, rnd (rnd (v / s) * m) ^ 2 <= k ^ 2 * v ^ 2).
    { intros v. specialize (Hcomp v).
      rewrite <- (pow2_abs (rnd (rnd (v / s) * m))), <- (pow2_abs v).
      pose proof (Rabs_pos (rnd (rnd (v / s) * m))). pose proof (Rabs_pos v).
      nra. }
    apply Rle_trans with (k * n).
    + replace (k * n) with (sqrt (k ^ 2 * (vx ^ 2 + vy ^ 2))).
      * apply sqrt_le_1_alt. pose proof (Hsq vx). pose proof (Hsq vy). lra.
      * rewrite sqrt_mult_alt by (apply pow2_ge_0).
        replace (k ^ 2) with (Rsqr k) by (unfold Rsqr; ring).
        rewrite sqrt_Rsqr by exact Hk. reflexivity.
    + unfold k.
      assert (Hns : n / s <= / (1 - u) ^ 2).
      { assert (Hp : 0 < (1 - u) ^ 2) by nra.
        apply Rmult_le_reg_r with (s * (1 - u) ^ 2); [ nra | ].
        field_simplify; [ | lra | lra ]. nra. }
      assert (Hinv : (1 + u) ^ 2 * / (1 - u) ^ 2 <= 1.000000000001).
      { assert (Hp : 0 < (1 - u) ^ 2) by nra.
        apply Rmult_le_reg_r with ((1 - u) ^ 2); [ exact Hp | ].
        rewrite Rmult_assoc, Rinv_l by lra. nra. }
      replace ((1 + u) ^ 2 * (m / s) * n) with (m * ((1 + u) ^ 2 * (n / s)))
        by (field; lra).
      rewrite (Rmult_comm 1.000000000001 m).
      apply Rmult_le_compat_l; [ exact Hm | ].
      apply Rle_trans with ((1 + u) ^ 2 * / (1 - u) ^ 2); [ | exact Hinv ].
      apply Rmult_le_compat_l; [ apply pow2_ge_0 | exact Hns ].
  - (* not rescaled: the computed speed is within the cap *)
    rewrite (Rltb_false _ _ Hle). fold vx vy n. nra.
Qed.
End RoundedCap.

(** C4 (amended): the speed cap is enforced by the physics update.  In a
    reachable state, after a playerInput that is accepted (session started,
    sender's car present and not eliminated), the sender's car has a velocity
    of magnitude at most its maxSpeed up to rounding, that is at most
    (1 + 10^-12) times its maxSpeed, and maxSpeed lies in [8,12].  The margin
    is what keeps the statement true of the program, which rescales in
    binary64 (see [capSpeedRounded_bound]); in exact arithmetic the rescaled
    velocity has magnitude maxSpeed.  (Knockback and the expiry of a speed
    boost do not clamp.) *)
Theorem speed_capped_after_input
    (s : Server) (socket : SocketId) (roomId : RoomId) (keys : Keys.t)
    (bottleId : string) (room : Room.t) (car : Car.t) :
  reachable s ->
  map_get (rooms s) roomId = Some room ->
  GameState.gameStarted (Room.gameState room) = true ->
  find (fun p => String.eqb (Car.playerId p) socket)
       (GameState.players (Room.gameState room)) = Some car ->
  Car.isEliminated car = false ->
  exists room' car',
    map_get (rooms (step s (PlayerInput socket roomId keys bottleId))) roomId = Some room'
    /\ find (fun p => String.eqb (Car.playerId p) socket)
            (GameState.players (Room.gameState room')) = Some car'
    /\ magnitude (Car.velocity car') <= 1.000000000001 * Car.maxSpeed car'
    /\ 8 <= Car.maxSpeed car' <= 12.
Proof.
  intros Hreach Hget Hst Hfind He.
  pose proof (reachable_ok s Hreach) as Hok.
  pose proof (Forall_map_get _ room_ok _ _ Hok Hget) as (_ & _ & _ & Hcars & _).
  pose proof Hfind as Hin. apply find_some in Hin. destruct Hin as [Hin Hmine].
  rewrite Forall_forall in Hcars.
  destruct (Hcars _ Hin) as (_ & _ & _ & _ & _ & Hs).
  unfold step. simpl. unfold playerInput. rewrite Hget, Hst, Hfind, He. simpl.
  destruct (Keys.space keys && (0 <? Car.bottles car)%Z); simpl;
    eexists; eexists;
    (split; [ apply map_get_set_same | ]); simpl;
    (split; [ eapply find_updateFirst; [ exact Hfind | ] | ]).
  - destruct (updateCarPhysics_fields (Car.set_bottles car (Car.bottles car - 1)) keys)
      as (-> & _). simpl. exact Hmine.
  - destruct (updateCarPhysics_speed (Car.set_bottles car (Car.bottles car - 1)) keys)
      as [H1 H2]; [ simpl; lra | ].
    rewrite H2 in H1 |- *. cbn [Car.maxSpeed Car.set_bottles] in H1 |- *.
    split; [ lra | exact Hs ].
  - destruct (updateCarPhysics_fields car keys) as (-> & _). exact Hmine.
  - destruct (updateCarPhysics_speed car keys) as [H1 H2]; [ lra | ].
    rewrite H2 in H1 |- *. split; [ lra | exact Hs ].
Qed.

(** ** The ended flag *)

Lemma map_get_map {V : Type} (f : V -> V) (m : list (string * V)) (k : string) :
  map_get (map (fun entry => (fst entry, f (snd entry))) m) k
  = option_map f (map_get m k).
Proof.
  induction m as [ | [k0 v0] rest IH]; simpl; [ reflexivity | ].
  destruct (String.eqb k0 k); [ reflexivity | exact IH ].
Qed.

Lemma map_get_set (m : list (RoomId * Room.t)) (k k' : RoomId) (v : Room.t) :
  map_get (map_set m k v) k' = if String.eqb k k' then Some v else map_get m k'.
Proof.
  destruct (String.eqb_spec k k') as [-> | Hne].
  - apply map_get_set_same.
  - apply map_get_set_other. congruence.
Qed.

(** C2 (amended): once the session of a room is ended it stays ended under
    every event but two: a startGame request for that room by its host with
    at least two members, which starts the same session again (started, not
    ended, tick count 0, winner and projectiles kept), and a createRoom that
    registers a new room under the same identifier.  When the room is gone
    after the event, the event was the disconnect of its last member. *)
Theorem ended_until_started_again
    (s : Server) (ev : Event) (roomId : RoomId) (room : Room.t) :
  reachable s ->
  map_get (rooms s) roomId = Some room ->
  GameState.gameEnded (Room.gameState room) = true ->
  match map_get (rooms (step s ev)) roomId with
  | None => exists socket, ev = Disconnect socket
  | Some room' =>
      GameState.gameEnded (Room.gameState room') = true
      \/ (exists e,
            ev = StartGame (Room.host room) roomId e
            /\ (2 <= List.length (Room.players room))%nat
            /\ GameState.gameStarted (Room.gameState room') = true
            /\ GameState.gameEnded (Room.gameState room') = false
            /\ GameState.raceTime (Room.gameState room') = 0%Z
            /\ GameState.winner (Room.gameState room')
               = GameState.winner (Room.gameState room)
            /\ GameState.bottles (Room.gameState room')
               = GameState.bottles (Room.gameState room))
      \/ (exists socket roomName playerName,
            ev = CreateRoom socket roomName playerName roomId
            /\ Room.gameState room' = createInitialGameState roomId)
  end.
Proof.
  intros Hreach Hget Hended.
  pose proof (reachable_keys s Hreach) as [Hkr Hkl].
  unfold step.
  destruct ev as [sk roomName playerName r | sk r playerName
                 | sk r e | sk r keys bottleId | sk | h e | k]; simpl.
  - rewrite map_get_set. destruct (String.eqb_spec r roomId) as [-> | Hne].
    + right. right. exists sk, roomName, playerName. split; reflexivity.
    + simpl; rewrite Hget; left; exact Hended.
  - unfold joinRoom. destruct (map_get (rooms s) r) as [room0 | ] eqn:Hget0;
      [ | simpl; rewrite Hget; left; exact Hended ].
    destruct (_ <=? _)%nat; [ simpl; rewrite Hget; left; exact Hended | ].
    destruct (find _ _); [ simpl; rewrite Hget; left; exact Hended | ].
    simpl. rewrite map_get_set. destruct (String.eqb_spec r roomId) as [-> | Hne].
    + left. simpl. congruence.
    + simpl; rewrite Hget; left; exact Hended.
  - unfold startGame. destruct (map_get (rooms s) r) as [room0 | ] eqn:Hget0;
      [ | simpl; rewrite Hget; left; exact Hended ].
    destruct (negb (String.eqb (Room.host room0) sk)) eqn:Hhost; simpl;
      [ simpl; rewrite Hget; left; exact Hended | ].
    destruct (Nat.ltb_spec (List.length (Room.players room0)) 2) as [Hlt | Hge];
      [ simpl; rewrite Hget; left; exact Hended | ].
    simpl. rewrite map_get_set. destruct (String.eqb_spec r roomId) as [-> | Hne].
    + right. left. rewrite Hget in Hget0. injection Hget0 as <-.
      apply negb_false_iff, String.eqb_eq in Hhost. subst sk.
      exists e. simpl. repeat split; auto.
    + simpl; rewrite Hget; left; exact Hended.
  - unfold playerInput. destruct (map_get (rooms s) r) as [room0 | ] eqn:Hget0;
      [ | simpl; rewrite Hget; left; exact Hended ].
    destruct (negb _); [ simpl; rewrite Hget; left; exact Hended | ].
    destruct (find _ _) as [car | ]; [ | simpl; rewrite Hget; left; exact Hended ].
    destruct (Car.isEliminated car); [ simpl; rewrite Hget; left; exact Hended | ].
    destruct (Keys.space keys && _); simpl; rewrite map_get_set;
      (destruct (String.eqb_spec r roomId) as [-> | Hne];
       [ left; simpl; congruence | simpl; rewrite Hget; left; exact Hended ]).
  - unfold disconnect.
    destruct (find _ (rooms s)) as [[r room0] | ] eqn:Hfind;
      [ | simpl; rewrite Hget; left; exact Hended ].
    apply find_some in Hfind. destruct Hfind as [Hin _].
    apply (In_map_get _ _ _ Hkr) in Hin.
    simpl. destruct (_ =? 0)%nat; simpl.
    + rewrite stopGameLoop_rooms.
      destruct (String.eqb_spec r roomId) as [-> | Hne].
      * rewrite map_get_delete_same by exact Hkr. exists sk. reflexivity.
      * rewrite map_get_delete_other by congruence. simpl; rewrite Hget; left; exact Hended.
    + rewrite map_get_set. destruct (String.eqb_spec r roomId) as [-> | Hne].
      * left. rewrite Hget in Hin. injection Hin as <-.
        destruct (String.eqb (Room.host room) sk && _);
          [ destruct (removeFirst _ (Room.players room)) | ]; simpl; exact Hended.
      * simpl; rewrite Hget; left; exact Hended.
  - unfold fireInterval.
    destruct (find _ (intervals s)) as [[h' r] | ];
      [ | simpl; rewrite Hget; left; exact Hended ].
    unfold updateGame. destruct (map_get (rooms s) r) as [room0 | ] eqn:Hget0;
      [ | simpl; rewrite Hget; left; exact Hended ].
    destruct (String.eqb_spec r roomId) as [-> | Hne].
    + rewrite Hget in Hget0. injection Hget0 as <-. rewrite Hended.
      rewrite orb_true_r. simpl; rewrite Hget; left; exact Hended.
    + destruct (negb _ || _); [ simpl; rewrite Hget; left; exact Hended | ].
      destruct (tick e (Room.gameState room0)) as [g ts].
      destruct (GameState.gameEnded g); simpl; [ rewrite stopGameLoop_rooms | ]; simpl;
        rewrite map_get_set_other by congruence; simpl; rewrite Hget; left; exact Hended.
  - unfold fireTimeout. destruct (nth_error (timeouts s) k) as [ref | ];
      [ | simpl; rewrite Hget; left; exact Hended ].
    simpl. rewrite map_get_map, Hget. simpl. left. exact Hended.
Qed.

(** ** Driving straight *)

Lemma sqrt_axis (a b : R) : 0 <= a -> b = 0 -> sqrt (a ^ 2 + b ^ 2) = a.
Proof.
  intros Ha ->. replace (a ^ 2 + 0 ^ 2) with (a * a) by ring.
  apply sqrt_square. exact Ha.
Qed.

(** A car that heads along the x axis (heading 0, no y velocity, moving
    forward) and gets no brake and no turn input: its x velocity becomes
    [(vx + 0.5) * 0.95] with the forward input and [vx * 0.95] without, and it
    advances by that much, when this stays within the speed cap and the
    margins of the track. *)
Lemma updateCarPhysics_straight (car : Car.t) (keys : Keys.t) :
  Keys.down keys = false -> Keys.left keys = false -> Keys.right keys = false ->
  Car.rotation car = 0 ->
  Vec.y (Car.velocity car) = 0 ->
  0 <= Vec.x (Car.velocity car) ->
  let v' := (Vec.x (Car.velocity car) + (if Keys.up keys then 0.5 else 0)) * 0.95 in
  v' <= Car.maxSpeed car ->
  20 <= Vec.x (Car.position car) + v' <= 780 ->
  20 <= Vec.y (Car.position car) <= 580 ->
  updateCarPhysics car keys
  = Car.set_position
      (Car.set_velocity car (Vec.mk v' 0))
      (Vec.mk (Vec.x (Car.position car) + v') (Vec.y (Car.position car))).
Proof.
  destruct car as [ref id pid pname [px py] [vx vy] rot h mh sp ms acc b lap lt tt el pu col].
  destruct keys as [up down left right space]. simpl.
  intros -> -> -> -> -> Hvx Hcap Hx Hy.
  rewrite updateCarPhysics_steps.
  set (v' := (vx + (if up then 0.5 else 0)) * 0.95) in *.
  assert (Hv' : 0 <= v') by (unfold v'; destruct up; lra).
  assert (Hupd : PhysicsSpec.update
            (Car.mk ref id pid pname (Vec.mk px py) (Vec.mk vx 0) 0 h mh sp ms acc b
                    lap lt tt el pu col)
            (Keys.mk up false false false space)
          = Car.mk ref id pid pname (Vec.mk (px + v') py) (Vec.mk v' 0) 0 h mh sp ms acc b
                   lap lt tt el pu col).
  { unfold PhysicsSpec.update.
    assert (H1 : PhysicsSpec.brake (Keys.mk up false false false space)
                   (PhysicsSpec.accelerate (Keys.mk up false false false space)
                      (Car.mk ref id pid pname (Vec.mk px py) (Vec.mk vx 0) 0 h mh sp ms
                              acc b lap lt tt el pu col))
                 = Car.mk ref id pid pname (Vec.mk px py)
                     (Vec.mk (vx + (if up then 0.5 else 0)) 0) 0 h mh sp ms acc b
                     lap lt tt el pu col).
    { unfold PhysicsSpec.brake, PhysicsSpec.accelerate, PhysicsSpec.add,
        PhysicsSpec.scale. simpl.
      destruct up; simpl; unfold Car.set_velocity; simpl;
        [ rewrite cos_0, sin_0 | ]; do 2 f_equal; lra. }
    rewrite H1. clear H1.
    assert (H2 : forall c, Car.rotation c = 0 ->
                   PhysicsSpec.turn (Keys.mk up false false false space) c = c).
    { intros c Hc. unfold PhysicsSpec.turn. simpl.
      destruct (Rgtb _ _); [ | reflexivity ].
      destruct c. simpl in *. subst. unfold Car.set_rotation. simpl.
      f_equal. lra. }
    rewrite H2 by reflexivity. clear H2.
    unfold PhysicsSpec.friction, PhysicsSpec.scale. simpl.
    unfold PhysicsSpec.capSpeed, magnitude. simpl.
    replace (0.95 * (vx + (if up then 0.5 else 0))) with v' by (unfold v'; ring).
    replace (0.95 * 0) with 0 by ring.
    change (v' * (v' * 1) + 0 * (0 * 1)) with (v' ^ 2 + 0 ^ 2).
    rewrite sqrt_axis by (auto; lra).
    rewrite (Rgtb_false v' ms) by lra.
    unfold PhysicsSpec.integrate, PhysicsSpec.add. simpl.
    unfold Car.set_position. simpl. do 2 f_equal. lra. }
  rewrite Hupd. rewrite keepInBounds_eq. simpl.
  unfold Car.set_position, Car.set_velocity. simpl.
  unfold clampAxis, bounceAxis.
  rewrite (Rltb_false (px + v') 20), (Rgtb_false (px + v') 780) by lra.
  rewrite (Rltb_false py 20), (Rgtb_false py 580) by lra.
  reflexivity.
Qed.

(** ** Stepping a session on given cars *)

Lemma checkCollision_near (p q : Vec.t) (r1 r2 : R) :
  0 <= r1 + r2 ->
  (Vec.x p - Vec.x q) * (Vec.x p - Vec.x q) + (Vec.y p - Vec.y q) * (Vec.y p - Vec.y q)
  < (r1 + r2) * (r1 + r2) ->
  checkCollision p q r1 r2 = true.
Proof.
  intros Hr H. unfold checkCollision. apply Rltb_true.
  rewrite <- (sqrt_square (r1 + r2)) by exact Hr.
  apply sqrt_lt_1_alt. split; [ | exact H ].
  pose proof (Rle_0_sqr (Vec.x p - Vec.x q)) as Hx.
  pose proof (Rle_0_sqr (Vec.y p - Vec.y q)) as Hy.
  unfold Rsqr in Hx, Hy. lra.
Qed.

Lemma checkCollision_far (p q : Vec.t) (r1 r2 : R) :
  0 <= r1 + r2 ->
  (r1 + r2) * (r1 + r2)
  <= (Vec.x p - Vec.x q) * (Vec.x p - Vec.x q) + (Vec.y p - Vec.y q) * (Vec.y p - Vec.y q) ->
  checkCollision p q r1 r2 = false.
Proof.
  intros Hr H. unfold checkCollision. apply Rltb_false.
  rewrite <- (sqrt_square (r1 + r2)) at 1 by exact Hr.
  apply Rle_not_lt. apply sqrt_le_1_alt. exact H.
Qed.

(** Two circles whose centres are at least the sum of the radii apart on one
    axis do not overlap. *)
Lemma checkCollision_apart (p q : Vec.t) (r1 r2 : R) :
  0 <= r1 + r2 ->
  r1 + r2 <= Vec.x p - Vec.x q \/ r1 + r2 <= Vec.x q - Vec.x p
  \/ r1 + r2 <= Vec.y p - Vec.y q \/ r1 + r2 <= Vec.y q - Vec.y p ->
  checkCollision p q r1 r2 = false.
Proof.
  intros Hr H. apply checkCollision_far; [ exact Hr | ].
  pose proof (Rle_0_sqr (Vec.x p - Vec.x q)) as Hx.
  pose proof (Rle_0_sqr (Vec.y p - Vec.y q)) as Hy.
  unfold Rsqr in Hx, Hy.
  destruct H as [H | [H | [H | H]]]; nra.
Qed.

(** Two circles in the same lane. *)
Lemma checkCollision_abreast (p q : Vec.t) (r1 r2 : R) :
  Vec.y p = Vec.y q ->
  - (r1 + r2) < Vec.x p - Vec.x q < r1 + r2 ->
  checkCollision p q r1 r2 = true.
Proof.
  intros Hy Hx. apply checkCollision_near; [ lra | ].
  rewrite Hy. nra.
Qed.

(** [Math.atan2(0, x)] for a positive [x]. *)
Lemma atan2_ahead (y x : R) : y = 0 -> 0 < x -> atan2 y x = 0.
Proof.
  intros -> Hx. unfold atan2. rewrite (Rltb_true 0 x) by exact Hx.
  unfold Rdiv. rewrite Rmult_0_l. exact atan_0.
Qed.

Lemma updateBottlePhysics_inside (bottle : Bottle.t) :
  let p := Vec.mk (Vec.x (Bottle.position bottle) + Vec.x (Bottle.velocity bottle))
                  (Vec.y (Bottle.position bottle) + Vec.y (Bottle.velocity bottle)) in
  0 <= Vec.x p <= 800 -> 0 <= Vec.y p <= 600 ->
  updateBottlePhysics bottle = Bottle.set_position bottle p.
Proof.
  cbv zeta. simpl. intros Hx Hy.
  unfold updateBottlePhysics, PHYSICS.TRACK_WIDTH, PHYSICS.TRACK_HEIGHT. simpl.
  rewrite (Rltb_false _ 0) by lra. rewrite (Rgtb_false _ 800) by lra.
  rewrite (Rltb_false _ 0) by lra. rewrite (Rgtb_false _ 600) by lra.
  reflexivity.
Qed.

Lemma stepBottles_nil (cars : list Car.t) : stepBottles [] cars = ([], cars).
Proof. reflexivity. Qed.

(** An active bottle that stays on the track and meets no car. *)
Lemma stepBottles_miss (bottle moved : Bottle.t) (bottles : list Bottle.t)
    (cars : list Car.t) :
  Bottle.active bottle = true ->
  updateBottlePhysics bottle = moved ->
  Bottle.active moved = true ->
  Forall (fun c => qualifies moved c = false) cars ->
  stepBottles (bottle :: bottles) cars
  = (moved :: fst (stepBottles bottles cars), snd (stepBottles bottles cars)).
Proof.
  intros Ha Hm Ham Hnone. simpl. rewrite Ha, Hm. simpl.
  rewrite (hitFirstCar_none _ _ Ham Hnone).
  destruct (stepBottles bottles cars) as [kept cars']. simpl. rewrite Ham. reflexivity.
Qed.

(** An active bottle that stays on the track and meets the first car. *)
Lemma stepBottles_hit_head (bottle moved : Bottle.t) (bottles : list Bottle.t)
    (car : Car.t) (cars : list Car.t) :
  Bottle.active bottle = true ->
  updateBottlePhysics bottle = moved ->
  Bottle.active moved = true ->
  qualifies moved car = true ->
  stepBottles (bottle :: bottles) (car :: cars)
  = stepBottles bottles (struck moved car :: cars).
Proof.
  intros Ha Hm Ham Hq.
  pose proof (hitFirstCar_first moved [] cars car Ham (Forall_nil _) Hq) as Hhit.
  simpl app in Hhit.
  cbn [stepBottles]. rewrite Ha, Hm.
  change (negb true) with false. cbv iota.
  rewrite Hhit. cbn [Bottle.active Bottle.set_active].
  destruct (stepBottles bottles (struck moved car :: cars)). reflexivity.
Qed.

Lemma collectFirstCar_none (powerUp : PowerUp.t) (cars : list Car.t) :
  Forall (fun c => Car.isEliminated c = true
                   \/ checkCollision (PowerUp.position powerUp) (Car.position c) 15 20
                      = false) cars ->
  collectFirstCar powerUp cars = (powerUp, cars, []).
Proof.
  intros Hall. induction Hall as [ | c rest Hc _ IH]; simpl; [ reflexivity | ].
  destruct (Car.isEliminated c) eqn:He; simpl.
  - rewrite IH. reflexivity.
  - destruct Hc as [Hc | Hc]; [ discriminate | ].
    unfold handlePowerUpCollection. rewrite Hc.
    destruct (PowerUp.collected powerUp); rewrite IH; reflexivity.
Qed.

Lemma stepPowerUps_nil (cars : list Car.t) : stepPowerUps [] cars = ([], cars, []).
Proof. reflexivity. Qed.

(** A power-up that is collected already, or that no car reaches. *)
Lemma stepPowerUps_keep (powerUp : PowerUp.t) (powerUps : list PowerUp.t)
    (cars : list Car.t) :
  PowerUp.collected powerUp = true
  \/ Forall (fun c => Car.isEliminated c = true
                      \/ checkCollision (PowerUp.position powerUp) (Car.position c) 15 20
                         = false) cars ->
  stepPowerUps (powerUp :: powerUps) cars
  = (powerUp :: fst (fst (stepPowerUps powerUps cars)),
     snd (fst (stepPowerUps powerUps cars)),
     snd (stepPowerUps powerUps cars)).
Proof.
  intros H. simpl.
  destruct (PowerUp.collected powerUp) eqn:Hc.
  - destruct (stepPowerUps powerUps cars) as [[ps cs] ts]. reflexivity.
  - destruct H as [H | H]; [ discriminate | ].
    rewrite (collectFirstCar_none _ _ H).
    destruct (stepPowerUps powerUps cars) as [[ps cs] ts]. reflexivity.
Qed.

(** An uncollected power-up that the first car reaches. *)
Lemma stepPowerUps_take_head (powerUp : PowerUp.t) (powerUps : list PowerUp.t)
    (car : Car.t) (cars : list Car.t) :
  PowerUp.collected powerUp = false ->
  Car.isEliminated car = false ->
  checkCollision (PowerUp.position powerUp) (Car.position car) 15 20 = true ->
  stepPowerUps (powerUp :: powerUps) (car :: cars)
  = (PowerUp.set_collected powerUp true
       :: fst (fst (stepPowerUps powerUps
                      (fst (applyPowerUp (PowerUp.set_collected powerUp true) car)
                         :: cars))),
     snd (fst (stepPowerUps powerUps
                 (fst (applyPowerUp (PowerUp.set_collected powerUp true) car) :: cars))),
     (snd (applyPowerUp (PowerUp.set_collected powerUp true) car)
      ++ snd (stepPowerUps powerUps
                (fst (applyPowerUp (PowerUp.set_collected powerUp true) car)
                   :: cars)))%list).
Proof.
  intros Hc He Hnear. cbn [stepPowerUps]. rewrite Hc.
  cbn [collectFirstCar]. rewrite He. change (negb false) with true. cbv iota.
  unfold handlePowerUpCollection. rewrite Hc, Hnear.
  destruct (applyPowerUp (PowerUp.set_collected powerUp true) car) as [car' ts].
  simpl.
  destruct (stepPowerUps powerUps (car' :: cars)) as [[ps cs] ts']. reflexivity.
Qed.

(** Lap tracking when no car is in the start zone. *)
Lemma trackLaps_outside (raceTime maxLaps : Z) (cars : list Car.t)
    (ended : bool) (winner : option SocketId) :
  Forall (fun c => 50 <= Vec.x (Car.position c)) cars ->
  trackLaps raceTime maxLaps cars ended winner
  = (map (fun c => if Car.isEliminated c then c else Car.set_totalTime c raceTime) cars,
     ended, winner).
Proof.
  intros Hall. induction Hall as [ | c rest Hc _ IH]; [ reflexivity | ].
  assert (Hstep : lapStep raceTime maxLaps c ended winner
                  = (if Car.isEliminated c then c else Car.set_totalTime c raceTime,
                     ended, winner)).
  { unfold lapStep. destruct (Car.isEliminated c); [ reflexivity | ]. simpl.
    rewrite (Rltb_false _ 50) by lra. reflexivity. }
  cbn [trackLaps map]. rewrite Hstep, IH. reflexivity.
Qed.

Lemma run_cons (ev : Event) (evs : list Event) (s : Server) :
  run (ev :: evs) s = run evs (step s ev).
Proof. reflexivity. Qed.

Lemma run_nil (s : Server) : run [] s = s.
Proof. reflexivity. Qed.

Lemma run_app (evs evs' : list Event) (s : Server) :
  run (evs ++ evs') s = run evs' (run evs s).
Proof. unfold run. apply fold_left_app. Qed.

(** ** Running scenarios *)

Lemma tick_unfold (e : Entropy) (g : GameState.t) :
  tick e g
  = (respawn e
       (lastStanding
          (GameState.mk (GameState.id g)
             (fst (fst (trackLaps (GameState.raceTime g + 1) (GameState.maxLaps g)
                (snd (fst (stepPowerUps (GameState.powerUps g)
                   (snd (stepBottles (GameState.bottles g) (GameState.players g))))))
                (GameState.gameEnded g) (GameState.winner g))))
             (fst (stepBottles (GameState.bottles g) (GameState.players g)))
             (fst (fst (stepPowerUps (GameState.powerUps g)
                (snd (stepBottles (GameState.bottles g) (GameState.players g))))))
             (GameState.gameStarted g)
             (snd (fst (trackLaps (GameState.raceTime g + 1) (GameState.maxLaps g)
                (snd (fst (stepPowerUps (GameState.powerUps g)
                   (snd (stepBottles (GameState.bottles g) (GameState.players g))))))
                (GameState.gameEnded g) (GameState.winner g))))
             (snd (trackLaps (GameState.raceTime g + 1) (GameState.maxLaps g)
                (snd (fst (stepPowerUps (GameState.powerUps g)
                   (snd (stepBottles (GameState.bottles g) (GameState.players g))))))
                (GameState.gameEnded g) (GameState.winner g)))
             (GameState.raceTime g + 1) (GameState.maxLaps g))),
     snd (stepPowerUps (GameState.powerUps g)
            (snd (stepBottles (GameState.bottles g) (GameState.players g))))).
Proof. exact (tick_eq e g). Qed.

Lemma qualifies_eliminated (bottle : Bottle.t) (car : Car.t) :
  Car.isEliminated car = true -> qualifies bottle car = false.
Proof. intros H. unfold qualifies. rewrite H. reflexivity. Qed.

Lemma qualifies_owner (bottle : Bottle.t) (car : Car.t) :
  String.eqb (Bottle.playerId bottle) (Car.playerId car) = true ->
  qualifies bottle car = false.
Proof.
  intros H. unfold qualifies. rewrite H.
  destruct (Car.isEliminated car); reflexivity.
Qed.

Lemma qualifies_far (bottle : Bottle.t) (car : Car.t) :
  checkCollision (Bottle.position bottle) (Car.position car) 5 20 = false ->
  qualifies bottle car = false.
Proof. intros H. unfold qualifies. rewrite H. apply andb_false_r. Qed.

Lemma qualifies_near (bottle : Bottle.t) (car : Car.t) :
  Car.isEliminated car = false ->
  String.eqb (Bottle.playerId bottle) (Car.playerId car) = false ->
  checkCollision (Bottle.position bottle) (Car.position car) 5 20 = true ->
  qualifies bottle car = true.
Proof. intros H1 H2 H3. unfold qualifies. rewrite H1, H2, H3. reflexivity. Qed.

Lemma stepBottles_fly (bottle : Bottle.t) (bottles : list Bottle.t) (cars : list Car.t) :
  Bottle.active bottle = true ->
  0 <= Vec.x (Bottle.position bottle) + Vec.x (Bottle.velocity bottle) <= 800 ->
  0 <= Vec.y (Bottle.position bottle) + Vec.y (Bottle.velocity bottle) <= 600 ->
  Forall (fun c =>
            qualifies
              (Bottle.set_position bottle
                 (Vec.mk (Vec.x (Bottle.position bottle) + Vec.x (Bottle.velocity bottle))
                         (Vec.y (Bottle.position bottle) + Vec.y (Bottle.velocity bottle))))
              c = false) cars ->
  stepBottles (bottle :: bottles) cars
  = (Bottle.set_position bottle
       (Vec.mk (Vec.x (Bottle.position bottle) + Vec.x (Bottle.velocity bottle))
               (Vec.y (Bottle.position bottle) + Vec.y (Bottle.velocity bottle)))
       :: fst (stepBottles bottles cars),
     snd (stepBottles bottles cars)).
Proof.
  intros Ha Hx Hy Hnone.
  apply stepBottles_miss; [ exact Ha | | exact Ha | exact Hnone ].
  apply updateBottlePhysics_inside; assumption.
Qed.

Lemma stepBottles_strike (bottle : Bottle.t) (bottles : list Bottle.t)
    (car : Car.t) (cars : list Car.t) :
  Bottle.active bottle = true ->
  0 <= Vec.x (Bottle.position bottle) + Vec.x (Bottle.velocity bottle) <= 800 ->
  0 <= Vec.y (Bottle.position bottle) + Vec.y (Bottle.velocity bottle) <= 600 ->
  qualifies
    (Bottle.set_position bottle
       (Vec.mk (Vec.x (Bottle.position bottle) + Vec.x (Bottle.velocity bottle))
               (Vec.y (Bottle.position bottle) + Vec.y (Bottle.velocity bottle))))
    car = true ->
  stepBottles (bottle :: bottles) (car :: cars)
  = stepBottles bottles
      (struck
         (Bottle.set_position bottle
            (Vec.mk (Vec.x (Bottle.position bottle) + Vec.x (Bottle.velocity bottle))
                    (Vec.y (Bottle.position bottle) + Vec.y (Bottle.velocity bottle))))
         car :: cars).
Proof.
  intros Ha Hx Hy Hq.
  apply stepBottles_hit_head; [ exact Ha | | exact Ha | exact Hq ].
  apply updateBottlePhysics_inside; assumption.
Qed.

(** Evaluation of the model, leaving real arithmetic and the functions that
    decide on real numbers as they are. *)
Ltac cbv_model :=
  cbv -[Rplus Rminus Rmult Rdiv Ropp Rinv IZR sqrt cos sin atan PI Rabs Rmin INR
        Rltb Rgtb Z.pow_pos updateCarPhysics keepInBounds tick stepBottles
        stepPowerUps trackLaps checkCollision atan2 magnitude run step].

Ltac model_nf t :=
  eval cbv -[Rplus Rminus Rmult Rdiv Ropp Rinv IZR sqrt cos sin atan PI Rabs Rmin INR
             Rltb Rgtb Z.pow_pos updateCarPhysics keepInBounds tick stepBottles
             stepPowerUps trackLaps checkCollision atan2 magnitude run step] in t.

Ltac forall_cars tac :=
  lazymatch goal with
  | |- Forall _ [] => constructor
  | |- Forall _ (_ :: _) => constructor; [ cbv beta; tac | forall_cars tac ]
  end.

Ltac solve_far :=
  first [ apply checkCollision_apart; cbv_model;
          [ lra | first [ left; lra | right; left; lra
                        | right; right; left; lra | right; right; right; lra ] ]
        | apply checkCollision_far; cbv_model; lra ].

Ltac solve_near :=
  first [ apply checkCollision_abreast; cbv_model; lra
        | apply checkCollision_near; cbv_model; lra ].

Ltac solve_not_qualifies :=
  first [ apply qualifies_eliminated; reflexivity
        | apply qualifies_owner; reflexivity
        | apply qualifies_far; solve_far ].

Ltac solve_unreached :=
  first [ left; reflexivity
        | right; forall_cars ltac:(first [ left; reflexivity | right; solve_far ]) ].

Ltac solve_flight :=
  lazymatch goal with
  | |- _ = true => first [ reflexivity
                         | apply qualifies_near; [ reflexivity | reflexivity | solve_near ]
                         | solve_near ]
  | |- _ = false => reflexivity
  | |- Forall _ _ => forall_cars solve_not_qualifies
  | |- _ => cbv_model; lra
  end.

(** The three passes of a tick, on explicit lists. *)
Ltac bottles_pass :=
  repeat (first [ rewrite stepBottles_strike by solve_flight
                | rewrite stepBottles_fly by solve_flight ];
          cbv_model);
  rewrite ?stepBottles_nil; cbv_model.

Ltac powerUps_pass :=
  repeat (first [ rewrite stepPowerUps_keep by solve_unreached
                | rewrite stepPowerUps_take_head by solve_flight ];
          cbv_model);
  rewrite ?stepPowerUps_nil; cbv_model.

Ltac laps_pass :=
  rewrite trackLaps_outside by (forall_cars ltac:(cbv_model; lra)); cbv_model.

(** A tick whose cars are all outside the start zone: the three passes are
    evaluated one after the other, then the rest of [updateGame]. *)
Ltac eval_tick :=
  cbv_model;
  lazymatch goal with
  | |- context [tick ?e ?G] =>
      let bs := model_nf (GameState.bottles G) in
      let cars := model_nf (GameState.players G) in
      let pus := model_nf (GameState.powerUps G) in
      let r := model_nf (GameState.raceTime G) in
      let rt := constr:((r + 1)%Z) in
      let ml := model_nf (GameState.maxLaps G) in
      let en := model_nf (GameState.gameEnded G) in
      let w := model_nf (GameState.winner G) in
      let Hsb := fresh "Hsb" in
      let Hsp := fresh "Hsp" in
      let Htl := fresh "Htl" in
      eassert (Hsb : stepBottles bs cars = _);
      [ bottles_pass; reflexivity | ];
      lazymatch type of Hsb with
      | _ = (_, ?cars1) =>
          eassert (Hsp : stepPowerUps pus cars1 = _);
          [ powerUps_pass; reflexivity | ];
          lazymatch type of Hsp with
          | _ = (_, ?cars2, _) =>
              eassert (Htl : trackLaps rt ml cars2 en w = _);
              [ laps_pass; reflexivity | ];
              rewrite tick_unfold;
              cbv [GameState.id GameState.players GameState.bottles GameState.powerUps
                   GameState.gameStarted GameState.gameEnded GameState.winner
                   GameState.raceTime GameState.maxLaps];
              rewrite Hsb; cbv [fst snd];
              rewrite Hsp; cbv [fst snd];
              rewrite Htl; clear Hsb Hsp Htl;
              cbv_model
          end
      end
  end.

(** One event of a scenario: [run (ev :: evs) s] becomes [run evs s'] with
    [s'] the state that [tac] evaluates [handle ev s] to. *)
Ltac run_event tac :=
  rewrite run_cons;
  lazymatch goal with
  | |- context [run _ (step ?S ?ev)] =>
      let H := fresh "Hstep" in
      eassert (H : step S ev = _);
      [ unfold step, handle; tac; reflexivity
      | rewrite H; clear H ]
  end.

(** A playerInput of a car that heads along the x axis. *)
Ltac eval_input :=
  cbv_model;
  rewrite ?cos_0, ?sin_0;
  rewrite updateCarPhysics_straight by (cbv_model; first [ reflexivity | lra ]);
  cbv_model.

(** Two states that differ in the writing of real-valued fields only. *)
Ltac real_field :=
  lazymatch goal with
  | |- _ = ?e => first [ is_evar e; reflexivity
                       | rewrite ?atan2_ahead by lra; rewrite ?cos_0, ?sin_0; lra ]
  end.

Ltac eq_fields :=
  lazymatch goal with
  | |- @eq R _ _ => real_field
  | |- _ => first [ reflexivity | f_equal; eq_fields ]
  end.

Lemma stepPowerUps_no_cars (powerUps : list PowerUp.t) :
  stepPowerUps powerUps [] = (powerUps, [], []).
Proof.
  induction powerUps as [ | p ps IH]; [ reflexivity | ].
  cbn [stepPowerUps collectFirstCar]. rewrite IH.
  destruct (PowerUp.collected p); reflexivity.
Qed.

Lemma raceWonByAlice_result :
  run raceWonByAlice initialServer
  = mkServer
      [("r", Room.mk "r" "Track1" [Player.mk "A" "Alice"] 6 "A"
               (GameState.mk "r"
                  [Car.set_totalTime (createCar 0 (letters 0) "A" "Alice" 0) 1]
                  [] (generatePowerUps (skip 2 centred))
                  true true (Some "A") 1 3))]%string
      [] [] [] 1 2.
Proof.
  unfold raceWonByAlice.
  do 4 run_event cbv_model.
  run_event eval_tick.
  rewrite run_nil. reflexivity.
Qed.

Lemma raceStartedAgain_result :
  run raceStartedAgain initialServer
  = mkServer
      [("r", Room.mk "r" "Track1" [Player.mk "A" "Alice"; Player.mk "C" "Carol"] 6 "A"
               (GameState.mk "r"
                  [createCar 2 (letters 0) "A" "Alice" 0;
                   createCar 3 (letters 1) "C" "Carol" 1]
                  [] (generatePowerUps (skip 2 centred))
                  true false (Some "A") 0 3))]%string
      [("r"%string, 1%nat)] [(1%nat, "r"%string)] [] 2 4.
Proof.
  unfold raceStartedAgain. rewrite run_app, raceWonByAlice_result.
  do 2 run_event cbv_model.
  rewrite run_nil. reflexivity.
Qed.

(** C2 (counterexample): the race of room "r" is finished, with Alice as
    winner, after [raceWonByAlice]; two events later, Carol having joined and
    Alice having sent startGame, the same session is racing again. *)
Lemma finished_session_restarted :
  (exists room,
      map_get (rooms (run raceWonByAlice initialServer)) "r" = Some room
      /\ GameState.gameStarted (Room.gameState room) = true
      /\ GameState.gameEnded (Room.gameState room) = true)
  /\ (exists room,
        map_get (rooms (run raceStartedAgain initialServer)) "r" = Some room
        /\ GameState.gameStarted (Room.gameState room) = true
        /\ GameState.gameEnded (Room.gameState room) = false).
Proof.
  split.
  - rewrite raceWonByAlice_result.
    eexists. split; [ reflexivity | split; reflexivity ].
  - rewrite raceStartedAgain_result.
    eexists. split; [ reflexivity | split; reflexivity ].
Qed.

Lemma raceAbandoned_result :
  run raceAbandoned initialServer
  = mkServer
      [("r", Room.mk "r" "Track1" [Player.mk "D" "Dave"] 6 "D"
               (GameState.mk "r" [] [] (generatePowerUps (skip 2 centred))
                  true false (Some "A") 0 3))]%string
      [("r"%string, 1%nat)] [(1%nat, "r"%string)] [] 2 4.
Proof.
  unfold raceAbandoned. rewrite run_app, raceStartedAgain_result.
  do 3 run_event cbv_model.
  rewrite run_nil. reflexivity.
Qed.

(** C7 (the code at the failing input): after [raceAbandoned] the session of
    room "r" is racing with no car left, and it still holds the winner of the
    race before; the tick that follows ends it, and the winner field is left
    as it was: the session ends with Alice, who has left, as winner, although
    no vehicle remains. *)
Theorem no_survivor_keeps_old_winner :
  (exists room,
      map_get (rooms (run raceAbandoned initialServer)) "r" = Some room
      /\ GameState.players (Room.gameState room) = []
      /\ GameState.gameStarted (Room.gameState room) = true
      /\ GameState.gameEnded (Room.gameState room) = false)
  /\ (exists room,
        map_get (rooms (run raceLeftEmpty initialServer)) "r" = Some room
        /\ memberIds room = ["D"%string]
        /\ GameState.players (Room.gameState room) = []
        /\ GameState.gameEnded (Room.gameState room) = true
        /\ GameState.winner (Room.gameState room) = Some "A"%string).
Proof.
  split.
  - rewrite raceAbandoned_result.
    eexists. split; [ reflexivity | repeat split ].
  - unfold raceLeftEmpty. rewrite run_app, raceAbandoned_result.
    run_event eval_tick.
    rewrite run_nil. eexists. split; [ reflexivity | repeat split ].
Qed.

(** ** Tick loops *)

Lemma stopGameLoop_handles (roomId : RoomId) (s : Server) :
  handles_ok s -> handles_ok (stopGameLoop roomId s).
Proof.
  unfold handles_ok, stopGameLoop. intros H.
  destruct (map_get (gameLoops s) roomId); [ | exact H ].
  simpl. rewrite Forall_forall in *. intros i Hi.
  apply filter_In in Hi. apply H. exact (proj1 Hi).
Qed.

Lemma startGameLoop_handles (roomId : RoomId) (s : Server) :
  handles_ok s -> handles_ok (startGameLoop roomId s).
Proof.
  unfold handles_ok, startGameLoop. simpl. intros H.
  apply Forall_app. split.
  - apply (Forall_impl _ (fun i Hi => Nat.lt_lt_succ_r _ _ Hi) H).
  - constructor; [ simpl; lia | constructor ].
Qed.

Lemma step_handles (s : Server) (ev : Event) : handles_ok s -> handles_ok (step s ev).
Proof.
  intros H. unfold step.
  destruct ev as [sk roomName playerName r | sk r playerName
                 | sk r e | sk r keys bottleId | sk | h e | k]; simpl.
  - exact H.
  - unfold joinRoom. destruct (map_get (rooms s) r); [ | exact H ].
    destruct (_ <=? _)%nat; [ exact H | ].
    destruct (find _ _); exact H.
  - unfold startGame. destruct (map_get (rooms s) r); [ | exact H ].
    destruct (negb _ || _); [ exact H | ].
    simpl. apply startGameLoop_handles. exact H.
  - unfold playerInput. destruct (map_get (rooms s) r); [ | exact H ].
    destruct (negb _); [ exact H | ].
    destruct (find _ _) as [car | ]; [ | exact H ].
    destruct (Car.isEliminated car); [ exact H | ].
    destruct (Keys.space keys && _); exact H.
  - unfold disconnect. destruct (find _ (rooms s)) as [[r room] | ]; [ | exact H ].
    simpl. destruct (_ =? 0)%nat; simpl; [ | exact H ].
    exact (stopGameLoop_handles r s H).
  - unfold fireInterval. destruct (find _ (intervals s)) as [[h' r] | ]; [ | exact H ].
    unfold updateGame. destruct (map_get (rooms s) r); [ | exact H ].
    destruct (negb _ || _); [ exact H | ].
    destruct (tick e _) as [g ts].
    destruct (GameState.gameEnded g); simpl; [ | exact H ].
    apply stopGameLoop_handles. exact H.
  - unfold fireTimeout. destruct (nth_error (timeouts s) k); exact H.
Qed.

Lemma reachable_handles (s : Server) : reachable s -> handles_ok s.
Proof.
  intros Hreach. induction Hreach as [ | s ev _ IH].
  - constructor.
  - apply step_handles. exact IH.
Qed.

(** X2: a startGame request that is accepted while an interval is ticking
    the room (the race is on, or was started twice) registers a new interval
    for the room and leaves the old one running: the old one is no longer
    the registered loop, so stopping the loop of the room, at the end of the
    race or when the room empties, does not clear it. *)
Theorem startGame_leaves_interval
    (s : Server) (roomId : RoomId) (e : Entropy) (room : Room.t) (h : nat) :
  reachable s ->
  map_get (rooms s) roomId = Some room ->
  (2 <= List.length (Room.players room))%nat ->
  In (h, roomId) (intervals s) ->
  let s' := step s (StartGame (Room.host room) roomId e) in
  map_get (gameLoops s') roomId = Some (nextHandle s)
  /\ h <> nextHandle s
  /\ In (h, roomId) (intervals s')
  /\ In (nextHandle s, roomId) (intervals s')
  /\ In (h, roomId) (intervals (stopGameLoop roomId s')).
Proof.
  intros Hreach Hget Hlen Hin. cbv zeta.
  pose proof (reachable_handles s Hreach) as Hfresh.
  unfold handles_ok in Hfresh. rewrite Forall_forall in Hfresh.
  pose proof (Hfresh _ Hin) as Hlt. simpl in Hlt.
  unfold step. simpl. unfold startGame. rewrite Hget, String.eqb_refl.
  destruct (Nat.ltb_spec (List.length (Room.players room)) 2) as [Hlt2 | _]; [ lia | ].
  simpl.
  split; [ apply map_get_set_same | ].
  split; [ lia | ].
  split; [ apply in_or_app; left; exact Hin | ].
  split; [ apply in_or_app; right; left; reflexivity | ].
  unfold stopGameLoop. simpl. rewrite map_get_set_same. simpl.
  apply filter_In. split; [ apply in_or_app; left; exact Hin | ].
  simpl. apply negb_true_iff, Nat.eqb_neq. lia.
Qed.

(** ** Inputs and hits that the invariants do not cover *)

Section Counterexamples.
Local Open Scope string_scope.

Lemma outOfAmmo_result :
  exists (x v : R) (bottles : list Bottle.t),
    run outOfAmmo initialServer
    = mkServer
        [("r", Room.mk "r" "Track1" [Player.mk "A" "Alice"; Player.mk "B" "Bob"] 6 "A"
                 (GameState.mk "r"
                    [Car.set_bottles
                       (Car.set_position
                          (Car.set_velocity (createCar 0 (letters 0) "A" "Alice" 0)
                             (Vec.mk v 0))
                          (Vec.mk x 100))
                       0;
                     createCar 1 (letters 1) "B" "Bob" 1]
                    bottles (generatePowerUps (skip 2 centred))
                    true false None 0 3))]
        [("r", 0%nat)] [(0%nat, "r")] [] 1 2
    /\ 2 < v < 3 /\ 100 < x < 110.
Proof.
  unfold outOfAmmo.
  do 3 run_event cbv_model.
  do 5 run_event eval_input.
  rewrite run_nil.
  do 3 eexists. split; [ reflexivity | split; lra ].
Qed.

(** The state that an accepted input leads to differs from the one it was
    sent in. *)
Ltac input_moves_car :=
  lazymatch goal with
  | |- step ?S ?ev <> _ =>
      let Hstep := fresh "Hstep" in
      let Heq := fresh "Heq" in
      eassert (Hstep : step S ev = _);
      [ unfold step, handle; eval_input; reflexivity
      | rewrite Hstep; clear Hstep; intros Heq; injection Heq as Heq; lra ]
  end.

(** C3 (counterexample): two inputs that the specification takes for no-ops
    and that change the session.  The race of [raceWonByAlice] is finished; Alice
    presses forward and her car, at rest before, has velocity 0.475.  In
    [outOfAmmo] the race is on and Alice's car is moving with no bottle left;
    she presses fire alone: no bottle is thrown, and the physics update slows
    her car down and moves it on. *)
Lemma input_not_ignored :
  (exists room car,
      map_get (rooms (run raceWonByAlice initialServer)) "r" = Some room
      /\ GameState.gameStarted (Room.gameState room) = true
      /\ GameState.gameEnded (Room.gameState room) = true
      /\ find (fun p => String.eqb (Car.playerId p) "A")
              (GameState.players (Room.gameState room)) = Some car
      /\ Car.isEliminated car = false
      /\ step (run raceWonByAlice initialServer) (PlayerInput "A" "r" forward EmptyString)
         <> run raceWonByAlice initialServer)
  /\ (exists room car,
        map_get (rooms (run outOfAmmo initialServer)) "r" = Some room
        /\ GameState.gameStarted (Room.gameState room) = true
        /\ GameState.gameEnded (Room.gameState room) = false
        /\ find (fun p => String.eqb (Car.playerId p) "A")
                (GameState.players (Room.gameState room)) = Some car
        /\ Car.isEliminated car = false
        /\ Car.bottles car = 0%Z
        /\ step (run outOfAmmo initialServer) (PlayerInput "A" "r" fire "s6")
           <> run outOfAmmo initialServer).
Proof.
  split.
  - rewrite raceWonByAlice_result.
    do 2 eexists.
    split; [ reflexivity | ]. split; [ reflexivity | ]. split; [ reflexivity | ].
    split; [ reflexivity | ]. split; [ reflexivity | ].
    input_moves_car.
  - destruct outOfAmmo_result as (x & v & bottles & -> & Hv & Hx).
    do 2 eexists.
    split; [ reflexivity | ]. split; [ reflexivity | ]. split; [ reflexivity | ].
    split; [ reflexivity | ]. split; [ reflexivity | ]. split; [ reflexivity | ].
    input_moves_car.
Qed.

(** Bob's car after the twenty-one inputs: some 80 units down its lane, at
    a speed between 6 and 7, with Alice's bottles behind it. *)
Lemma bobDrives_result :
  exists x v : R,
    run bobDrives initialServer
    = mkServer
        [("r", bobsRace [bobsCar x v 100 false 0; davesCar 0]
                 [thrown "x1" 152; thrown "x2" 152; thrown "y1" 140; thrown "y2" 140;
                  thrown "y3" 140; thrown "y4" 140; thrown "y5" 140]
                 (generatePowerUps (skip 2 healthAhead)) false None 0)]
        [("r", 2%nat)] [(0%nat, "r"); (1%nat, "r"); (2%nat, "r")] [] 3 6
    /\ 180 < x < 181 /\ 6 < v < 7.
Proof.
  unfold bobDrives, bobStartsOver, twoVolleys. cbn [repeat app].
  do 3 run_event cbv_model.
  do 2 run_event eval_input.
  run_event eval_tick.
  run_event cbv_model.
  do 5 run_event eval_input.
  do 3 run_event cbv_model.
  do 21 run_event eval_input.
  rewrite run_nil.
  do 2 eexists. split; [ cbv_model; eq_fields | split; lra ].
Qed.

(** The tick that follows: the two bottles at 164 hit Bob's car, each for 20
    health and 3 units of forward velocity, the five at 152 fall short of it,
    and the health power-up at (180, 100) lifts its health from 60 to 90. *)
Lemma bobCatchesUp_result :
  exists x v : R,
    run bobCatchesUp initialServer
    = mkServer
        [("r", bobsRace [bobsCar x v 90 false 1; davesCar 1]
                 [thrown "y1" 152; thrown "y2" 152;
                  thrown "y3" 152; thrown "y4" 152; thrown "y5" 152]
                 (collect "e" (generatePowerUps (skip 2 healthAhead))) false None 1)]
        [("r", 2%nat)] [(0%nat, "r"); (1%nat, "r"); (2%nat, "r")] [] 3 6
    /\ 180 < x < 181 /\ 12 < v < 13.
Proof.
  unfold bobCatchesUp. rewrite run_app.
  destruct bobDrives_result as (x & v & -> & Hx & Hv).
  run_event eval_tick.
  rewrite run_nil.
  exists x, (v + 6). split; [ cbv_model; eq_fields | split; lra ].
Qed.

(** The next tick: the five bottles hit Bob's car one after the other, and
    the fifth takes its health from 10 to -10; Dave is the last one standing. *)
Lemma bobKnockedOut_result :
  exists x v : R,
    run bobKnockedOut initialServer
    = mkServer
        [("r", bobsRace [bobsCar x v (-10) true 1; davesCar 2] []
                 (collect "e" (generatePowerUps (skip 2 healthAhead)))
                 true (Some "D") 2)]
        [] [(0%nat, "r"); (1%nat, "r")] [] 3 6.
Proof.
  unfold bobKnockedOut. rewrite run_app.
  destruct bobCatchesUp_result as (x & v & -> & Hx & Hv).
  run_event eval_tick.
  rewrite run_nil.
  exists x, (v + 15). cbv_model. eq_fields.
Qed.

(** C1 (counterexample): Bob's car has health 90 after [bobCatchesUp], two
    hits and one health power-up into the race, and is hit five times in the
    tick that follows: in the reachable state after [bobKnockedOut] its
    health is -10, below the interval [0, maxHealth]. *)
Lemma health_below_zero :
  (exists room car,
      map_get (rooms (run bobCatchesUp initialServer)) "r" = Some room
      /\ find (fun p => String.eqb (Car.playerId p) "B")
              (GameState.players (Room.gameState room)) = Some car
      /\ Car.health car = 90%Z
      /\ Car.isEliminated car = false)
  /\ (exists room car,
        map_get (rooms (run bobKnockedOut initialServer)) "r" = Some room
        /\ find (fun p => String.eqb (Car.playerId p) "B")
                (GameState.players (Room.gameState room)) = Some car
        /\ Car.health car = (-10)%Z
        /\ Car.maxHealth car = 100%Z
        /\ Car.isEliminated car = true).
Proof.
  split.
  - destruct bobCatchesUp_result as (x & v & -> & _).
    do 2 eexists. split; [ reflexivity | ]. split; [ reflexivity | ].
    split; reflexivity.
  - destruct bobKnockedOut_result as (x & v & ->).
    do 2 eexists. split; [ reflexivity | ]. split; [ reflexivity | ].
    split; [ reflexivity | ]. split; reflexivity.
Qed.

(** C4 (counterexample): in the reachable state after [bobCatchesUp] the
    race is on and Bob's car is not eliminated; the two hits of the tick have
    each added 3 to its forward velocity, which the physics update had left
    above 6: its speed exceeds 12 while its maxSpeed is 8. *)
Lemma knockback_exceeds_maxSpeed :
  exists room car,
    map_get (rooms (run bobCatchesUp initialServer)) "r" = Some room
    /\ GameState.gameStarted (Room.gameState room) = true
    /\ GameState.gameEnded (Room.gameState room) = false
    /\ find (fun p => String.eqb (Car.playerId p) "B")
            (GameState.players (Room.gameState room)) = Some car
    /\ Car.isEliminated car = false
    /\ Car.maxSpeed car = 8
    /\ 12 < magnitude (Car.velocity car).
Proof.
  destruct bobCatchesUp_result as (x & v & -> & _ & Hv).
  do 2 eexists. split; [ reflexivity | ]. split; [ reflexivity | ].
  split; [ reflexivity | ]. split; [ reflexivity | ]. split; [ reflexivity | ].
  split; [ reflexivity | ].
  change (12 < magnitude (Vec.mk v 0)). unfold magnitude.
  cbn [Vec.x Vec.y]. rewrite sqrt_axis by lra. lra.
Qed.

End Counterexamples.

(** ** A socket in two rooms *)

Section TwoRooms.
Local Open Scope string_scope.

Lemma hostOfTwoRooms_result :
  run hostOfTwoRooms initialServer
  = mkServer
      [("q", Room.mk "q" "Track2" [Player.mk "A" "Alice"; Player.mk "B" "Bob"] 6 "A"
               (GameState.mk "q"
                  [createCar 0 (letters 0) "A" "Alice" 0;
                   createCar 1 (letters 1) "B" "Bob" 1]
                  [] (generatePowerUps (skip 2 centred))
                  true false None 0 3))]
      [("q", 0%nat)] [(0%nat, "q")] [] 1 2.
Proof.
  unfold hostOfTwoRooms.
  do 5 run_event cbv_model.
  rewrite run_nil. reflexivity.
Qed.

(** C9 (code bug): the disconnect handler stops at the first room that
    lists the socket.  Alice is the host of the rooms r and q, and Bob is a
    member of q, where a race is on.  When Alice disconnects, r is deleted and
    q is left as it was: Alice, who is gone, is still listed as a member and
    is still the host of q.  When Bob disconnects as well, q lists Alice alone:
    no socket of the room is connected any more, and the room is neither
    deleted nor is its loop stopped, interval 0 goes on ticking it. *)
Theorem disconnect_keeps_departed_host :
  (exists room,
      rooms (run hostOfTwoRooms initialServer) = [("q", room)]
      /\ memberIds room = ["A"; "B"]
      /\ Room.host room = "A")
  /\ (exists room,
        rooms (run bothGone initialServer) = [("q", room)]
        /\ memberIds room = ["A"]
        /\ Room.host room = "A"
        /\ GameState.gameStarted (Room.gameState room) = true
        /\ GameState.gameEnded (Room.gameState room) = false)
  /\ gameLoops (run bothGone initialServer) = [("q", 0%nat)]
  /\ intervals (run bothGone initialServer) = [(0%nat, "q")].
Proof.
  assert (Hboth : run bothGone initialServer
                  = mkServer
                      [("q", Room.mk "q" "Track2" [Player.mk "A" "Alice"] 6 "A"
                               (GameState.mk "q"
                                  [createCar 0 (letters 0) "A" "Alice" 0]
                                  [] (generatePowerUps (skip 2 centred))
                                  true false None 0 3))]
                      [("q", 0%nat)] [(0%nat, "q")] [] 1 2).
  { unfold bothGone. rewrite run_app, hostOfTwoRooms_result.
    run_event cbv_model. rewrite run_nil. reflexivity. }
  split.
  - rewrite hostOfTwoRooms_result. eexists.
    split; [ reflexivity | ]. split; reflexivity.
  - rewrite Hboth. split.
    + eexists. split; [ reflexivity | ]. repeat split; reflexivity.
    + split; reflexivity.
Qed.
End TwoRooms.

(** ** Accelerating up to the cap *)

Lemma speedAfter_closed (n : nat) : speedAfter n = 9.5 * (1 - 0.95 ^ n).
Proof.
  induction n as [ | n IH]; cbn [speedAfter pow]; [ lra | rewrite IH; lra ].
Qed.

Lemma pow_095_antitone (m n : nat) : (m <= n)%nat -> 0.95 ^ n <= 0.95 ^ m.
Proof.
  induction 1 as [ | n _ IH]; [ lra | ].
  cbn [pow]. assert (0 < 0.95 ^ n) by (apply pow_lt; lra). lra.
Qed.

Lemma speedAfter_bounds (n : nat) : (n <= 35)%nat -> 0 <= speedAfter n <= 8.
Proof.
  intros Hn. rewrite speedAfter_closed.
  pose proof (pow_095_antitone n 35 Hn) as H35.
  pose proof (pow_095_antitone 0 n (Nat.le_0_l n)) as H0. cbn [pow] in H0.
  assert (3 / 19 <= 0.95 ^ 35) by lra. lra.
Qed.

Lemma placeAfter_bounds (n : nat) :
  (n <= 35)%nat -> 100 <= placeAfter n <= 100 + 8 * INR n.
Proof.
  induction n as [ | n IH]; intros Hn.
  - cbn [placeAfter INR]. lra.
  - rewrite S_INR. change (placeAfter (S n)) with (placeAfter n + speedAfter (S n)).
    pose proof (speedAfter_bounds (S n) Hn). specialize (IH ltac:(lia)). lra.
Qed.

Section Accelerating.
Local Open Scope string_scope.

Lemma forward_step (x v : R) :
  0 <= v -> (v + 0.5) * 0.95 <= 8 -> 20 <= x + (v + 0.5) * 0.95 <= 780 ->
  step (secondRaceAt x v) (PlayerInput "A" "r" forward EmptyString)
  = secondRaceAt (x + (v + 0.5) * 0.95) ((v + 0.5) * 0.95).
Proof.
  intros Hv Hcap Hx. unfold step, handle. eval_input. eq_fields.
Qed.

Lemma accelerated_result (n : nat) :
  (n <= 35)%nat ->
  run (accelerated n) initialServer = secondRaceAt (placeAfter n) (speedAfter n).
Proof.
  unfold accelerated. rewrite run_app, raceStartedAgain_result.
  induction n as [ | n IH]; intros Hn.
  - cbn [repeat run fold_left placeAfter speedAfter]. cbv_model. eq_fields.
  - cbn [repeat]. rewrite repeat_cons.
    rewrite run_app, IH by lia. rewrite run_cons, run_nil.
    pose proof (speedAfter_bounds n ltac:(lia)).
    pose proof (speedAfter_bounds (S n) Hn) as Hs.
    pose proof (placeAfter_bounds (S n) Hn) as Hp.
    assert (INR (S n) <= 35)
      by (apply le_INR in Hn; replace (INR 35) with 35 in Hn by (simpl; lra);
          exact Hn).
    cbn [speedAfter placeAfter] in *.
    apply forward_step; lra.
Qed.
End Accelerating.

(** ** Instances on the scenarios *)

Section Instances.
Local Open Scope string_scope.

Lemma reachable_scenario (evs : list Event) : reachable (run evs initialServer).
Proof. apply reachable_run. constructor. Qed.

(** C1 (instance): the two cars of the race started again. *)
Lemma health_range_witness :
  reachable (run raceStartedAgain initialServer)
  /\ Forall (fun car =>
               Car.maxHealth car = 100%Z
               /\ (Car.health car <= Car.maxHealth car)%Z
               /\ (Car.isEliminated car = false -> (0 < Car.health car)%Z)
               /\ (Car.isEliminated car = true -> (-20 < Car.health car <= 0)%Z))
            [createCar 2 (letters 0) "A" "Alice" 0;
             createCar 3 (letters 1) "C" "Carol" 1].
Proof.
  split; [ apply reachable_scenario | ].
  apply Forall_forall. intros car Hcar.
  apply (health_range (run raceStartedAgain initialServer)
           (reachable_scenario raceStartedAgain) "r"%string
           (Room.mk "r" "Track1" [Player.mk "A" "Alice"; Player.mk "C" "Carol"] 6 "A"
              (GameState.mk "r"
                 [createCar 2 (letters 0) "A" "Alice" 0;
                  createCar 3 (letters 1) "C" "Carol" 1]
                 [] (generatePowerUps (skip 2 centred))
                 true false (Some "A"%string) 0 3))%string car).
  - rewrite raceStartedAgain_result. left. reflexivity.
  - exact Hcar.
Defined.

(** C2 (instance): a tick on the finished race leaves it finished. *)
Lemma ended_until_started_again_witness :
  reachable (run raceWonByAlice initialServer)
  /\ exists room,
       map_get (rooms (step (run raceWonByAlice initialServer) (Interval 0 centred)))
               "r" = Some room
       /\ GameState.gameEnded (Room.gameState room) = true.
Proof.
  split; [ apply reachable_scenario | ].
  pose proof (ended_until_started_again (run raceWonByAlice initialServer)
                (Interval 0 centred) "r"%string
                (Room.mk "r" "Track1" [Player.mk "A" "Alice"] 6 "A"
                   (GameState.mk "r"
                      [Car.set_totalTime (createCar 0 (letters 0) "A" "Alice" 0) 1]
                      [] (generatePowerUps (skip 2 centred))
                      true true (Some "A"%string) 1 3))%string
                (reachable_scenario raceWonByAlice)) as H.
  rewrite raceWonByAlice_result in *.
  specialize (H eq_refl eq_refl).
  destruct (map_get _ "r"%string) as [room | ].
  - exists room. split; [ reflexivity | ].
    destruct H as [H | [(e & H & _) | (sk & rn & pn & H & _)]];
      [ exact H | discriminate H | discriminate H ].
  - destruct H as (sk & H). discriminate H.
Defined.

(** C4 (instance): in the race started again Alice has pressed forward
    thirty-five times; her car is so fast that the next forward input takes it
    over the cap before the rescaling. *)
Lemma speed_capped_after_input_witness :
  reachable (run (accelerated 35) initialServer)
  /\ 8 < (speedAfter 35 + 0.5) * 0.95
  /\ exists room car,
       map_get (rooms (step (run (accelerated 35) initialServer)
                            (PlayerInput "A" "r" forward EmptyString)))
               "r" = Some room
       /\ find (fun p => String.eqb (Car.playerId p) "A")
               (GameState.players (Room.gameState room)) = Some car
       /\ magnitude (Car.velocity car) <= 1.000000000001 * Car.maxSpeed car
       /\ 8 <= Car.maxSpeed car <= 12.
Proof.
  split; [ apply reachable_scenario | ].
  split; [ rewrite speedAfter_closed; lra | ].
  apply (speed_capped_after_input (run (accelerated 35) initialServer)
           "A" "r" forward EmptyString
           (Room.mk "r" "Track1" [Player.mk "A" "Alice"; Player.mk "C" "Carol"] 6 "A"
              (GameState.mk "r"
                 [alicesCarAt (placeAfter 35) (speedAfter 35);
                  createCar 3 (letters 1) "C" "Carol" 1]
                 [] (generatePowerUps (skip 2 centred))
                 true false (Some "A") 0 3))
           (alicesCarAt (placeAfter 35) (speedAfter 35))
           (reachable_scenario (accelerated 35))).
  - rewrite accelerated_result by lia. reflexivity.
  - reflexivity.
  - reflexivity.
  - reflexivity.
Defined.


(** C10 (instance): Dave joins the race started again; his input is
    ignored, also after a start request of his own, which the server refuses
    because he is not the host, and a tick. *)
Lemma late_joiner_has_no_car_witness :
  reachable (run raceStartedAgain initialServer)
  /\ snd (joinRoom "D" "r" "Dave" (run raceStartedAgain initialServer))
     = [playerJoined "r" "D"; roomJoined "D" "r"]
  /\ playerInput "D" "r" (Keys.mk true false false false true) "b1"
       (run [StartGame "D" "r" centred; Interval 1 centred]
            (fst (joinRoom "D" "r" "Dave" (run raceStartedAgain initialServer))))
     = (run [StartGame "D" "r" centred; Interval 1 centred]
            (fst (joinRoom "D" "r" "Dave" (run raceStartedAgain initialServer))), []).
Proof.
  split; [ apply reachable_scenario | ].
  destruct (late_joiner_has_no_car (run raceStartedAgain initialServer)
              "D"%string "r"%string "Dave"%string
              (Room.mk "r" "Track1" [Player.mk "A" "Alice"; Player.mk "C" "Carol"] 6 "A"
                 (GameState.mk "r"
                    [createCar 2 (letters 0) "A" "Alice" 0;
                     createCar 3 (letters 1) "C" "Carol" 1]
                    [] (generatePowerUps (skip 2 centred))
                    true false (Some "A"%string) 0 3))%string
              (reachable_scenario raceStartedAgain))
    as (Hout & Hroom & _ & _ & Hinput).
  - rewrite raceStartedAgain_result. reflexivity.
  - reflexivity.
  - simpl. lia.
  - unfold memberIds. simpl. intros [H | [H | []]]; discriminate H.
  - split; [ exact Hout | ].
    apply Hinput. cbn [noSessionStarted startAccepted].
    rewrite Hroom. reflexivity.
Defined.

(** X2 (instance): Alice starts the race of [raceStartedAgain] once more;
    interval 1 keeps ticking beside the new interval 2. *)
Lemma startGame_leaves_interval_witness :
  reachable (run raceStartedAgain initialServer)
  /\ In (1%nat, "r")
        (intervals (stopGameLoop "r"
                      (step (run raceStartedAgain initialServer)
                            (StartGame "A" "r" centred)))).
Proof.
  split; [ apply reachable_scenario | ].
  destruct (startGame_leaves_interval (run raceStartedAgain initialServer) "r" centred
              (Room.mk "r" "Track1" [Player.mk "A" "Alice"; Player.mk "C" "Carol"] 6 "A"
                 (GameState.mk "r"
                    [createCar 2 (letters 0) "A" "Alice" 0;
                     createCar 3 (letters 1) "C" "Carol" 1]
                    [] (generatePowerUps (skip 2 centred))
                    true false (Some "A") 0 3))
              1%nat (reachable_scenario raceStartedAgain))
    as (_ & _ & _ & _ & H).
  - rewrite raceStartedAgain_result. reflexivity.
  - simpl. lia.
  - rewrite raceStartedAgain_result. left. reflexivity.
  - exact H.
Defined.

End Instances.

(** * Further properties of the code *)

(** ** Circles, bottles and power-ups as they are made *)

(** X3: the collision test does not depend on the order of the two
    objects; it never reports a collision when the radii do not add up to a
    positive length; two objects in the same place collide exactly when they
    do; and a collision stays one when the radii grow. *)
Theorem checkCollision_symmetric (p q : Vec.t) (r1 r2 : R) :
  checkCollision p q r1 r2 = checkCollision q p r2 r1
  /\ (r1 + r2 <= 0 -> checkCollision p q r1 r2 = false)
  /\ checkCollision p p r1 r2 = Rltb 0 (r1 + r2)
  /\ (forall r1' r2',
        r1 + r2 <= r1' + r2' ->
        checkCollision p q r1 r2 = true -> checkCollision p q r1' r2' = true).
Proof.
  unfold checkCollision.
  set (d := (Vec.x p - Vec.x q) * (Vec.x p - Vec.x q)
            + (Vec.y p - Vec.y q) * (Vec.y p - Vec.y q)).
  pose proof (sqrt_pos d) as Hs.
  split; [ | split; [ | split ] ].
  - replace ((Vec.x q - Vec.x p) * (Vec.x q - Vec.x p)
             + (Vec.y q - Vec.y p) * (Vec.y q - Vec.y p))
      with d by (unfold d; ring).
    rewrite (Rplus_comm r2 r1). reflexivity.
  - intros Hr. apply Rltb_false. lra.
  - replace ((Vec.x p - Vec.x p) * (Vec.x p - Vec.x p)
             + (Vec.y p - Vec.y p) * (Vec.y p - Vec.y p)) with 0 by ring.
    rewrite sqrt_0. reflexivity.
  - intros r1' r2' Hr H.
    destruct (Rltb_spec (sqrt d) (r1 + r2)) as [Hlt | Hge]; [ | discriminate ].
    apply Rltb_true. lra.
Qed.

Lemma updateBottlePhysics_iter (n : nat) (bottle : Bottle.t) :
  Bottle.position (Nat.iter n updateBottlePhysics bottle)
  = Vec.mk (Vec.x (Bottle.position bottle) + INR n * Vec.x (Bottle.velocity bottle))
           (Vec.y (Bottle.position bottle) + INR n * Vec.y (Bottle.velocity bottle))
  /\ Bottle.velocity (Nat.iter n updateBottlePhysics bottle) = Bottle.velocity bottle.
Proof.
  induction n as [ | n [IHp IHv]].
  - simpl. split; [ | reflexivity ]. destruct (Bottle.position bottle). simpl.
    f_equal; lra.
  - rewrite Nat.iter_succ, S_INR.
    assert (H : forall b,
               Bottle.position (updateBottlePhysics b)
               = Vec.mk (Vec.x (Bottle.position b) + Vec.x (Bottle.velocity b))
                        (Vec.y (Bottle.position b) + Vec.y (Bottle.velocity b))
               /\ Bottle.velocity (updateBottlePhysics b) = Bottle.velocity b).
    { intros b. unfold updateBottlePhysics.
      match goal with |- context [if ?c then _ else _] => destruct c end;
        split; reflexivity. }
    destruct (H (Nat.iter n updateBottlePhysics bottle)) as [-> ->].
    rewrite IHp, IHv. simpl. split; [ f_equal; lra | reflexivity ].
Qed.

(** X5: a bottle on the track that moves at least 0.001 a tick along the
    x axis does not fly for ever: within 800 / |vx| + 2 position updates one
    of them puts it beyond the left or the right edge of the track, and finds
    it there and deactivates it. *)
Theorem bottle_flight_ends (bottle : Bottle.t) :
  0 <= Vec.x (Bottle.position bottle) <= 800 ->
  0.001 <= Rabs (Vec.x (Bottle.velocity bottle)) ->
  exists n : nat,
    (0 < n)%nat
    /\ INR n <= 800 / Rabs (Vec.x (Bottle.velocity bottle)) + 2
    /\ (Vec.x (Bottle.position (Nat.iter n updateBottlePhysics bottle)) < 0
        \/ 800 < Vec.x (Bottle.position (Nat.iter n updateBottlePhysics bottle)))
    /\ Bottle.active (Nat.iter n updateBottlePhysics bottle) = false.
Proof.
  intros Hp Hv.
  set (px := Vec.x (Bottle.position bottle)) in *.
  set (vx := Vec.x (Bottle.velocity bottle)) in *.
  assert (Habs : 0 < Rabs vx) by lra.
  (* the distance to the edge the bottle flies to *)
  set (d := if Rlt_dec 0 vx then 800 - px else px).
  assert (Hd : 0 <= d <= 800) by (unfold d; destruct (Rlt_dec 0 vx); lra).
  destruct (archimed (d / Rabs vx)) as [Hup1 Hup2].
  set (k := up (d / Rabs vx)) in *.
  assert (Hq : 0 <= d / Rabs vx).
  { apply Rmult_le_pos; [ lra | left; apply Rinv_0_lt_compat; exact Habs ]. }
  assert (Hk : (0 < k)%Z).
  { apply lt_IZR. lra. }
  exists (Z.to_nat k).
  assert (HINR : INR (Z.to_nat k) = IZR k).
  { rewrite INR_IZR_INZ, Z2Nat.id by lia. reflexivity. }
  assert (Hgt : d < IZR k * Rabs vx).
  { apply (Rmult_lt_compat_r (Rabs vx)) in Hup1; [ | exact Habs ].
    unfold Rdiv in Hup1. rewrite Rmult_assoc, Rinv_l in Hup1 by lra. lra. }
  assert (Hout : px + INR (Z.to_nat k) * vx < 0 \/ 800 < px + INR (Z.to_nat k) * vx).
  { rewrite HINR. unfold d in Hgt.
    destruct (Rlt_dec 0 vx) as [Hpos' | Hneg].
    - rewrite Rabs_pos_eq in Hgt by lra. right. lra.
    - assert (Hneg' : vx < 0)
        by (destruct (Req_dec vx 0) as [H0 | H0];
            [ rewrite H0, Rabs_R0 in Hv; lra | lra ]).
      rewrite Rabs_left in Hgt by lra. left. lra. }
  split; [ lia | ]. split.
  - rewrite HINR.
    assert (d / Rabs vx <= 800 / Rabs vx).
    { unfold Rdiv. apply Rmult_le_compat_r; [ left; apply Rinv_0_lt_compat; lra | lra ]. }
    lra.
  - destruct (updateBottlePhysics_iter (Z.to_nat k) bottle) as [Hpos _].
    fold px vx in Hpos.
    split; [ rewrite Hpos; cbn [Vec.x]; exact Hout | ].
    destruct (Z.to_nat k) as [ | m] eqn:Hm; [ lia | ].
    rewrite Nat.iter_succ in Hpos |- *.
    generalize dependent (Nat.iter m updateBottlePhysics bottle).
    intros moved Hpos.
    unfold updateBottlePhysics in Hpos |- *.
    cbn [Bottle.position Bottle.set_position Bottle.set_active Bottle.active
         Vec.x Vec.y] in Hpos |- *.
    set (x' := Vec.x (Bottle.position moved) + Vec.x (Bottle.velocity moved)) in *.
    assert (Hx' : x' = px + INR (S m) * vx).
    { revert Hpos.
      match goal with
      | |- context [if ?c then _ else _] => destruct c
      end; cbn [Bottle.position Bottle.set_active]; intros Hpos;
        apply (f_equal Vec.x) in Hpos; exact Hpos. }
    unfold PHYSICS.TRACK_WIDTH. destruct Hout as [Hl | Hr].
    + rewrite (Rltb_true x' 0) by lra. reflexivity.
    + rewrite (Rgtb_true x' 800) by lra. rewrite orb_true_r. reflexivity.
Qed.

(** X6: when [Math.random()] yields values in [0,1), the eight power-ups
    generated for a race are uncollected, carry the eight identifiers drawn,
    cycle through the four types twice, and lie in [50,750] x [50,550], inside
    the rectangle the cars are kept in. *)
Theorem generatePowerUps_layout (e : Entropy) :
  (forall i, 0 <= random e i < 1) ->
  map PowerUp.type (generatePowerUps e)
  = [Kind.speed; Kind.shield; Kind.health; Kind.bottles;
     Kind.speed; Kind.shield; Kind.health; Kind.bottles]
  /\ map PowerUp.id (generatePowerUps e) = map (uuid e) (seq 0 8)
  /\ Forall (fun p =>
               PowerUp.collected p = false
               /\ PowerUp.duration p = None
               /\ 50 <= Vec.x (PowerUp.position p) <= 750
               /\ 50 <= Vec.y (PowerUp.position p) <= 550
               /\ inBounds (PowerUp.position p))
            (generatePowerUps e).
Proof.
  intros Hr. destruct e as [u r]. simpl in Hr.
  eassert (Heq : generatePowerUps (mkEntropy u r) = _) by (cbv_model; reflexivity).
  rewrite Heq. clear Heq.
  split; [ reflexivity | ]. split; [ reflexivity | ].
  repeat (apply Forall_cons;
          [ unfold inBounds; cbn [PowerUp.collected PowerUp.duration PowerUp.position
                                  Vec.x Vec.y];
            repeat match goal with
            | |- context [r ?i] =>
                let H := fresh "Hi" in
                pose proof (Hr i) as H; generalize dependent (r i); intros
            end;
            split; [ reflexivity | ]; split; [ reflexivity | ]; lra
          | ]).
  apply Forall_nil.
Qed.

Lemma createCar_position (ref : nat) (carId : string) (playerId : SocketId)
    (playerName : string) (index : nat) :
  Car.position (createCar ref carId playerId playerName index)
  = Vec.mk 100 (100 + INR index * 40).
Proof.
  unfold createCar, startPositions. cbn [Car.position].
  do 6 (destruct index as [ | index]; [ cbn [nth_error]; f_equal; simpl; lra | ]).
  cbn [nth_error]. destruct index; reflexivity.
Qed.

(** X7: a new car stands on the starting grid at (100, 100 + 40 index), the
    table of six positions and the formula behind it giving the same place;
    it is at rest, heads along the x axis, has full health, five bottles, no
    lap, the nominal speed cap, and is inside the rectangle cars are kept in
    for every index up to 12. *)
Theorem createCar_grid (ref : nat) (carId : string) (playerId : SocketId)
    (playerName : string) (index : nat) :
  let car := createCar ref carId playerId playerName index in
  Car.position car = Vec.mk 100 (100 + INR index * 40)
  /\ Car.velocity car = Vec.mk 0 0
  /\ Car.rotation car = 0
  /\ Car.health car = 100%Z /\ Car.maxHealth car = 100%Z
  /\ Car.bottles car = 5%Z /\ Car.lap car = 0%Z
  /\ Car.isEliminated car = false
  /\ Car.maxSpeed car = 8
  /\ Car.playerId car = playerId /\ Car.ref car = ref /\ Car.id car = carId
  /\ ((index <= 12)%nat -> inBounds (Car.position car)).
Proof.
  cbv zeta.
  rewrite createCar_position.
  repeat (split; [ reflexivity | ]).
  intros Hle. unfold inBounds. cbn [Vec.x Vec.y].
  apply le_INR in Hle. replace (INR 12) with 12 in Hle by (simpl; lra).
  pose proof (pos_INR index). lra.
Qed.

(** ** The physics update between the walls *)

Lemma magnitude_zero : magnitude (Vec.mk 0 0) = 0.
Proof.
  unfold magnitude. simpl. replace (0 * (0 * 1) + 0 * (0 * 1)) with 0 by ring.
  apply sqrt_0.
Qed.

(** X8: a car that is at rest inside the track stays exactly as it is under
    every input without the forward key: brake, turn and fire inputs do not
    move it, turn it or change any other field. *)
Theorem updateCarPhysics_at_rest (car : Car.t) (input : Keys.t) :
  Car.velocity car = Vec.mk 0 0 ->
  inBounds (Car.position car) ->
  0 <= Car.maxSpeed car ->
  Keys.up input = false ->
  updateCarPhysics car input = car.
Proof.
  intros Hv [Hx Hy] Hm Hup.
  rewrite updateCarPhysics_steps.
  destruct car as [ref id pid pname [px py] [vx vy] rot h mh sp ms acc b lap lt tt el pu col].
  cbn [Car.velocity Car.position Car.maxSpeed Vec.x Vec.y] in *. injection Hv as -> ->.
  assert (Hupd : PhysicsSpec.update
            (Car.mk ref id pid pname (Vec.mk px py) (Vec.mk 0 0) rot h mh sp ms acc b
                    lap lt tt el pu col) input
          = Car.mk ref id pid pname (Vec.mk px py) (Vec.mk 0 0) rot h mh sp ms acc b
                   lap lt tt el pu col).
  { unfold PhysicsSpec.update, PhysicsSpec.accelerate, PhysicsSpec.brake.
    rewrite Hup. cbn [Car.velocity Car.set_velocity].
    assert (Hb : (if Keys.down input
                  then Car.set_velocity
                         (Car.mk ref id pid pname (Vec.mk px py) (Vec.mk 0 0) rot h mh sp
                                 ms acc b lap lt tt el pu col)
                         (PhysicsSpec.scale 0.8 (Vec.mk 0 0))
                  else Car.mk ref id pid pname (Vec.mk px py) (Vec.mk 0 0) rot h mh sp
                              ms acc b lap lt tt el pu col)
                 = Car.mk ref id pid pname (Vec.mk px py) (Vec.mk 0 0) rot h mh sp
                          ms acc b lap lt tt el pu col).
    { destruct (Keys.down input); [ | reflexivity ].
      unfold Car.set_velocity, PhysicsSpec.scale. simpl. do 2 f_equal; lra. }
    rewrite Hb. clear Hb.
    unfold PhysicsSpec.turn. cbn [Car.velocity]. rewrite magnitude_zero.
    rewrite (Rgtb_false 0 0.5) by lra.
    unfold PhysicsSpec.friction, PhysicsSpec.scale. cbn [Car.velocity Car.set_velocity
      Vec.x Vec.y Car.ref Car.id Car.playerId Car.playerName Car.position Car.rotation
      Car.health Car.maxHealth Car.speed Car.maxSpeed Car.acceleration Car.bottles
      Car.lap Car.lapTime Car.totalTime Car.isEliminated Car.powerUps Car.color].
    replace (0.95 * 0) with 0 by ring.
    unfold PhysicsSpec.capSpeed. cbn [Car.velocity Car.maxSpeed Car.set_velocity].
    rewrite magnitude_zero.
    rewrite (Rgtb_false 0 ms) by lra.
    unfold PhysicsSpec.integrate, PhysicsSpec.add, Car.set_position. simpl.
    do 2 f_equal; lra. }
  rewrite Hupd, keepInBounds_eq. simpl. unfold clampAxis, bounceAxis.
  rewrite (Rltb_false px 20), (Rgtb_false px 780) by lra.
  rewrite (Rltb_false py 20), (Rgtb_false py 580) by lra.
  reflexivity.
Qed.

Lemma turn_velocity (input : Keys.t) (car : Car.t) :
  Car.velocity (PhysicsSpec.turn input car) = Car.velocity car
  /\ Car.maxSpeed (PhysicsSpec.turn input car) = Car.maxSpeed car
  /\ Car.position (PhysicsSpec.turn input car) = Car.position car.
Proof. unfold PhysicsSpec.turn. destruct (Rgtb _ _); repeat split; reflexivity. Qed.

(** Without the forward key, the velocity that the physics update
    integrates is no longer than the velocity of the car. *)
Lemma spec_update_coasting (car : Car.t) (input : Keys.t) :
  0 <= Car.maxSpeed car -> Keys.up input = false ->
  magnitude (Car.velocity (PhysicsSpec.update car input))
  <= magnitude (Car.velocity car).
Proof.
  intros Hm Hup. unfold PhysicsSpec.update.
  set (pre := PhysicsSpec.friction
                (PhysicsSpec.turn input
                   (PhysicsSpec.brake input (PhysicsSpec.accelerate input car)))).
  assert (Hcap : magnitude (Car.velocity (PhysicsSpec.capSpeed pre))
                 <= magnitude (Car.velocity pre)).
  { unfold PhysicsSpec.capSpeed.
    destruct (Rgtb_spec (magnitude (Car.velocity pre)) (Car.maxSpeed pre)) as [H | H];
      [ | lra ].
    assert (Hms : Car.maxSpeed pre = Car.maxSpeed car) by apply spec_steps_maxSpeed.
    cbn [Car.velocity Car.set_velocity].
    assert (0 < magnitude (Car.velocity pre)) by lra.
    rewrite magnitude_scale.
    - unfold Rdiv. rewrite Rmult_assoc, Rinv_l by lra. lra.
    - apply Rmult_le_pos; [ lra | left; apply Rinv_0_lt_compat; lra ]. }
  cbn [PhysicsSpec.integrate Car.velocity Car.set_position].
  eapply Rle_trans; [ exact Hcap | ].
  unfold pre, PhysicsSpec.friction. cbn [Car.velocity Car.set_velocity].
  rewrite magnitude_scale by lra.
  destruct (turn_velocity input
              (PhysicsSpec.brake input (PhysicsSpec.accelerate input car)))
    as (-> & _).
  unfold PhysicsSpec.brake, PhysicsSpec.accelerate. rewrite Hup.
  pose proof (magnitude_nonneg (Car.velocity car)).
  destruct (Keys.down input); cbn [Car.velocity Car.set_velocity].
  - rewrite magnitude_scale by lra. lra.
  - lra.
Qed.

(** X9: without the forward key a physics update never speeds a car up:
    the brake force, the friction, the rescaling to the speed cap and the
    bounce off a wall all shorten the velocity or leave it as long as it
    was. *)
Theorem updateCarPhysics_coasting (car : Car.t) (input : Keys.t) :
  0 <= Car.maxSpeed car ->
  Keys.up input = false ->
  magnitude (Car.velocity (updateCarPhysics car input))
  <= magnitude (Car.velocity car).
Proof.
  intros Hm Hup. rewrite updateCarPhysics_steps.
  destruct (keepInBounds_velocity_shrinks (PhysicsSpec.update car input)) as [Hx Hy].
  eapply Rle_trans; [ exact (magnitude_le _ _ Hx Hy) | ].
  apply spec_update_coasting; assumption.
Qed.

(** X10: a car that hardly moves cannot be turned, and a car is turned by
    the turn keys only: an update leaves the heading as it was when the
    forward key is not pressed and the speed is at most 0.49, just below the
    0.5 that the update requires for a turn, and also, at any speed, when
    neither the left nor the right key is pressed. *)
Theorem updateCarPhysics_heading (car : Car.t) (input : Keys.t) :
  (Keys.up input = false /\ magnitude (Car.velocity car) <= 0.49)
  \/ (Keys.left input = false /\ Keys.right input = false) ->
  Car.rotation (updateCarPhysics car input) = Car.rotation car.
Proof.
  intros H. rewrite updateCarPhysics_steps.
  destruct (keepInBounds_other_fields (PhysicsSpec.update car input)) as (_ & -> & _).
  unfold PhysicsSpec.update, PhysicsSpec.integrate, PhysicsSpec.capSpeed,
    PhysicsSpec.friction.
  cbn [Car.rotation Car.set_position Car.set_velocity].
  match goal with |- context [Rgtb ?a ?b] => destruct (Rgtb a b) end;
    cbn [Car.rotation Car.set_position Car.set_velocity].
  all: unfold PhysicsSpec.turn.
  all: destruct (Rgtb_spec
                   (magnitude (Car.velocity
                      (PhysicsSpec.brake input (PhysicsSpec.accelerate input car)))) 0.5)
         as [Hfast | Hslow];
    cbn [Car.rotation Car.set_rotation].
  all: try (unfold PhysicsSpec.brake, PhysicsSpec.accelerate;
            destruct (Keys.up input), (Keys.down input); reflexivity).
  all: destruct H as [[Hup Hv] | [Hl Hr]].
  all: try (exfalso; revert Hfast;
            unfold PhysicsSpec.brake, PhysicsSpec.accelerate; rewrite Hup;
            pose proof (magnitude_nonneg (Car.velocity car));
            destruct (Keys.down input); cbn [Car.velocity Car.set_velocity];
            [ rewrite magnitude_scale by lra | ]; lra).
  all: rewrite Hl, Hr.
  all: unfold PhysicsSpec.brake, PhysicsSpec.accelerate;
       destruct (Keys.up input), (Keys.down input);
       cbn [Car.rotation Car.set_velocity]; lra.
Qed.

(** ** What a tick does to the cars *)

(** A relation between a car before and after, that the three passes of a
    tick respect when it holds of a hit, of a pick-up and of lap tracking. *)
Section TickRelation.
Variable rel : Car.t -> Car.t -> Prop.
Variable laps : Z.
Hypothesis rel_refl : forall car, rel car car.
Hypothesis rel_trans : forall a b c, rel a b -> rel b c -> rel a c.
Hypothesis rel_struck :
  forall bottle car, Car.isEliminated car = false -> rel car (struck bottle car).
Hypothesis rel_applyPowerUp :
  forall powerUp car,
    Car.isEliminated car = false -> rel car (fst (applyPowerUp powerUp car)).
Hypothesis rel_lapStep :
  forall raceTime car ended winner,
    rel car (fst (fst (lapStep raceTime laps car ended winner))).

Lemma Forall2_rel_refl (cars : list Car.t) : Forall2 rel cars cars.
Proof. induction cars; constructor; [ apply rel_refl | assumption ]. Qed.

Lemma Forall2_rel_trans (a b c : list Car.t) :
  Forall2 rel a b -> Forall2 rel b c -> Forall2 rel a c.
Proof.
  intros Hab. revert c. induction Hab as [ | x y l l' Hxy _ IH]; intros c Hbc.
  - inversion Hbc. constructor.
  - inversion Hbc as [ | y' z l'' m Hyz Hrest ]; subst.
    constructor; [ eapply rel_trans; eassumption | apply IH; assumption ].
Qed.

Lemma hitFirstCar_rel (bottle : Bottle.t) (cars : list Car.t) :
  Forall2 rel cars (snd (hitFirstCar bottle cars)).
Proof.
  destruct (Bottle.active bottle) eqn:Ha.
  - destruct (first_qualifying bottle cars)
      as [Hnone | (pre & car & post & -> & Hpre & Hcar)].
    + rewrite (hitFirstCar_none _ _ Ha Hnone). apply Forall2_rel_refl.
    + rewrite (hitFirstCar_first _ _ _ _ Ha Hpre Hcar). simpl.
      apply Forall2_app; [ apply Forall2_rel_refl | ].
      constructor; [ | apply Forall2_rel_refl ].
      apply rel_struck.
      unfold qualifies in Hcar. destruct (Car.isEliminated car);
        [ discriminate | reflexivity ].
  - rewrite (hitFirstCar_inactive _ _ Ha). apply Forall2_rel_refl.
Qed.

Lemma stepBottles_rel (bottles : list Bottle.t) (cars : list Car.t) :
  Forall2 rel cars (snd (stepBottles bottles cars)).
Proof.
  revert cars. induction bottles as [ | bottle rest IH]; intros cars; simpl.
  - apply Forall2_rel_refl.
  - destruct (Bottle.active bottle); simpl; [ | apply IH ].
    pose proof (hitFirstCar_rel (updateBottlePhysics bottle) cars) as Hev.
    destruct (hitFirstCar (updateBottlePhysics bottle) cars) as [bottle' cars'].
    simpl in *. specialize (IH cars').
    destruct (stepBottles rest cars') as [kept cars'']. simpl in *.
    eapply Forall2_rel_trans; eassumption.
Qed.

Lemma collectFirstCar_rel (powerUp : PowerUp.t) (cars : list Car.t) :
  Forall2 rel cars (snd (fst (collectFirstCar powerUp cars))).
Proof.
  revert powerUp. induction cars as [ | car rest IH]; intros powerUp; simpl.
  - constructor.
  - destruct (Car.isEliminated car) eqn:He; simpl.
    + specialize (IH powerUp).
      destruct (collectFirstCar powerUp rest) as [[p r] t]. simpl in *.
      constructor; [ apply rel_refl | exact IH ].
    + unfold handlePowerUpCollection.
      destruct (PowerUp.collected powerUp); simpl.
      * specialize (IH powerUp).
        destruct (collectFirstCar powerUp rest) as [[p r] t]. simpl in *.
        constructor; [ apply rel_refl | exact IH ].
      * destruct (checkCollision _ _ _ _); simpl.
        -- pose proof (rel_applyPowerUp (PowerUp.set_collected powerUp true) car He)
             as H.
           destruct (applyPowerUp (PowerUp.set_collected powerUp true) car) as [c t].
           simpl in *. constructor; [ exact H | apply Forall2_rel_refl ].
        -- specialize (IH powerUp).
           destruct (collectFirstCar powerUp rest) as [[p r] t]. simpl in *.
           constructor; [ apply rel_refl | exact IH ].
Qed.

Lemma stepPowerUps_rel (powerUps : list PowerUp.t) (cars : list Car.t) :
  Forall2 rel cars (snd (fst (stepPowerUps powerUps cars))).
Proof.
  revert cars. induction powerUps as [ | powerUp rest IH]; intros cars; simpl.
  - apply Forall2_rel_refl.
  - destruct (PowerUp.collected powerUp).
    + specialize (IH cars).
      destruct (stepPowerUps rest cars) as [[p c] t]. simpl in *. exact IH.
    + pose proof (collectFirstCar_rel powerUp cars) as H.
      destruct (collectFirstCar powerUp cars) as [[p c] t]. simpl in *.
      specialize (IH c).
      destruct (stepPowerUps rest c) as [[p' c'] t']. simpl in *.
      eapply Forall2_rel_trans; eassumption.
Qed.

Lemma trackLaps_rel (raceTime : Z) (cars : list Car.t)
    (ended : bool) (winner : option SocketId) :
  Forall2 rel cars (fst (fst (trackLaps raceTime laps cars ended winner))).
Proof.
  revert ended winner. induction cars as [ | car rest IH]; intros ended winner; simpl.
  - constructor.
  - pose proof (rel_lapStep raceTime car ended winner) as H.
    destruct (lapStep raceTime laps car ended winner) as [[c e'] w']. simpl in *.
    specialize (IH e' w').
    destruct (trackLaps raceTime laps rest e' w') as [[r e''] w'']. simpl in *.
    constructor; assumption.
Qed.

Lemma tick_rel (e : Entropy) (g : GameState.t) :
  GameState.maxLaps g = laps ->
  Forall2 rel (GameState.players g) (GameState.players (fst (tick e g))).
Proof.
  intros Hlaps. rewrite tick_players, Hlaps.
  eapply Forall2_rel_trans; [ apply stepBottles_rel | ].
  eapply Forall2_rel_trans; [ apply stepPowerUps_rel | ].
  apply trackLaps_rel.
Qed.
End TickRelation.

(** X11: a tick never moves a car.  Every car of the session is still there
    after the tick, in the same place of the list, with the same identity,
    owner, position and heading (cars move on input only); a car that was
    eliminated is left exactly as it was, so elimination is never undone;
    ammunition and laps never decrease. *)
Theorem tick_moves_no_car (e : Entropy) (g : GameState.t) :
  Forall2 (fun car car' =>
             Car.ref car' = Car.ref car
             /\ Car.id car' = Car.id car
             /\ Car.playerId car' = Car.playerId car
             /\ Car.position car' = Car.position car
             /\ Car.rotation car' = Car.rotation car
             /\ (Car.isEliminated car = true -> car' = car)
             /\ (Car.bottles car <= Car.bottles car')%Z
             /\ (Car.lap car <= Car.lap car')%Z)
          (GameState.players g) (GameState.players (fst (tick e g))).
Proof.
  apply (tick_rel _ (GameState.maxLaps g)); [ | | | | | reflexivity ].
  - intros car. repeat split; try reflexivity; lia.
  - intros a b c (H1 & H2 & H3 & H4 & H5 & H6 & H7 & H8)
                 (K1 & K2 & K3 & K4 & K5 & K6 & K7 & K8).
    repeat split; try congruence; try lia.
    intros He. rewrite (K6 (eq_trans (f_equal Car.isEliminated (H6 He)) He)).
    exact (H6 He).
  - intros bottle car He. unfold struck. simpl.
    destruct (_ <=? 0)%Z; simpl; repeat split; try reflexivity; try lia; congruence.
  - intros powerUp car He. unfold applyPowerUp.
    destruct (PowerUp.type powerUp); simpl;
      repeat split; try reflexivity; try lia; congruence.
  - intros raceTime car ended winner. unfold lapStep.
    destruct (Car.isEliminated car) eqn:He; simpl;
      [ repeat split; try reflexivity; lia | ].
    match goal with |- context [if ?c then _ else _] => destruct c end; simpl;
      [ destruct (Car.lap car <? GameState.maxLaps g)%Z; simpl;
        [ destruct (Car.lap car + 1 >=? GameState.maxLaps g)%Z; simpl | ] | ];
      repeat split; try reflexivity; try lia; congruence.
Qed.

(** ** Power-ups and laps in a tick *)

Lemma collectFirstCar_powerUp (powerUp : PowerUp.t) (cars : list Car.t) :
  fst (fst (collectFirstCar powerUp cars)) = powerUp
  \/ fst (fst (collectFirstCar powerUp cars)) = PowerUp.set_collected powerUp true.
Proof.
  induction cars as [ | car rest IH]; simpl; [ left; reflexivity | ].
  destruct (Car.isEliminated car); simpl.
  - destruct (collectFirstCar powerUp rest) as [[p r] t]. exact IH.
  - unfold handlePowerUpCollection.
    destruct (PowerUp.collected powerUp); simpl.
    + destruct (collectFirstCar powerUp rest) as [[p r] t]. exact IH.
    + destruct (checkCollision _ _ _ _); simpl.
      * destruct (applyPowerUp _ car). right. reflexivity.
      * destruct (collectFirstCar powerUp rest) as [[p r] t]. exact IH.
Qed.

Lemma stepPowerUps_sameless (powerUps : list PowerUp.t) (cars : list Car.t) :
  Forall2 powerUpKept powerUps (fst (fst (stepPowerUps powerUps cars))).
Proof.
  revert cars. induction powerUps as [ | powerUp rest IH]; intros cars; simpl.
  - constructor.
  - destruct (PowerUp.collected powerUp) eqn:Hc.
    + specialize (IH cars). destruct (stepPowerUps rest cars) as [[p c] t]. simpl in *.
      constructor; [ | exact IH ]. unfold powerUpKept. auto.
    + pose proof (collectFirstCar_powerUp powerUp cars) as H.
      destruct (collectFirstCar powerUp cars) as [[p c] t]. simpl in *.
      specialize (IH c). destruct (stepPowerUps rest c) as [[p' c'] t']. simpl in *.
      constructor; [ | exact IH ].
      destruct H as [-> | ->]; unfold powerUpKept; simpl; repeat split; auto.
Qed.

Lemma tick_powerUps_eq (e : Entropy) (g : GameState.t) :
  GameState.powerUps (fst (tick e g))
  = GameState.powerUps
      (respawn e
         (GameState.mk (GameState.id g) [] []
            (fst (fst (stepPowerUps (GameState.powerUps g)
                         (snd (stepBottles (GameState.bottles g) (GameState.players g))))))
            true true None (GameState.raceTime g + 1) (GameState.maxLaps g))).
Proof.
  pose proof (tick_eq e g) as H. cbv zeta in H. rewrite H. cbn [fst].
  match goal with
  | |- GameState.powerUps (respawn e (lastStanding ?x)) = _ =>
      destruct (lastStanding_fields x) as (_ & _ & Hp & _ & Ht & _);
      unfold respawn; rewrite Hp, Ht
  end.
  cbn [GameState.powerUps GameState.raceTime].
  destruct (Z.rem (GameState.raceTime g + 1) 600 =? 0)%Z; [ | exact Hp ].
  destruct (_ <? 4)%nat; cbn [GameState.powerUps GameState.set_powerUps];
    rewrite ?Hp; reflexivity.
Qed.

(** X12: a tick never removes a power-up and never makes a collected one
    available again: the power-ups of the session after the tick are those
    before it, in order and unchanged but for the ones collected in between,
    followed by nothing or, when the new tick count is a multiple of 600 and
    fewer than four are left uncollected, by the first two of a freshly
    generated set. *)
Theorem tick_keeps_powerUps (e : Entropy) (g : GameState.t) :
  exists kept extra,
    GameState.powerUps (fst (tick e g)) = (kept ++ extra)%list
    /\ Forall2 powerUpKept (GameState.powerUps g) kept
    /\ (extra = []
        \/ (extra = firstn 2 (generatePowerUps e)
            /\ Z.rem (GameState.raceTime g + 1) 600 = 0%Z
            /\ (List.length (filter (fun p => negb (PowerUp.collected p)) kept) < 4)%nat)).
Proof.
  exists (fst (fst (stepPowerUps (GameState.powerUps g)
                      (snd (stepBottles (GameState.bottles g) (GameState.players g)))))).
  rewrite tick_powerUps_eq. unfold respawn. cbn [GameState.raceTime GameState.powerUps].
  destruct (Z.eqb_spec (Z.rem (GameState.raceTime g + 1) 600) 0) as [Hz | Hz].
  - destruct (Nat.ltb_spec
                (List.length
                   (filter (fun p => negb (PowerUp.collected p))
                      (fst (fst (stepPowerUps (GameState.powerUps g)
                         (snd (stepBottles (GameState.bottles g)
                                 (GameState.players g)))))))) 4) as [Hlt | Hge].
    + exists (firstn 2 (generatePowerUps e)).
      split; [ reflexivity | ]. split; [ apply stepPowerUps_sameless | ].
      right. auto.
    + exists []. rewrite app_nil_r.
      split; [ reflexivity | ]. split; [ apply stepPowerUps_sameless | left; reflexivity ].
  - exists []. rewrite app_nil_r.
    split; [ reflexivity | ]. split; [ apply stepPowerUps_sameless | left; reflexivity ].
Qed.

Lemma lapStep_eq (raceTime maxLaps : Z) (car : Car.t)
    (ended : bool) (winner : option SocketId) :
  lapStep raceTime maxLaps car ended winner
  = (if Car.isEliminated car then car
     else if crossesLine car && (Car.lap car <? maxLaps)%Z
          then Car.set_lap (Car.set_totalTime car raceTime) (Car.lap car + 1)
          else Car.set_totalTime car raceTime,
     ended || finishes maxLaps car,
     if finishes maxLaps car then Some (Car.playerId car) else winner).
Proof.
  unfold lapStep, finishes, crossesLine.
  destruct (Car.isEliminated car); [ rewrite orb_false_r; reflexivity | ].
  cbn [negb andb Car.position Car.velocity Car.set_totalTime Car.lap Car.playerId].
  destruct (Rltb _ 50 && Rltb _ 100 && Rgtb _ 0);
    [ | rewrite orb_false_r; reflexivity ].
  cbn [andb]. destruct (Car.lap car <? maxLaps)%Z;
    [ | rewrite orb_false_r; reflexivity ].
  cbn [andb Car.set_lap Car.lap Car.playerId].
  destruct (Car.lap car + 1 >=? maxLaps)%Z;
    [ rewrite orb_true_r | rewrite orb_false_r ]; reflexivity.
Qed.

(** X13: lap tracking in a tick.  Every car that is not eliminated gets the
    tick count as its total time; it gains a lap whenever it is in the corner
    x < 50, y < 100 with a positive x velocity and has laps left to do, on
    every tick it spends there; the session ends in this pass exactly when
    some car completes its last lap, and when several do so in the same tick
    the one that comes last in the list is recorded as winner. *)
Theorem trackLaps_result (raceTime maxLaps : Z) (cars : list Car.t)
    (ended : bool) (winner : option SocketId) :
  let result := trackLaps raceTime maxLaps cars ended winner in
  fst (fst result)
  = map (fun car =>
           if Car.isEliminated car then car
           else if crossesLine car && (Car.lap car <? maxLaps)%Z
                then Car.set_lap (Car.set_totalTime car raceTime) (Car.lap car + 1)
                else Car.set_totalTime car raceTime)
        cars
  /\ snd (fst result) = ended || existsb (finishes maxLaps) cars
  /\ snd result
     = match rev (filter (finishes maxLaps) cars) with
       | car :: _ => Some (Car.playerId car)
       | [] => winner
       end.
Proof.
  cbv zeta. revert ended winner.
  induction cars as [ | car rest IH]; intros ended winner.
  - simpl. rewrite orb_false_r. auto.
  - cbn [trackLaps]. rewrite lapStep_eq.
    specialize (IH (ended || finishes maxLaps car)
                   (if finishes maxLaps car then Some (Car.playerId car) else winner)).
    destruct (trackLaps raceTime maxLaps rest _ _) as [[r e'] w'].
    cbn [fst snd] in *. destruct IH as (-> & -> & ->).
    split; [ reflexivity | ]. split.
    + cbn [existsb]. rewrite orb_assoc. reflexivity.
    + cbn [filter]. destruct (finishes maxLaps car) eqn:Hf.
      * cbn [rev]. destruct (rev (filter (finishes maxLaps) rest)); reflexivity.
      * reflexivity.
Qed.

(** ** Lists built with an index *)

Lemma map_mapi {A B C : Type} (g : B -> C) (f : A -> nat -> B) (l : list A) :
  map g (mapi f l) = mapi (fun a i => g (f a i)) l.
Proof. unfold mapi. rewrite map_map. reflexivity. Qed.

Lemma mapi_ignore_index {A B : Type} (f : A -> B) (l : list A) :
  mapi (fun a _ => f a) l = map f l.
Proof.
  unfold mapi. generalize 0%nat. induction l as [ | a rest IH]; intros n; simpl;
    [ reflexivity | ].
  rewrite IH. reflexivity.
Qed.

(** ** Leaving *)

(** X16: a disconnect acts on one room only, the first in the registry that
    lists the socket: every other room stays exactly as it was, also one that
    lists the socket as a member or as its host; and the disconnect of a
    socket that no room lists changes nothing. *)
Theorem disconnect_first_room_only (socket : SocketId) (s : Server) :
  match roomOf socket s with
  | None => disconnect socket s = (s, [])
  | Some (roomId, _) =>
      forall other room,
        other <> roomId ->
        map_get (rooms s) other = Some room ->
        map_get (rooms (step s (Disconnect socket))) other = Some room
  end.
Proof.
  destruct (roomOf socket s) as [[roomId room] | ] eqn:Hfind.
  - intros other room' Hne Hget.
    rewrite (disconnect_eq socket s roomId room Hfind). cbv zeta.
    destruct (removeFirst _ (Room.players room)).
    + cbn [rooms set_rooms]. rewrite stopGameLoop_rooms.
      rewrite map_get_delete_other by congruence. exact Hget.
    + cbn [rooms set_rooms].
      rewrite map_get_set_other by congruence. exact Hget.
  - unfold disconnect. unfold roomOf in Hfind. rewrite Hfind. reflexivity.
Qed.

(** ** More that holds in every reachable state *)

Lemma createCar_fit (ref : nat) (carId : string) (playerId : SocketId)
    (playerName : string) (index : nat) :
  (index <= 12)%nat -> car_fit (createCar ref carId playerId playerName index).
Proof.
  intros Hle. unfold car_fit. rewrite createCar_position.
  unfold inBounds. cbn [Vec.x Vec.y createCar Car.bottles Car.lap].
  apply le_INR in Hle. replace (INR 12) with 12 in Hle by (simpl; lra).
  pose proof (pos_INR index). repeat split; try lra; lia.
Qed.

Lemma mapi_Forall_index {A B : Type} (P : B -> Prop) (f : A -> nat -> B) (l : list A) :
  (forall a i, (i < List.length l)%nat -> P (f a i)) -> Forall P (mapi f l).
Proof.
  intros H. unfold mapi. apply Forall_forall. intros b Hb.
  apply in_map_iff in Hb. destruct Hb as ([i a] & <- & Hin).
  apply in_combine_l in Hin. apply in_seq in Hin. apply H. simpl. lia.
Qed.

Lemma updateFirst_owners (f : Car.t -> bool) (car car' : Car.t) (cars : list Car.t) :
  find f cars = Some car -> Car.playerId car' = Car.playerId car ->
  map Car.playerId (updateFirst f car' cars) = map Car.playerId cars.
Proof.
  intros Hfind Hid. induction cars as [ | c rest IH]; simpl in *; [ discriminate | ].
  destruct (f c).
  - injection Hfind as ->. simpl. rewrite Hid. reflexivity.
  - simpl. rewrite IH by exact Hfind. reflexivity.
Qed.

Lemma updateFirst_Forall {A : Type} (P : A -> Prop) (f : A -> bool) (a : A)
    (l : list A) :
  Forall P l -> P a -> Forall P (updateFirst f a l).
Proof.
  intros Hall Ha. induction Hall as [ | h rest Hh Hrest IH]; simpl; [ constructor | ].
  destruct (f h); constructor; assumption.
Qed.

Lemma NoDup_map_filter {A B : Type} (g : A -> B) (f : A -> bool) (l : list A) :
  NoDup (map g l) -> NoDup (map g (filter f l)).
Proof.
  induction l as [ | a rest IH]; simpl; intros Hnd; [ constructor | ].
  inversion Hnd as [ | x xs Hnotin Hrest]; subst.
  destruct (f a); simpl; [ | apply IH; exact Hrest ].
  constructor; [ | apply IH; exact Hrest ].
  intros Hin. apply Hnotin. apply in_map_iff in Hin. destruct Hin as (b & Hb & Hin).
  apply filter_In in Hin. apply in_map_iff. exists b. split; [ exact Hb | apply Hin ].
Qed.

Lemma removeFirst_incl {A : Type} (f : A -> bool) (l : list A) (a : A) :
  In a (removeFirst f l) -> In a l.
Proof.
  induction l as [ | h rest IH]; simpl; [ contradiction | ].
  destruct (f h); [ intros H; right; exact H | ].
  intros [-> | H]; [ left; reflexivity | right; apply IH; exact H ].
Qed.

Lemma NoDup_map_removeFirst {A B : Type} (g : A -> B) (f : A -> bool) (l : list A) :
  NoDup (map g l) -> NoDup (map g (removeFirst f l)).
Proof.
  induction l as [ | a rest IH]; simpl; intros Hnd; [ constructor | ].
  inversion Hnd as [ | x xs Hnotin Hrest]; subst.
  destruct (f a); [ exact Hrest | ].
  simpl. constructor; [ | apply IH; exact Hrest ].
  intros Hin. apply Hnotin. apply in_map_iff in Hin. destruct Hin as (b & Hb & Hin).
  apply in_map_iff. exists b. split; [ exact Hb | ].
  eapply removeFirst_incl. exact Hin.
Qed.

Lemma removeFirst_length {A : Type} (f : A -> bool) (l : list A) :
  (List.length (removeFirst f l) <= List.length l)%nat.
Proof.
  induction l as [ | a rest IH]; simpl; [ lia | ].
  destruct (f a); simpl; lia.
Qed.

Lemma tick_session (e : Entropy) (g : GameState.t) :
  GameState.id (fst (tick e g)) = GameState.id g
  /\ GameState.maxLaps (fst (tick e g)) = GameState.maxLaps g
  /\ GameState.raceTime (fst (tick e g)) = (GameState.raceTime g + 1)%Z.
Proof.
  pose proof (tick_eq e g) as H. cbv zeta in H. rewrite H. cbn [fst].
  match goal with
  | |- GameState.id (respawn e ?x) = _ /\ _ =>
      destruct (respawn_fields e x) as (_ & _ & _ & _ & _ & -> & -> & ->)
  end.
  match goal with
  | |- GameState.id (lastStanding ?x) = _ /\ _ =>
      destruct (lastStanding_fields x) as (_ & _ & _ & _ & -> & -> & ->)
  end.
  repeat split; reflexivity.
Qed.

Lemma tick_fit (e : Entropy) (g : GameState.t) :
  GameState.maxLaps g = 3%Z ->
  Forall2 (fun car car' =>
             Car.playerId car' = Car.playerId car /\ (car_fit car -> car_fit car'))
          (GameState.players g) (GameState.players (fst (tick e g))).
Proof.
  intros Hlaps.
  apply (tick_rel _ 3%Z); [ | | | | | exact Hlaps ].
  - intros car. auto.
  - intros a b c [H1 H2] [K1 K2]. split; [ congruence | auto ].
  - intros bottle car _. unfold struck, car_fit. simpl.
    destruct (_ <=? 0)%Z; simpl; auto.
  - intros powerUp car _. unfold applyPowerUp, car_fit.
    destruct (PowerUp.type powerUp); simpl; split; try reflexivity; try tauto.
    intros (H1 & H2 & H3). repeat split; try apply H1; lia.
  - intros raceTime car ended winner. rewrite lapStep_eq. cbn [fst].
    destruct (Car.isEliminated car); [ auto | ].
    destruct (crossesLine car && (Car.lap car <? 3)%Z) eqn:Hc;
      unfold car_fit; simpl; split; try reflexivity; try tauto.
    apply andb_prop in Hc. destruct Hc as [_ Hlt]. apply Z.ltb_lt in Hlt.
    intros (H1 & H2 & H3). repeat split; try apply H1; lia.
Qed.

Lemma Forall2_fit (cars cars' : list Car.t) :
  Forall2 (fun car car' =>
             Car.playerId car' = Car.playerId car /\ (car_fit car -> car_fit car'))
          cars cars' ->
  map Car.playerId cars' = map Car.playerId cars
  /\ (Forall car_fit cars -> Forall car_fit cars').
Proof.
  induction 1 as [ | x y l l' [Hid Hfit] _ [IHid IHfit]]; simpl.
  - split; [ reflexivity | auto ].
  - split; [ rewrite Hid, IHid; reflexivity | ].
    intros Hall. inversion Hall; subst. constructor; auto.
Qed.

Lemma server_fit_get (s : Server) (roomId : RoomId) (room : Room.t) :
  server_fit s -> map_get (rooms s) roomId = Some room ->
  Room.id room = roomId /\ room_fit room.
Proof.
  intros Hs Hget. apply map_get_In in Hget.
  unfold server_fit in Hs. rewrite Forall_forall in Hs. exact (Hs _ Hget).
Qed.

Lemma step_fit (s : Server) (ev : Event) :
  server_ok s -> server_fit s -> server_fit (step s ev).
Proof.
  intros Hok Hs. unfold step.
  destruct ev as [sk roomName playerName r | sk r playerName
                 | sk r e | sk r keys bottleId | sk | h e | k]; cbn [handle fst].
  - (* createRoom *)
    unfold createRoom, server_fit. cbn [fst rooms set_rooms].
    apply Forall_map_set_entry; [ exact Hs | ].
    unfold room_fit, memberIds. simpl.
    repeat split; try constructor; try lia; auto. constructor.
  - (* joinRoom *)
    unfold joinRoom.
    destruct (map_get (rooms s) r) as [room | ] eqn:Hget; [ | exact Hs ].
    destruct (Nat.leb_spec (Room.maxPlayers room) (List.length (Room.players room)))
      as [Hfull | Hroom]; [ exact Hs | ].
    destruct (find _ (Room.players room)) eqn:Hfind; [ exact Hs | ].
    destruct (server_fit_get s r room Hs Hget)
      as (Hid & Hlen & Hmem & Hown & Hcars & Hlaps & Hgid & Htime & Hlobby).
    pose proof (Forall_map_get _ room_ok _ _ Hok Hget) as (_ & Hmax & _).
    unfold server_fit. cbn [fst rooms set_rooms].
    apply Forall_map_set_entry; [ exact Hs | ].
    cbn [fst snd]. split; [ exact Hid | ].
    unfold room_fit, memberIds. cbn [Room.players Room.set_players Room.gameState Room.id].
    split; [ rewrite length_app; simpl; lia | ].
    split; [ | repeat split; assumption ].
    rewrite map_app. cbn [map Player.id].
    apply NoDup_app; [ exact Hmem | constructor; [ intros [] | constructor ] | ].
    intros id Hin [<- | []].
    apply in_map_iff in Hin. destruct Hin as (p & Hp & Hin).
    eapply find_none in Hfind; [ | exact Hin ]. cbn beta in Hfind.
    rewrite Hp, String.eqb_refl in Hfind. discriminate.
  - (* startGame *)
    unfold startGame.
    destruct (map_get (rooms s) r) as [room | ] eqn:Hget; [ | exact Hs ].
    destruct (negb _ || _); [ exact Hs | ].
    destruct (server_fit_get s r room Hs Hget)
      as (Hid & Hlen & Hmem & Hown & Hcars & Hlaps & Hgid & Htime & Hlobby).
    unfold server_fit, startGameLoop. cbn [fst rooms].
    apply Forall_map_set_entry; [ exact Hs | ].
    cbn [fst snd]. split; [ exact Hid | ].
    unfold room_fit, memberIds.
    cbn [Room.players Room.gameState Room.set_gameState Room.id GameState.players
         GameState.maxLaps GameState.id GameState.raceTime GameState.gameStarted
         GameState.set_players GameState.set_powerUps GameState.set_gameStarted
         GameState.set_gameEnded GameState.set_raceTime].
    split; [ exact Hlen | ]. split; [ exact Hmem | ].
    split.
    { rewrite map_mapi. cbn [createCar Car.playerId].
      rewrite (mapi_ignore_index Player.id). exact Hmem. }
    split.
    { apply mapi_Forall_index. intros p i Hi. apply createCar_fit. lia. }
    repeat split; try assumption; try lia; try discriminate.
  - (* playerInput *)
    unfold playerInput.
    destruct (map_get (rooms s) r) as [room | ] eqn:Hget; [ | exact Hs ].
    destruct (negb (GameState.gameStarted (Room.gameState room))) eqn:Hst;
      [ exact Hs | ].
    destruct (find _ (GameState.players (Room.gameState room))) as [car | ] eqn:Hfind;
      [ | exact Hs ].
    destruct (Car.isEliminated car); [ exact Hs | ].
    destruct (server_fit_get s r room Hs Hget)
      as (Hid & Hlen & Hmem & Hown & Hcars & Hlaps & Hgid & Htime & Hlobby).
    apply negb_false_iff in Hst.
    assert (Hcar : car_fit car).
    { rewrite Forall_forall in Hcars. apply Hcars.
      apply find_some in Hfind. apply Hfind. }
    assert (Hnew : forall c, Car.playerId c = Car.playerId car ->
                     (0 <= Car.bottles c)%Z -> Car.lap c = Car.lap car ->
                     Car.playerId (updateCarPhysics c keys) = Car.playerId car
                     /\ car_fit (updateCarPhysics c keys)).
    { intros c H1 H2 H3.
      destruct (updateCarPhysics_fields c keys) as (K1 & _ & _ & _ & _ & _ & K7 & K8).
      split; [ congruence | ].
      unfold car_fit. rewrite K7, K8, H3.
      split; [ rewrite updateCarPhysics_steps; apply keepInBounds_inBounds | ].
      split; [ exact H2 | apply Hcar ]. }
    destruct (Keys.space keys && (0 <? Car.bottles car)%Z) eqn:Hfire;
      unfold server_fit; cbn [fst rooms set_rooms];
      (apply Forall_map_set_entry; [ exact Hs | ]);
      cbn [fst snd]; (split; [ exact Hid | ]);
      unfold room_fit, memberIds;
      cbn [Room.players Room.gameState Room.set_gameState Room.id GameState.players
           GameState.maxLaps GameState.id GameState.raceTime GameState.gameStarted
           GameState.set_players GameState.set_bottles].
    + apply andb_prop in Hfire. destruct Hfire as [_ Hb]. apply Z.ltb_lt in Hb.
      destruct (Hnew (Car.set_bottles car (Car.bottles car - 1)))
        as [Hn1 Hn2]; [ reflexivity | simpl; lia | reflexivity | ].
      split; [ exact Hlen | ]. split; [ exact Hmem | ].
      split; [ rewrite (updateFirst_owners _ car) by assumption; exact Hown | ].
      split; [ apply updateFirst_Forall; assumption | ].
      repeat split; try assumption; try congruence.
    + destruct (Hnew car) as [Hn1 Hn2]; [ reflexivity | apply Hcar | reflexivity | ].
      split; [ exact Hlen | ]. split; [ exact Hmem | ].
      split; [ rewrite (updateFirst_owners _ car) by assumption; exact Hown | ].
      split; [ apply updateFirst_Forall; assumption | ].
      repeat split; try assumption; try congruence.
  - (* disconnect *)
    unfold disconnect.
    destruct (find _ (rooms s)) as [[r room] | ] eqn:Hfind; [ | exact Hs ].
    apply find_some in Hfind. destruct Hfind as [Hin _].
    assert (Hroom : Room.id room = r /\ room_fit room).
    { unfold server_fit in Hs. rewrite Forall_forall in Hs. exact (Hs _ Hin). }
    destruct Hroom as (Hid & Hlen & Hmem & Hown & Hcars & Hlaps & Hgid & Htime & Hlobby).
    cbn [Room.players Room.set_players Room.set_gameState].
    destruct (List.length _ =? 0)%nat; cbn [fst].
    + unfold server_fit. cbn [rooms set_rooms]. rewrite stopGameLoop_rooms.
      apply Forall_map_delete_entry. exact Hs.
    + unfold server_fit. cbn [rooms set_rooms].
      apply Forall_map_set_entry; [ exact Hs | ].
      assert (Hfit : room_fit
                (Room.mk (Room.id room) (Room.name room)
                   (removeFirst (fun p => String.eqb (Player.id p) sk) (Room.players room))
                   (Room.maxPlayers room) (Room.host room)
                   (GameState.set_players (Room.gameState room)
                      (filter (fun p => negb (String.eqb (Car.playerId p) sk))
                              (GameState.players (Room.gameState room)))))).
      { unfold room_fit, memberIds.
        cbn [Room.players Room.gameState Room.id GameState.players GameState.maxLaps
             GameState.id GameState.raceTime GameState.gameStarted GameState.set_players].
        split; [ pose proof (removeFirst_length
                               (fun p => String.eqb (Player.id p) sk) (Room.players room));
                 lia | ].
        split; [ apply NoDup_map_removeFirst; exact Hmem | ].
        split; [ apply NoDup_map_filter; exact Hown | ].
        split; [ apply Forall_filter; exact Hcars | ].
        repeat split; try assumption.
        intros Hst. rewrite (Hlobby Hst). reflexivity. }
      cbn [fst snd].
      repeat match goal with
             | |- context [if ?c then _ else _] => destruct c
             | |- context [match ?c with Some _ => _ | None => _ end] => destruct c
             end; (split; [ exact Hid | exact Hfit ]).
  - (* an interval fires *)
    unfold fireInterval.
    destruct (find _ (intervals s)) as [[h' r] | ]; [ | exact Hs ].
    unfold updateGame.
    destruct (map_get (rooms s) r) as [room | ] eqn:Hget; [ | exact Hs ].
    destruct (negb (GameState.gameStarted (Room.gameState room))
              || GameState.gameEnded (Room.gameState room)) eqn:Hrun; [ exact Hs | ].
    apply orb_false_iff in Hrun. destruct Hrun as [Hst _].
    apply negb_false_iff in Hst.
    destruct (server_fit_get s r room Hs Hget)
      as (Hid & Hlen & Hmem & Hown & Hcars & Hlaps & Hgid & Htime & Hlobby).
    destruct (Forall2_fit _ _ (tick_fit e (Room.gameState room) Hlaps)) as [Hids Hfit].
    destruct (tick_session e (Room.gameState room)) as (Tid & Tlaps & Ttime).
    pose proof (tick_started e (Room.gameState room)) as Tst.
    destruct (tick e (Room.gameState room)) as [g ts]. cbn [fst] in *.
    assert (Hnew : Forall (fun entry : RoomId * Room.t =>
                             Room.id (snd entry) = fst entry /\ room_fit (snd entry))
                     (map_set (rooms s) r (Room.set_gameState room g))).
    { apply Forall_map_set_entry; [ exact Hs | ].
      cbn [fst snd]. split; [ exact Hid | ].
      unfold room_fit, memberIds.
      cbn [Room.players Room.gameState Room.set_gameState Room.id].
      rewrite Hids, Tid, Tlaps, Ttime, Tst.
      repeat split; try assumption; try lia; auto; try congruence. }
    destruct (GameState.gameEnded g); unfold server_fit; cbn [fst rooms];
      [ rewrite stopGameLoop_rooms | ]; exact Hnew.
  - (* a timeout fires *)
    unfold fireTimeout. destruct (nth_error (timeouts s) k) as [ref | ]; [ | exact Hs ].
    unfold server_fit in *. cbn [rooms]. apply Forall_map.
    eapply Forall_impl; [ | exact Hs ].
    intros [r room] (Hid & Hlen & Hmem & Hown & Hcars & Hlaps & Hgid & Htime & Hlobby).
    cbn [fst snd] in *. split; [ exact Hid | ].
    unfold room_fit, memberIds, expireSpeed.
    cbn [Room.players Room.gameState Room.set_gameState Room.id GameState.players
         GameState.maxLaps GameState.id GameState.raceTime GameState.gameStarted
         GameState.set_players].
    split; [ exact Hlen | ]. split; [ exact Hmem | ].
    split.
    { rewrite map_map.
      rewrite (map_ext _ Car.playerId); [ exact Hown | ].
      intros c. destruct (Nat.eqb (Car.ref c) ref); reflexivity. }
    split.
    { apply Forall_map. eapply Forall_impl; [ | exact Hcars ].
      intros c Hc. destruct (Nat.eqb (Car.ref c) ref); exact Hc. }
    repeat split; try assumption.
    intros Hst. rewrite (Hlobby Hst). reflexivity.
Qed.

Lemma reachable_fit (s : Server) : reachable s -> server_fit s.
Proof.
  induction 1 as [ | s ev Hreach IH].
  - constructor.
  - apply step_fit; [ apply reachable_ok; exact Hreach | exact IH ].
Qed.

(** X17: in every reachable state a room is registered under its own
    identifier, which its session carries too, and has between one and six
    members, no socket being listed twice. *)
Theorem room_members_bounded (s : Server) :
  reachable s ->
  forall roomId room,
    map_get (rooms s) roomId = Some room ->
    Room.id room = roomId
    /\ GameState.id (Room.gameState room) = roomId
    /\ (1 <= List.length (Room.players room) <= 6)%nat
    /\ NoDup (memberIds room).
Proof.
  intros Hreach roomId room Hget.
  destruct (server_fit_get s roomId room (reachable_fit s Hreach) Hget)
    as (Hid & Hlen & Hmem & _ & _ & _ & Hgid & _).
  pose proof (Forall_map_get _ room_ok _ _ (reachable_ok s Hreach) Hget)
    as ((p & rest & Hp & _) & _).
  split; [ exact Hid | ]. split; [ congruence | ].
  split; [ rewrite Hp in *; simpl in *; lia | exact Hmem ].
Qed.

Lemma find_only_owner (socket : SocketId) (cars : list Car.t) (car : Car.t) :
  NoDup (map Car.playerId cars) ->
  find (fun p => String.eqb (Car.playerId p) socket) cars = Some car ->
  filter (fun p => String.eqb (Car.playerId p) socket) cars = [car].
Proof.
  induction cars as [ | c rest IH]; intros Hown Hfind; [ discriminate | ].
  cbn [find filter map] in *. inversion Hown as [ | x xs Hnotin Hrest]; subst.
  destruct (String.eqb_spec (Car.playerId c) socket) as [Heq | Hne];
    [ | exact (IH Hrest Hfind) ].
  injection Hfind as ->. f_equal.
  clear IH Hown Hrest. induction rest as [ | d rest IH]; [ reflexivity | ].
  cbn [filter]. destruct (String.eqb_spec (Car.playerId d) socket) as [Hd | Hd].
  - exfalso. apply Hnotin. left. congruence.
  - apply IH. intros H. apply Hnotin. right. exact H.
Qed.

(** X18: in every reachable state the cars of a session belong to members
    of the room, and no member owns two of them: a session never holds more
    cars than the room has members, and the car that playerInput looks up for
    a socket is the only one that socket owns. *)
Theorem one_car_per_member (s : Server) :
  reachable s ->
  forall roomId room,
    map_get (rooms s) roomId = Some room ->
    let owners := map Car.playerId (GameState.players (Room.gameState room)) in
    NoDup owners
    /\ incl owners (memberIds room)
    /\ (List.length (GameState.players (Room.gameState room))
        <= List.length (Room.players room))%nat
    /\ forall socket car,
         find (fun p => String.eqb (Car.playerId p) socket)
              (GameState.players (Room.gameState room)) = Some car ->
         filter (fun p => String.eqb (Car.playerId p) socket)
                (GameState.players (Room.gameState room)) = [car].
Proof.
  intros Hreach roomId room Hget. cbv zeta.
  destruct (server_fit_get s roomId room (reachable_fit s Hreach) Hget)
    as (_ & _ & Hmem & Hown & _).
  pose proof (Forall_map_get _ room_ok _ _ (reachable_ok s Hreach) Hget)
    as (_ & _ & Hin & _).
  assert (Hincl : incl (map Car.playerId (GameState.players (Room.gameState room)))
                       (memberIds room)).
  { intros id Hid. apply in_map_iff in Hid. destruct Hid as (c & <- & Hc).
    rewrite Forall_forall in Hin. exact (Hin c Hc). }
  split; [ exact Hown | ]. split; [ exact Hincl | ]. split.
  - pose proof (NoDup_incl_length Hown Hincl) as Hle.
    unfold memberIds in Hle. rewrite !length_map in Hle. exact Hle.
  - intros socket car Hfind. exact (find_only_owner socket _ car Hown Hfind).
Qed.

(** X19: in every reachable state every car is inside the rectangle
    [20,780] x [20,580], has no negative ammunition, and has done between 0
    laps and the lap target of its session, which is 3. *)
Theorem cars_on_track (s : Server) :
  reachable s ->
  forall roomId room car,
    map_get (rooms s) roomId = Some room ->
    In car (GameState.players (Room.gameState room)) ->
    inBounds (Car.position car)
    /\ (0 <= Car.bottles car)%Z
    /\ (0 <= Car.lap car <= GameState.maxLaps (Room.gameState room))%Z
    /\ GameState.maxLaps (Room.gameState room) = 3%Z.
Proof.
  intros Hreach roomId room car Hget Hin.
  destruct (server_fit_get s roomId room (reachable_fit s Hreach) Hget)
    as (_ & _ & _ & _ & Hcars & Hlaps & _).
  rewrite Forall_forall in Hcars. destruct (Hcars car Hin) as (H1 & H2 & H3).
  rewrite Hlaps. auto.
Qed.


(** ** Loops *)

Lemma stopGameLoop_loops (roomId : RoomId) (s : Server) :
  NoDup (map fst (gameLoops s)) -> loops_ok s -> loops_ok (stopGameLoop roomId s).
Proof.
  intros Hkeys [Hnd Hreg]. unfold stopGameLoop.
  destruct (map_get (gameLoops s) roomId) as [h | ] eqn:Hget; [ | split; assumption ].
  unfold loops_ok. cbn [intervals gameLoops]. split.
  - apply NoDup_map_filter. exact Hnd.
  - intros r h' Hget'.
    destruct (String.eqb_spec roomId r) as [-> | Hne].
    + rewrite map_get_delete_same in Hget' by exact Hkeys. discriminate.
    + rewrite map_get_delete_other in Hget' by congruence.
      apply filter_In. split; [ apply Hreg; exact Hget' | ].
      cbn [fst]. apply negb_true_iff, Nat.eqb_neq. intros ->.
      (* one handle, two rooms *)
      pose proof (Hreg _ _ Hget) as H1. pose proof (Hreg _ _ Hget') as H2.
      apply Hne.
      clear - Hnd H1 H2. induction (intervals s) as [ | [h0 r0] rest IH];
        [ contradiction | ].
      cbn [map fst] in Hnd. inversion Hnd as [ | x xs Hnotin Hrest]; subst.
      destruct H1 as [H1 | H1], H2 as [H2 | H2].
      * congruence.
      * injection H1 as -> ->. exfalso. apply Hnotin.
        apply in_map_iff. exists (h, r). split; [ reflexivity | exact H2 ].
      * injection H2 as -> ->. exfalso. apply Hnotin.
        apply in_map_iff. exists (h, roomId). split; [ reflexivity | exact H1 ].
      * apply IH; assumption.
Qed.

Lemma step_loops (s : Server) (ev : Event) :
  keys_ok s -> handles_ok s -> loops_ok s -> loops_ok (step s ev).
Proof.
  intros [_ Hkeys] Hfresh Hl. unfold step.
  destruct ev as [sk roomName playerName r | sk r playerName
                 | sk r e | sk r keys bottleId | sk | h e | k]; cbn [handle fst].
  - exact Hl.
  - unfold joinRoom. destruct (map_get (rooms s) r); [ | exact Hl ].
    destruct (_ <=? _)%nat; [ exact Hl | ].
    destruct (find _ _); exact Hl.
  - unfold startGame. destruct (map_get (rooms s) r); [ | exact Hl ].
    destruct (negb _ || _); [ exact Hl | ].
    destruct Hl as [Hnd Hreg].
    unfold loops_ok, startGameLoop. cbn [fst intervals gameLoops nextHandle]. split.
    + rewrite map_app. cbn [map fst]. apply NoDup_app; [ exact Hnd | | ].
      * constructor; [ intros [] | constructor ].
      * intros h Hin [<- | []].
        unfold handles_ok in Hfresh. rewrite Forall_forall in Hfresh.
        apply in_map_iff in Hin. destruct Hin as (i & Hi & Hin).
        specialize (Hfresh i Hin). lia.
    + intros r' h Hget. apply in_or_app.
      destruct (String.eqb_spec r r') as [-> | Hne].
      * rewrite map_get_set_same in Hget. injection Hget as <-.
        right. left. reflexivity.
      * rewrite map_get_set_other in Hget by congruence. left. apply Hreg. exact Hget.
  - unfold playerInput. destruct (map_get (rooms s) r); [ | exact Hl ].
    destruct (negb _); [ exact Hl | ].
    destruct (find _ _) as [car | ]; [ | exact Hl ].
    destruct (Car.isEliminated car); [ exact Hl | ].
    destruct (Keys.space keys && _); exact Hl.
  - unfold disconnect. destruct (find _ (rooms s)) as [[r room] | ]; [ | exact Hl ].
    cbn [Room.players Room.set_players Room.set_gameState].
    destruct (_ =? 0)%nat; cbn [fst]; [ | exact Hl ].
    exact (stopGameLoop_loops r s Hkeys Hl).
  - unfold fireInterval. destruct (find _ (intervals s)) as [[h' r] | ]; [ | exact Hl ].
    unfold updateGame. destruct (map_get (rooms s) r); [ | exact Hl ].
    destruct (negb _ || _); [ exact Hl | ].
    destruct (tick e _) as [g ts].
    destruct (GameState.gameEnded g); cbn [fst]; [ | exact Hl ].
    match goal with
    | |- loops_ok (stopGameLoop r ?s') =>
        apply (stopGameLoop_loops r s'); [ exact Hkeys | exact Hl ]
    end.
  - unfold fireTimeout. destruct (nth_error (timeouts s) k); exact Hl.
Qed.

Lemma reachable_loops (s : Server) : reachable s -> loops_ok s.
Proof.
  induction 1 as [ | s ev Hreach IH].
  - split; [ constructor | intros r h H; discriminate ].
  - apply step_loops;
      [ apply reachable_keys | apply reachable_handles | ]; assumption.
Qed.

Lemma stopGameLoop_other (roomId other : RoomId) (s : Server) :
  other <> roomId ->
  map_get (gameLoops (stopGameLoop roomId s)) other = map_get (gameLoops s) other.
Proof.
  intros Hne. unfold stopGameLoop.
  destruct (map_get (gameLoops s) roomId); [ | reflexivity ].
  cbn [gameLoops]. apply map_get_delete_other. congruence.
Qed.

Lemma step_racing (s : Server) (ev : Event) :
  keys_ok s -> racing_ok s -> racing_ok (step s ev).
Proof.
  intros [Hkeys _] Hr. unfold step.
  destruct ev as [sk roomName playerName r | sk r playerName
                 | sk r e | sk r keys bottleId | sk | h e | k]; cbn [handle fst].
  - unfold createRoom, racing_ok. cbn [fst rooms gameLoops set_rooms].
    intros r' room' Hget Hst Hen. rewrite map_get_set in Hget.
    destruct (String.eqb r r'); [ | exact (Hr _ _ Hget Hst Hen) ].
    injection Hget as <-. discriminate.
  - unfold joinRoom. destruct (map_get (rooms s) r) as [room | ] eqn:Hget0;
      [ | exact Hr ].
    destruct (_ <=? _)%nat; [ exact Hr | ].
    destruct (find _ _); [ exact Hr | ].
    unfold racing_ok. cbn [fst rooms gameLoops set_rooms].
    intros r' room' Hget Hst Hen. rewrite map_get_set in Hget.
    destruct (String.eqb_spec r r') as [-> | Hne]; [ | exact (Hr _ _ Hget Hst Hen) ].
    injection Hget as <-. exact (Hr _ _ Hget0 Hst Hen).
  - unfold startGame. destruct (map_get (rooms s) r) as [room | ] eqn:Hget0;
      [ | exact Hr ].
    destruct (negb _ || _); [ exact Hr | ].
    unfold racing_ok, startGameLoop. cbn [fst rooms gameLoops].
    intros r' room' Hget Hst Hen. rewrite map_get_set in Hget.
    destruct (String.eqb_spec r r') as [-> | Hne].
    + rewrite map_get_set_same. eexists. reflexivity.
    + rewrite map_get_set_other by congruence. exact (Hr _ _ Hget Hst Hen).
  - unfold playerInput. destruct (map_get (rooms s) r) as [room | ] eqn:Hget0;
      [ | exact Hr ].
    destruct (negb _); [ exact Hr | ].
    destruct (find _ _) as [car | ]; [ | exact Hr ].
    destruct (Car.isEliminated car); [ exact Hr | ].
    destruct (Keys.space keys && _);
      unfold racing_ok; cbn [fst rooms gameLoops set_rooms];
      intros r' room' Hget Hst Hen; rewrite map_get_set in Hget;
      (destruct (String.eqb_spec r r') as [-> | Hne];
       [ injection Hget as <-; exact (Hr _ _ Hget0 Hst Hen)
       | exact (Hr _ _ Hget Hst Hen) ]).
  - unfold disconnect. destruct (find _ (rooms s)) as [[r room] | ] eqn:Hfind;
      [ | exact Hr ].
    apply find_some in Hfind. destruct Hfind as [Hin _].
    assert (Hget0 : map_get (rooms s) r = Some room).
    { clear - Hin Hkeys. induction (rooms s) as [ | [k v] rest IH];
        [ contradiction | ].
      cbn [map fst] in Hkeys. inversion Hkeys as [ | x xs Hnotin Hrest]; subst.
      cbn [map_get]. destruct Hin as [Heq | Hin].
      - injection Heq as -> ->. rewrite String.eqb_refl. reflexivity.
      - destruct (String.eqb_spec k r) as [-> | Hne]; [ | apply IH; assumption ].
        exfalso. apply Hnotin. apply in_map_iff.
        exists (r, room). split; [ reflexivity | exact Hin ]. }
    cbn [Room.players Room.set_players Room.set_gameState].
    destruct (_ =? 0)%nat; cbn [fst].
    + unfold racing_ok. cbn [rooms gameLoops set_rooms]. rewrite stopGameLoop_rooms.
      intros r' room' Hget Hst Hen.
      destruct (String.eqb_spec r r') as [-> | Hne].
      * rewrite map_get_delete_same in Hget by exact Hkeys. discriminate.
      * rewrite stopGameLoop_other by congruence.
        rewrite map_get_delete_other in Hget by congruence. exact (Hr _ _ Hget Hst Hen).
    + unfold racing_ok. cbn [rooms gameLoops set_rooms].
      intros r' room' Hget Hst Hen. rewrite map_get_set in Hget.
      destruct (String.eqb_spec r r') as [-> | Hne]; [ | exact (Hr _ _ Hget Hst Hen) ].
      injection Hget as <-. apply (Hr _ _ Hget0).
      * revert Hst. clear.
        repeat match goal with
               | |- context [if ?c then _ else _] => destruct c
               | |- context [match ?c with Some _ => _ | None => _ end] => destruct c
               | |- context [match ?c with [] => _ | _ :: _ => _ end] => destruct c
               end; intros H; exact H.
      * revert Hen. clear.
        repeat match goal with
               | |- context [if ?c then _ else _] => destruct c
               | |- context [match ?c with Some _ => _ | None => _ end] => destruct c
               | |- context [match ?c with [] => _ | _ :: _ => _ end] => destruct c
               end; intros H; exact H.
  - unfold fireInterval. destruct (find _ (intervals s)) as [[h' r] | ]; [ | exact Hr ].
    unfold updateGame. destruct (map_get (rooms s) r) as [room | ] eqn:Hget0;
      [ | exact Hr ].
    destruct (negb _ || _) eqn:Hflags; [ exact Hr | ].
    apply orb_false_iff in Hflags. destruct Hflags as [Hst0 Hen0].
    apply negb_false_iff in Hst0.
    pose proof (tick_started e (Room.gameState room)) as Hstarted.
    destruct (tick e (Room.gameState room)) as [g ts]. cbn [fst] in Hstarted.
    destruct (GameState.gameEnded g) eqn:Hended; cbn [fst].
    + unfold racing_ok. rewrite stopGameLoop_rooms. cbn [rooms].
      intros r' room' Hget Hst Hen. rewrite map_get_set in Hget.
      destruct (String.eqb_spec r r') as [-> | Hne].
      * injection Hget as <-. cbn [Room.gameState Room.set_gameState] in Hen.
        congruence.
      * rewrite stopGameLoop_other by congruence. cbn [gameLoops].
        exact (Hr _ _ Hget Hst Hen).
    + unfold racing_ok. cbn [rooms gameLoops].
      intros r' room' Hget Hst Hen. rewrite map_get_set in Hget.
      destruct (String.eqb_spec r r') as [-> | Hne]; [ | exact (Hr _ _ Hget Hst Hen) ].
      exact (Hr _ _ Hget0 Hst0 Hen0).
  - unfold fireTimeout. destruct (nth_error (timeouts s) k) as [ref | ]; [ | exact Hr ].
    unfold racing_ok. cbn [rooms gameLoops].
    intros r' room' Hget Hst Hen. rewrite map_get_map in Hget.
    destruct (map_get (rooms s) r') as [room | ] eqn:Hget0; [ | discriminate ].
    injection Hget as <-. exact (Hr _ _ Hget0 Hst Hen).
Qed.

Lemma reachable_racing (s : Server) : reachable s -> racing_ok s.
Proof.
  induction 1 as [ | s ev Hreach IH].
  - intros r room H. discriminate.
  - apply step_racing; [ apply reachable_keys | ]; assumption.
Qed.

(** X21: in every reachable state a session that is racing (started and not
    ended) has a loop registered for its room, and that loop is a live
    interval whose firing updates that very room; so a race that is under way
    can always go on. *)
Theorem racing_session_is_ticked (s : Server) :
  reachable s ->
  forall roomId room,
    map_get (rooms s) roomId = Some room ->
    GameState.gameStarted (Room.gameState room) = true ->
    GameState.gameEnded (Room.gameState room) = false ->
    exists h,
      map_get (gameLoops s) roomId = Some h
      /\ In (h, roomId) (intervals s)
      /\ forall e, fireInterval h e s = updateGame roomId e s.
Proof.
  intros Hreach roomId room Hget Hst Hen.
  destruct (reachable_racing s Hreach roomId room Hget Hst Hen) as [h Hh].
  destruct (reachable_loops s Hreach) as [Hnd Hreg].
  pose proof (Hreg _ _ Hh) as Hin.
  exists h. split; [ exact Hh | ]. split; [ exact Hin | ].
  intros e. unfold fireInterval.
  assert (Hfind : find (fun i : nat * RoomId => Nat.eqb (fst i) h) (intervals s)
                  = Some (h, roomId)).
  { clear - Hnd Hin. induction (intervals s) as [ | [h0 r0] rest IH];
      [ contradiction | ].
    cbn [map fst] in Hnd. inversion Hnd as [ | x xs Hnotin Hrest]; subst.
    cbn [find fst]. destruct Hin as [Heq | Hin].
    - injection Heq as -> ->. rewrite Nat.eqb_refl. reflexivity.
    - destruct (Nat.eqb_spec h0 h) as [-> | Hne]; [ | apply IH; assumption ].
      exfalso. apply Hnotin. apply in_map_iff.
      exists (h, roomId). split; [ reflexivity | exact Hin ]. }
  rewrite Hfind. reflexivity.
Qed.

(** ** Who is in which room *)

Lemma map_map_set {V B : Type} (g : string * V -> B)
    (m : list (string * V)) (k : string) (v v' : V) :
  map_get m k = Some v -> g (k, v') = g (k, v) ->
  map g (map_set m k v') = map g m.
Proof.
  intros Hget Hg. induction m as [ | [k0 v0] rest IH]; [ discriminate | ].
  cbn [map_get map_set] in *.
  destruct (String.eqb_spec k0 k) as [-> | Hne]; cbn [map].
  - injection Hget as ->. rewrite Hg. reflexivity.
  - rewrite IH by exact Hget. reflexivity.
Qed.

Lemma membership_set (s s' : Server) (roomId : RoomId) (room room' : Room.t) :
  map_get (rooms s) roomId = Some room ->
  rooms s' = map_set (rooms s) roomId room' ->
  Room.name room' = Room.name room ->
  Room.players room' = Room.players room ->
  Room.maxPlayers room' = Room.maxPlayers room ->
  Room.host room' = Room.host room ->
  membership s' = membership s.
Proof.
  intros Hget Hrooms H1 H2 H3 H4. unfold membership. rewrite Hrooms.
  apply (map_map_set _ _ _ room); [ exact Hget | ].
  cbn [fst snd]. rewrite H1, H2, H3, H4. reflexivity.
Qed.

(** X22: the members, the host, the name and the capacity of the rooms, and
    the set of rooms itself, change only on a createRoom request, a joinRoom
    request or a disconnect: a start request, a player input, a tick of a
    game loop and the expiry of a boost leave them all as they are. *)
Theorem membership_changes_on_join_or_leave (s : Server) (ev : Event) :
  membership (step s ev) <> membership s ->
  (exists socket roomName playerName roomId,
      ev = CreateRoom socket roomName playerName roomId)
  \/ (exists socket roomId playerName, ev = JoinRoom socket roomId playerName)
  \/ (exists socket, ev = Disconnect socket).
Proof.
  intros Hchange.
  destruct ev as [sk roomName playerName r | sk r playerName
                 | sk r e | sk r keys bottleId | sk | h e | k].
  - left. eauto.
  - right. left. eauto.
  - exfalso. apply Hchange. unfold step. cbn [handle]. unfold startGame.
    destruct (map_get (rooms s) r) as [room | ] eqn:Hget; [ | reflexivity ].
    destruct (negb _ || _); [ reflexivity | ].
    cbn [fst]. eapply membership_set; [ exact Hget | reflexivity | .. ]; reflexivity.
  - exfalso. apply Hchange. unfold step. cbn [handle]. unfold playerInput.
    destruct (map_get (rooms s) r) as [room | ] eqn:Hget; [ | reflexivity ].
    destruct (negb _); [ reflexivity | ].
    destruct (find _ _) as [car | ]; [ | reflexivity ].
    destruct (Car.isEliminated car); [ reflexivity | ].
    destruct (Keys.space keys && _); cbn [fst];
      (eapply membership_set; [ exact Hget | reflexivity | .. ]; reflexivity).
  - right. right. eauto.
  - exfalso. apply Hchange. unfold step. cbn [handle]. unfold fireInterval.
    destruct (find _ (intervals s)) as [[h' r] | ]; [ | reflexivity ].
    unfold updateGame.
    destruct (map_get (rooms s) r) as [room | ] eqn:Hget; [ | reflexivity ].
    destruct (negb _ || _); [ reflexivity | ].
    destruct (tick e (Room.gameState room)) as [g ts].
    destruct (GameState.gameEnded g); cbn [fst];
      (eapply membership_set;
       [ exact Hget | try rewrite stopGameLoop_rooms; reflexivity | .. ]; reflexivity).
  - exfalso. apply Hchange. unfold step. cbn [handle fst]. unfold fireTimeout.
    destruct (nth_error (timeouts s) k) as [ref | ]; [ | reflexivity ].
    unfold membership. cbn [rooms]. rewrite map_map. apply map_ext.
    intros [r room]. reflexivity.
Qed.

(** ** Speed boosts *)













(** * Properties of the client *)

(** ** Callbacks *)

Lemma removeFirst_none {A : Type} (f : A -> bool) (l : list A) :
  existsb f l = false -> removeFirst f l = l.
Proof.
  induction l as [ | a rest IH]; cbn [existsb removeFirst]; [ reflexivity | ].
  destruct (f a); [ discriminate | ]. intros H. rewrite IH by exact H. reflexivity.
Qed.

Lemma removeFirst_app_found {A : Type} (f : A -> bool) (l l' : list A) :
  existsb f l = true -> removeFirst f (l ++ l') = (removeFirst f l ++ l')%list.
Proof.
  induction l as [ | a rest IH]; cbn [existsb removeFirst app]; [ discriminate | ].
  destruct (f a); [ reflexivity | ]. intros H. rewrite IH by exact H. reflexivity.
Qed.

Lemma removeFirst_app_last {A : Type} (f : A -> bool) (l : list A) (a : A) :
  existsb f l = false -> f a = true -> removeFirst f (l ++ [a]) = l.
Proof.
  induction l as [ | b rest IH]; cbn [existsb removeFirst app]; intros H Ha.
  - rewrite Ha. reflexivity.
  - destruct (f b); [ discriminate | ]. rewrite IH by assumption. reflexivity.
Qed.

Lemma count_occ_removeFirst (cb c : nat) (l : list nat) :
  count_occ Nat.eq_dec (removeFirst (Nat.eqb cb) l) c
  = if Nat.eq_dec c cb then Nat.pred (count_occ Nat.eq_dec l c)
    else count_occ Nat.eq_dec l c.
Proof.
  induction l as [ | a rest IH]; cbn [removeFirst count_occ].
  - destruct (Nat.eq_dec c cb); reflexivity.
  - destruct (Nat.eqb_spec cb a) as [<- | Hne].
    + destruct (Nat.eq_dec cb c) as [<- | Hc].
      * destruct (Nat.eq_dec cb cb); [ reflexivity | contradiction ].
      * destruct (Nat.eq_dec c cb); [ congruence | reflexivity ].
    + cbn [count_occ]. rewrite IH.
      destruct (Nat.eq_dec a c) as [<- | Hc].
      * destruct (Nat.eq_dec a cb); [ congruence | reflexivity ].
      * reflexivity.
Qed.

Lemma on_table (event : string) (callback : SocketService.Callback)
    (sv : SocketService.t) :
  SocketService.callbacks (SocketService.on event callback sv)
  = match map_get (SocketService.callbacks sv) event with
    | Some registered =>
        map_set (SocketService.callbacks sv) event (registered ++ [callback])%list
    | None =>
        map_set (map_set (SocketService.callbacks sv) event []) event [callback]
    end.
Proof.
  unfold SocketService.on.
  destruct (map_get (SocketService.callbacks sv) event) as [registered | ] eqn:Hget.
  - rewrite Hget. reflexivity.
  - rewrite map_get_set_same. reflexivity.
Qed.

Lemma on_trigger (event : string) (callback : SocketService.Callback)
    (sv : SocketService.t) :
  SocketService.triggerCallbacks event (SocketService.on event callback sv)
  = (SocketService.triggerCallbacks event sv ++ [callback])%list.
Proof.
  unfold SocketService.triggerCallbacks. rewrite on_table.
  destruct (map_get (SocketService.callbacks sv) event) as [registered | ];
    rewrite map_get_set_same; reflexivity.
Qed.

(** X24: the callbacks registered for an event are called in the order of
    their registration, a callback registered twice being called twice; a
    registration touches no other event and not the socket; and after
    disconnect() no callback is called for any event. *)
Theorem callbacks_registration (event : string) (callback : SocketService.Callback)
    (sv : SocketService.t) :
  SocketService.triggerCallbacks event (SocketService.on event callback sv)
  = (SocketService.triggerCallbacks event sv ++ [callback])%list
  /\ (forall other,
        other <> event ->
        SocketService.triggerCallbacks other (SocketService.on event callback sv)
        = SocketService.triggerCallbacks other sv)
  /\ SocketService.socket (SocketService.on event callback sv) = SocketService.socket sv
  /\ (forall any,
        SocketService.triggerCallbacks any
          (SocketService.disconnect (SocketService.on event callback sv)) = []).
Proof.
  split; [ apply on_trigger | ]. split; [ | split ].
  - intros other Hne. unfold SocketService.triggerCallbacks. rewrite on_table.
    destruct (map_get (SocketService.callbacks sv) event) as [registered | ];
      repeat rewrite map_get_set_other by exact Hne; reflexivity.
  - unfold SocketService.on.
    destruct (map_get (SocketService.callbacks sv) event) as [registered | ] eqn:Hget.
    + rewrite Hget. reflexivity.
    + rewrite map_get_set_same. reflexivity.
  - intros any. reflexivity.
Qed.

Lemma off_trigger (event : string) (callback : SocketService.Callback)
    (sv : SocketService.t) :
  SocketService.triggerCallbacks event (SocketService.off event callback sv)
  = removeFirst (Nat.eqb callback) (SocketService.triggerCallbacks event sv).
Proof.
  unfold SocketService.triggerCallbacks, SocketService.off.
  destruct (map_get (SocketService.callbacks sv) event) as [registered | ] eqn:Hget;
    [ | rewrite Hget; reflexivity ].
  destruct (existsb (Nat.eqb callback) registered) eqn:Hex.
  - cbn [SocketService.callbacks]. rewrite map_get_set_same. reflexivity.
  - rewrite Hget, removeFirst_none by exact Hex. reflexivity.
Qed.

Lemma existsb_eqb_In (callback : nat) (l : list nat) :
  existsb (Nat.eqb callback) l = true <-> In callback l.
Proof.
  rewrite existsb_exists. split.
  - intros (x & Hin & Heq). apply Nat.eqb_eq in Heq. subst. exact Hin.
  - intros Hin. exists callback. split; [ exact Hin | apply Nat.eqb_refl ].
Qed.

(** X25: off() removes one registration of the callback for the event, the
    earliest, and touches no other callback and no other event; for a
    callback that is not registered for the event it changes nothing.  So a
    registration followed by its removal leaves the calls for the event as
    they were when the callback was not registered before, and otherwise
    moves the callback to the end of the calls. *)
Theorem callbacks_unregistration (event : string) (callback : SocketService.Callback)
    (sv : SocketService.t) :
  (forall other,
      other <> event ->
      SocketService.triggerCallbacks other (SocketService.off event callback sv)
      = SocketService.triggerCallbacks other sv)
  /\ (forall c,
        count_occ Nat.eq_dec
          (SocketService.triggerCallbacks event (SocketService.off event callback sv)) c
        = if Nat.eq_dec c callback
          then Nat.pred (count_occ Nat.eq_dec (SocketService.triggerCallbacks event sv) c)
          else count_occ Nat.eq_dec (SocketService.triggerCallbacks event sv) c)
  /\ (~ In callback (SocketService.triggerCallbacks event sv) ->
      SocketService.off event callback sv = sv)
  /\ SocketService.triggerCallbacks event
       (SocketService.off event callback (SocketService.on event callback sv))
     = if existsb (Nat.eqb callback) (SocketService.triggerCallbacks event sv)
       then (removeFirst (Nat.eqb callback) (SocketService.triggerCallbacks event sv)
               ++ [callback])%list
       else SocketService.triggerCallbacks event sv.
Proof.
  split; [ | split; [ | split ] ].
  - intros other Hne. unfold SocketService.triggerCallbacks, SocketService.off.
    destruct (map_get (SocketService.callbacks sv) event) as [registered | ];
      [ | reflexivity ].
    destruct (existsb (Nat.eqb callback) registered); [ | reflexivity ].
    cbn [SocketService.callbacks]. rewrite map_get_set_other by exact Hne. reflexivity.
  - intros c. rewrite off_trigger. apply count_occ_removeFirst.
  - intros Hnot. unfold SocketService.off, SocketService.triggerCallbacks in *.
    destruct (map_get (SocketService.callbacks sv) event) as [registered | ];
      [ | reflexivity ].
    destruct (existsb (Nat.eqb callback) registered) eqn:Hex; [ | reflexivity ].
    apply existsb_eqb_In in Hex. contradiction.
  - rewrite off_trigger, on_trigger.
    destruct (existsb (Nat.eqb callback) (SocketService.triggerCallbacks event sv))
      eqn:Hex.
    + apply removeFirst_app_found. exact Hex.
    + apply removeFirst_app_last; [ exact Hex | apply Nat.eqb_refl ].
Qed.

(** ** Standings *)

Lemma compare_neg (a b : Car.t) :
  GameOverScreen.compare b a = (- GameOverScreen.compare a b)%Z.
Proof.
  unfold GameOverScreen.compare.
  destruct (Car.isEliminated a), (Car.isEliminated b); cbn [andb negb];
    try reflexivity;
    destruct (Z.eqb_spec (Car.lap a) (Car.lap b)) as [Heq | Hne];
    destruct (Z.eqb_spec (Car.lap b) (Car.lap a)); cbn [negb]; lia.
Qed.

Lemma compare_trans (a b c : Car.t) :
  (GameOverScreen.compare a b <= 0)%Z -> (GameOverScreen.compare b c <= 0)%Z ->
  (GameOverScreen.compare a c <= 0)%Z.
Proof.
  unfold GameOverScreen.compare.
  destruct (Car.isEliminated a), (Car.isEliminated b), (Car.isEliminated c);
    cbn [andb negb]; try lia;
    destruct (Z.eqb_spec (Car.lap a) (Car.lap b));
    destruct (Z.eqb_spec (Car.lap b) (Car.lap c));
    destruct (Z.eqb_spec (Car.lap a) (Car.lap c)); cbn [negb]; lia.
Qed.

(** X27: the comparator of the standings is consistent, so the sorted order
    is well defined: swapping its arguments negates the result, it is
    transitive, and two cars compare equal exactly when they agree on being
    eliminated, on their laps and on their total time.  Cars still in the
    race come before eliminated ones, then more laps come first, then the
    smaller total time. *)
Theorem compare_consistent (a b c : Car.t) :
  GameOverScreen.compare b a = (- GameOverScreen.compare a b)%Z
  /\ ((GameOverScreen.compare a b <= 0)%Z -> (GameOverScreen.compare b c <= 0)%Z ->
      (GameOverScreen.compare a c <= 0)%Z)
  /\ (GameOverScreen.compare a b = 0%Z
      <-> Car.isEliminated a = Car.isEliminated b
          /\ Car.lap a = Car.lap b /\ Car.totalTime a = Car.totalTime b)
  /\ ((GameOverScreen.compare a b < 0)%Z
      <-> (Car.isEliminated a = false /\ Car.isEliminated b = true)
          \/ (Car.isEliminated a = Car.isEliminated b
              /\ ((Car.lap b < Car.lap a)%Z
                  \/ (Car.lap a = Car.lap b
                      /\ (Car.totalTime a < Car.totalTime b)%Z)))).
Proof.
  split; [ apply compare_neg | ]. split; [ apply compare_trans | ].
  unfold GameOverScreen.compare.
  destruct (Car.isEliminated a), (Car.isEliminated b); cbn [andb negb];
    destruct (Z.eqb_spec (Car.lap a) (Car.lap b)); cbn [negb];
    (split; split; intros H;
     repeat match goal with
            | H : _ /\ _ |- _ => destruct H
            | H : _ \/ _ |- _ => destruct H
            end;
     try discriminate; try lia; try tauto;
     try (right; split; [ reflexivity | lia ])).
Qed.

Lemma insert_perm (a : Car.t) (l : list Car.t) :
  Permutation (a :: l) (GameOverScreen.insert a l).
Proof.
  induction l as [ | b rest IH]; cbn [GameOverScreen.insert]; [ reflexivity | ].
  destruct (GameOverScreen.compare a b <=? 0)%Z; [ reflexivity | ].
  rewrite perm_swap. apply perm_skip. exact IH.
Qed.

Lemma sortedPlayers_perm (players : list Car.t) :
  Permutation players (GameOverScreen.sortedPlayers players).
Proof.
  induction players as [ | a rest IH]; cbn [GameOverScreen.sortedPlayers fold_right];
    [ reflexivity | ].
  rewrite <- insert_perm. apply perm_skip. exact IH.
Qed.

Lemma insert_sorted (a : Car.t) (l : list Car.t) :
  StronglySorted (fun x y => (GameOverScreen.compare x y <= 0)%Z) l ->
  StronglySorted (fun x y => (GameOverScreen.compare x y <= 0)%Z)
                 (GameOverScreen.insert a l).
Proof.
  induction 1 as [ | b rest Hrest IH Hb]; cbn [GameOverScreen.insert].
  - constructor; constructor.
  - destruct (Z.leb_spec (GameOverScreen.compare a b) 0) as [Hle | Hgt].
    + constructor; [ constructor; assumption | ].
      constructor; [ exact Hle | ].
      rewrite Forall_forall in *. intros x Hx.
      eapply compare_trans; [ exact Hle | apply Hb; exact Hx ].
    + constructor; [ exact IH | ].
      rewrite Forall_forall in *. intros x Hx.
      apply (Permutation_in _ (Permutation_sym (insert_perm a rest))) in Hx.
      destruct Hx as [<- | Hx]; [ | apply Hb; exact Hx ].
      rewrite compare_neg. lia.
Qed.

Lemma sortedPlayers_sorted (players : list Car.t) :
  StronglySorted (fun x y => (GameOverScreen.compare x y <= 0)%Z)
                 (GameOverScreen.sortedPlayers players).
Proof.
  induction players as [ | a rest IH]; cbn [GameOverScreen.sortedPlayers fold_right].
  - constructor.
  - apply insert_sorted. exact IH.
Qed.

Lemma findIndex_range {A : Type} (f : A -> bool) (l : list A) :
  (-1 <= GameOverScreen.findIndex f l < Z.of_nat (List.length l))%Z
  /\ (GameOverScreen.findIndex f l = (-1)%Z <-> existsb f l = false).
Proof.
  induction l as [ | a rest [IH1 IH2]]; cbn [GameOverScreen.findIndex existsb List.length].
  - split; [ lia | tauto ].
  - destruct (f a); cbn [orb].
    + split; [ lia | split; [ lia | discriminate ] ].
    + destruct (Z.ltb_spec (GameOverScreen.findIndex f rest) 0) as [Hlt | Hge].
      * split; [ lia | ]. split; [ intros _; apply IH2; lia | reflexivity ].
      * split; [ lia | ]. split; [ lia | ].
        intros H. apply IH2 in H. lia.
Qed.

(** X28: the standings shown when the game is over list every car of the
    session exactly once, ordered by the comparator.  The car shown as winner
    is the first of them: there is none only when the session has no car, and
    when some car is still in the race the winner is too, no car in the race
    has more laps, and none with as many laps has a smaller total time.  The
    place of the player is between 0 and the number of cars, and it is 0
    exactly when the player has no car in the session. *)
Theorem standings_sorted (playerId : SocketId) (players : list Car.t) :
  Permutation players (GameOverScreen.sortedPlayers players)
  /\ StronglySorted (fun x y => (GameOverScreen.compare x y <= 0)%Z)
                    (GameOverScreen.sortedPlayers players)
  /\ match GameOverScreen.winner players with
     | None => players = []
     | Some first =>
         In first players
         /\ forall car,
              In car players -> Car.isEliminated car = false ->
              Car.isEliminated first = false
              /\ (Car.lap car <= Car.lap first)%Z
              /\ (Car.lap car = Car.lap first ->
                  (Car.totalTime first <= Car.totalTime car)%Z)
     end
  /\ (0 <= GameOverScreen.playerPosition playerId players
      <= Z.of_nat (List.length players))%Z
  /\ (GameOverScreen.playerPosition playerId players = 0%Z
      <-> ~ In playerId (map Car.playerId players)).
Proof.
  pose proof (sortedPlayers_perm players) as Hperm.
  pose proof (sortedPlayers_sorted players) as Hsorted.
  split; [ exact Hperm | ]. split; [ exact Hsorted | ]. split; [ | split ].
  - unfold GameOverScreen.winner.
    destruct (GameOverScreen.sortedPlayers players) as [ | first rest];
      cbn [nth_error].
    + apply Permutation_sym, Permutation_nil in Hperm. exact Hperm.
    + split; [ apply (Permutation_in _ (Permutation_sym Hperm)); left; reflexivity | ].
      intros car Hin Hrace.
      apply (Permutation_in _ Hperm) in Hin.
      assert (Hle : (GameOverScreen.compare first car <= 0)%Z).
      { destruct Hin as [<- | Hin].
        - pose proof (compare_neg first first). lia.
        - inversion Hsorted as [ | x xs _ Hall]; subst.
          rewrite Forall_forall in Hall. exact (Hall _ Hin). }
      revert Hle. unfold GameOverScreen.compare. rewrite Hrace.
      destruct (Car.isEliminated first); cbn [andb negb]; [ lia | ].
      destruct (Z.eqb_spec (Car.lap first) (Car.lap car)); cbn [negb]; lia.
  - unfold GameOverScreen.playerPosition.
    destruct (findIndex_range (fun p => String.eqb (Car.playerId p) playerId)
                (GameOverScreen.sortedPlayers players)) as [Hrange _].
    rewrite <- (Permutation_length Hperm) in Hrange. lia.
  - unfold GameOverScreen.playerPosition.
    destruct (findIndex_range (fun p => String.eqb (Car.playerId p) playerId)
                (GameOverScreen.sortedPlayers players)) as [_ Hnone].
    split.
    + intros H0 Hin. assert (Hex : existsb (fun p => String.eqb (Car.playerId p) playerId)
                                     (GameOverScreen.sortedPlayers players) = false)
        by (apply Hnone; lia).
      apply in_map_iff in Hin. destruct Hin as (car & Hid & Hin).
      apply (Permutation_in _ Hperm) in Hin.
      assert (Htrue : existsb (fun p => String.eqb (Car.playerId p) playerId)
                        (GameOverScreen.sortedPlayers players) = true).
      { apply existsb_exists. exists car. split; [ exact Hin | ].
        rewrite Hid. apply String.eqb_refl. }
      congruence.
    + intros Hnot.
      destruct (existsb (fun p => String.eqb (Car.playerId p) playerId)
                  (GameOverScreen.sortedPlayers players)) eqn:Hex.
      * exfalso. apply Hnot. apply existsb_exists in Hex.
        destruct Hex as (car & Hin & Heq). apply String.eqb_eq in Heq.
        apply in_map_iff. exists car. split; [ exact Heq | ].
        apply (Permutation_in _ (Permutation_sym Hperm)). exact Hin.
      * assert (GameOverScreen.findIndex
                  (fun p => String.eqb (Car.playerId p) playerId)
                  (GameOverScreen.sortedPlayers players) = (-1)%Z)
          by (apply Hnone; reflexivity).
        lia.
Qed.

(** ** The registry of the game service *)

Lemma map_set_same {V : Type} (m : list (string * V)) (k : string) (v : V) :
  map_get m k = Some v -> map_set m k v = m.
Proof.
  induction m as [ | [k0 v0] rest IH]; cbn [map_get map_set]; [ discriminate | ].
  destruct (String.eqb_spec k0 k) as [-> | Hne].
  - intros [= ->]. reflexivity.
  - intros H. rewrite IH by exact H. reflexivity.
Qed.

Lemma map_set_twice {V : Type} (m : list (string * V)) (k : string) (v v' : V) :
  map_set (map_set m k v) k v' = map_set m k v'.
Proof.
  induction m as [ | [k0 v0] rest IH]; cbn [map_set].
  - rewrite String.eqb_refl. reflexivity.
  - destruct (String.eqb k0 k) eqn:E; cbn [map_set]; rewrite E;
      [ reflexivity | rewrite IH; reflexivity ].
Qed.

Lemma filter_all {A : Type} (f : A -> bool) (l : list A) :
  (forall a, In a l -> f a = true) -> filter f l = l.
Proof.
  induction l as [ | a rest IH]; cbn [filter]; intros H; [ reflexivity | ].
  rewrite (H a) by (left; reflexivity). rewrite IH; [ reflexivity | ].
  intros b Hb. apply H. right. exact Hb.
Qed.

Lemma existsb_eqb_string (id : string) (l : list string) :
  existsb (String.eqb id) l = true <-> In id l.
Proof.
  rewrite existsb_exists. split.
  - intros (x & Hin & Heq). apply String.eqb_eq in Heq. subst. exact Hin.
  - intros Hin. exists id. split; [ exact Hin | apply String.eqb_refl ].
Qed.

(** X29: the game service refuses to join (answer null, nothing changed) a
    room that does not exist or that is full, also for a player who is a
    member of the full room; a member of a room that is not full gets the
    room back unchanged; anyone else is added at the end of the member list,
    the rest of the room staying as it was.  Joining again changes nothing,
    and is answered with null when the first join filled the room. *)
Theorem gameService_join (roomId : RoomId) (playerId : string) (sv : GameService.t) :
  let result := GameService.joinRoom roomId playerId sv in
  match GameService.getRoom roomId sv with
  | None => result = (sv, None)
  | Some room =>
      if (GameRoom.maxPlayers room <=? List.length (GameRoom.players room))%nat
      then result = (sv, None)
      else if existsb (String.eqb playerId) (GameRoom.players room)
           then result = (sv, Some room)
           else
             let room' :=
               GameRoom.set_players room (GameRoom.players room ++ [playerId])%list in
             snd result = Some room'
             /\ GameService.getRoom roomId (fst result) = Some room'
             /\ (forall other,
                   other <> roomId ->
                   GameService.getRoom other (fst result) = GameService.getRoom other sv)
             /\ GameService.joinRoom roomId playerId (fst result)
                = (fst result,
                   if (GameRoom.maxPlayers room
                       <=? S (List.length (GameRoom.players room)))%nat
                   then None else Some room')
  end.
Proof.
  cbv zeta. unfold GameService.getRoom, GameService.joinRoom.
  destruct (map_get (GameService.rooms sv) roomId) as [room | ] eqn:Hget;
    [ | reflexivity ].
  destruct (GameRoom.maxPlayers room <=? List.length (GameRoom.players room))%nat
    eqn:Hfull; [ reflexivity | ].
  destruct (existsb (String.eqb playerId) (GameRoom.players room)) eqn:Hin;
    cbn [negb]; [ reflexivity | ].
  cbn [fst snd GameService.rooms]. split; [ reflexivity | ].
  split; [ apply map_get_set_same | ].
  split; [ intros other Hne; apply map_get_set_other; exact Hne | ].
  rewrite map_get_set_same.
  cbn [GameRoom.maxPlayers GameRoom.players GameRoom.set_players].
  rewrite length_app. cbn [List.length]. rewrite Nat.add_1_r.
  destruct (GameRoom.maxPlayers room <=? S (List.length (GameRoom.players room)))%nat;
    [ reflexivity | ].
  rewrite existsb_app. cbn [existsb]. rewrite String.eqb_refl, orb_true_r.
  reflexivity.
Qed.

(** X30: joining and leaving undo each other.  When a player who is not a
    member of a room, and has no car in its session, joins the room and then
    leaves it, the game service is in the state it was in before; the room
    must exist, not be full, and have a host other than that player among
    its members. *)
Theorem gameService_join_leave (roomId : RoomId) (playerId : string)
    (room : GameRoom.t) (sv : GameService.t) :
  GameService.getRoom roomId sv = Some room ->
  (List.length (GameRoom.players room) < GameRoom.maxPlayers room)%nat ->
  ~ In playerId (GameRoom.players room) ->
  In (GameRoom.host room) (GameRoom.players room) ->
  ~ In playerId (map Car.playerId (GameState.players (GameRoom.gameState room))) ->
  GameService.leaveRoom roomId playerId (fst (GameService.joinRoom roomId playerId sv))
  = sv.
Proof.
  intros Hget Hroom Hnot Hhost Hcar.
  unfold GameService.getRoom in Hget. unfold GameService.joinRoom. rewrite Hget.
  destruct (Nat.leb_spec (GameRoom.maxPlayers room) (List.length (GameRoom.players room)))
    as [Hfull | _]; [ lia | ].
  destruct (existsb (String.eqb playerId) (GameRoom.players room)) eqn:Hin.
  { apply existsb_eqb_string in Hin. contradiction. }
  cbn [negb fst]. unfold GameService.leaveRoom.
  cbn [GameService.rooms GameService.gameLoops GameService.intervals].
  rewrite map_get_set_same.
  cbn [GameRoom.players GameRoom.set_players GameRoom.set_gameState GameRoom.gameState
       GameRoom.host GameRoom.id GameRoom.name GameRoom.maxPlayers].
  assert (Hplayers :
            filter (fun id => negb (String.eqb id playerId))
                   (GameRoom.players room ++ [playerId]) = GameRoom.players room).
  { rewrite filter_app. cbn [filter]. rewrite String.eqb_refl. cbn [negb].
    rewrite app_nil_r. apply filter_all. intros id Hid.
    apply negb_true_iff, String.eqb_neq. intros ->. contradiction. }
  assert (Hcars :
            filter (fun p => negb (String.eqb (Car.playerId p) playerId))
                   (GameState.players (GameRoom.gameState room))
            = GameState.players (GameRoom.gameState room)).
  { apply filter_all. intros car Hin'.
    apply negb_true_iff, String.eqb_neq. intros Heq. apply Hcar.
    apply in_map_iff. exists car. split; assumption. }
  rewrite Hplayers, Hcars.
  destruct (GameRoom.players room) as [ | p rest] eqn:Hp; [ contradiction | ].
  cbn [List.length Nat.eqb Nat.ltb Nat.leb nth_error].
  assert (Hne : String.eqb (GameRoom.host room) playerId = false).
  { apply String.eqb_neq. intros Heq. apply Hnot. rewrite <- Heq. exact Hhost. }
  rewrite Hne. cbn [andb].
  rewrite map_set_twice.
  destruct sv as [rooms loops ints]. cbn [GameService.rooms GameService.gameLoops
                                          GameService.intervals] in *.
  f_equal. apply map_set_same. rewrite Hget. f_equal.
  destruct room as [rid rname rplayers rmax rhost g]. cbn in *.
  subst rplayers. f_equal. destruct g; reflexivity.
Qed.

(** ** Instances of the further properties *)

Section FurtherInstances.
Local Open Scope string_scope.

Lemma secondRace_found :
  map_get (rooms (run raceStartedAgain initialServer)) "r" = Some secondRace.
Proof. rewrite raceStartedAgain_result. reflexivity. Qed.

(** X5 (instance): a bottle thrown along the x axis from the middle of the
    track. *)
Lemma bottle_flight_ends_witness :
  exists n : nat,
    (0 < n)%nat
    /\ INR n <= 800 / Rabs (Vec.x (Bottle.velocity (thrown "b" 400))) + 2
    /\ (Vec.x (Bottle.position (Nat.iter n updateBottlePhysics (thrown "b" 400))) < 0
        \/ 800 < Vec.x (Bottle.position
                          (Nat.iter n updateBottlePhysics (thrown "b" 400))))
    /\ Bottle.active (Nat.iter n updateBottlePhysics (thrown "b" 400)) = false.
Proof.
  apply (bottle_flight_ends (thrown "b" 400)).
  - cbn [thrown Bottle.position Vec.x]. lra.
  - cbn [thrown Bottle.velocity Vec.x]. rewrite Rabs_pos_eq; lra.
Defined.

(** X6 (instance): the power-ups drawn with [Math.random()] at 0.5. *)
Lemma generatePowerUps_layout_witness :
  map PowerUp.id (generatePowerUps centred) = map (uuid centred) (seq 0 8).
Proof.
  apply (generatePowerUps_layout centred).
  intros i. cbn [centred random]. lra.
Defined.

(** X8 (instance): Alice's car on the grid, under brake, left and fire. *)
Lemma updateCarPhysics_at_rest_witness :
  updateCarPhysics alicesCar brakeTurnFire = alicesCar.
Proof.
  apply (updateCarPhysics_at_rest alicesCar brakeTurnFire).
  - reflexivity.
  - unfold inBounds. cbn. lra.
  - cbn. unfold PHYSICS.MAX_SPEED. lra.
  - reflexivity.
Defined.

(** X9 (instance): Alice's car at speed 6 in its lane, under brake, left
    and fire. *)
Lemma updateCarPhysics_coasting_witness :
  magnitude (Car.velocity (updateCarPhysics (alicesCarAt 300 6) brakeTurnFire))
  <= magnitude (Car.velocity (alicesCarAt 300 6)).
Proof.
  apply (updateCarPhysics_coasting (alicesCarAt 300 6) brakeTurnFire).
  - cbn [alicesCarAt Car.maxSpeed]. unfold PHYSICS.MAX_SPEED. lra.
  - reflexivity.
Defined.

(** X10 (instance): Alice's car at speed 0.4 in its lane, under brake, left
    and fire. *)
Lemma updateCarPhysics_heading_witness :
  Car.rotation (updateCarPhysics (alicesCarAt 300 0.4) brakeTurnFire)
  = Car.rotation (alicesCarAt 300 0.4).
Proof.
  apply (updateCarPhysics_heading (alicesCarAt 300 0.4) brakeTurnFire).
  left. split; [ reflexivity | ].
  unfold magnitude. cbn [alicesCarAt Car.velocity Vec.x Vec.y].
  rewrite sqrt_axis; [ lra | lra | reflexivity ].
Defined.

(** X17 (instance): the room of the race started again. *)
Lemma room_members_bounded_witness :
  reachable (run raceStartedAgain initialServer)
  /\ (1 <= List.length (Room.players secondRace) <= 6)%nat
  /\ NoDup (memberIds secondRace).
Proof.
  split; [ apply reachable_scenario | ].
  apply (room_members_bounded (run raceStartedAgain initialServer)
           (reachable_scenario raceStartedAgain) "r" secondRace secondRace_found).
Defined.

(** X18 (instance): the cars of the race started again. *)
Lemma one_car_per_member_witness :
  reachable (run raceStartedAgain initialServer)
  /\ NoDup (map Car.playerId (GameState.players (Room.gameState secondRace))).
Proof.
  split; [ apply reachable_scenario | ].
  apply (one_car_per_member (run raceStartedAgain initialServer)
           (reachable_scenario raceStartedAgain) "r" secondRace secondRace_found).
Defined.

(** X19 (instance): Alice's car in the race started again. *)
Lemma cars_on_track_witness :
  reachable (run raceStartedAgain initialServer)
  /\ inBounds (Car.position alicesCar).
Proof.
  split; [ apply reachable_scenario | ].
  apply (cars_on_track (run raceStartedAgain initialServer)
           (reachable_scenario raceStartedAgain) "r" secondRace alicesCar
           secondRace_found).
  left. reflexivity.
Defined.


(** X21 (instance): the race started again is ticked by interval 1. *)
Lemma racing_session_is_ticked_witness :
  reachable (run raceStartedAgain initialServer)
  /\ exists h,
       map_get (gameLoops (run raceStartedAgain initialServer)) "r" = Some h
       /\ In (h, "r") (intervals (run raceStartedAgain initialServer))
       /\ forall e,
            fireInterval h e (run raceStartedAgain initialServer)
            = updateGame "r" e (run raceStartedAgain initialServer).
Proof.
  split; [ apply reachable_scenario | ].
  apply (racing_session_is_ticked (run raceStartedAgain initialServer)
           (reachable_scenario raceStartedAgain) "r" secondRace secondRace_found);
    reflexivity.
Defined.

(** X22 (instance): Alice creates the first room. *)
Lemma membership_changes_on_join_or_leave_witness :
  (exists socket roomName playerName roomId,
      CreateRoom "A" "Track1" "Alice" "r"
      = CreateRoom socket roomName playerName roomId)
  \/ (exists socket roomId playerName,
        CreateRoom "A" "Track1" "Alice" "r" = JoinRoom socket roomId playerName)
  \/ (exists socket, CreateRoom "A" "Track1" "Alice" "r" = Disconnect socket).
Proof.
  apply (membership_changes_on_join_or_leave initialServer
           (CreateRoom "A" "Track1" "Alice" "r")).
  intros H. discriminate H.
Defined.


(** X30 (instance): player B joins the room of player A and leaves it. *)
Lemma gameService_join_leave_witness :
  GameService.leaveRoom "r" "B" (fst (GameService.joinRoom "r" "B" localGame))
  = localGame.
Proof.
  apply (gameService_join_leave "r" "B" localRoom localGame).
  - reflexivity.
  - cbn. lia.
  - intros [H | []]. discriminate H.
  - left. reflexivity.
  - intros [].
Defined.
End FurtherInstances.
